(** * Visual Product Matcher: the similarity pipeline and the image proxy

  A shallow embedding of
  - [lib/imageMatching.ts]: [getImageEmbedding], [normalizeVector],
    [cosineSimilarity], [findSimilarProducts];
  - [lib/normalizeImageUrl.ts]: [normalizeImageUrl];
  - [app/api/image-proxy/route.ts]: the [GET] handler.

  JavaScript numbers are IEEE 754 binary64 values.  The numeric code is
  written once over an interface [JsNumber] of the operations the source
  uses, and read at two carriers: [float] (Rocq's primitive binary64
  floats, the arithmetic the program really runs on) and [R] (exact real
  arithmetic, in which the rounding of every operation is left out). *)

From Stdlib Require Import String Ascii.
From Stdlib Require Import ZArith List Bool Lia Psatz.
From Stdlib Require Import Sorting.Sorted Sorting.Permutation.
From Stdlib Require Import Reals Lra.
From Stdlib Require Import Floats Uint63.
From Stdlib Require QArith.
Import ListNotations.

Set Implicit Arguments.

(* ================================================================== *)
(** * JavaScript numbers *)
(* ================================================================== *)

(** The operations on [number] that the sources use. *)
Class JsNumber (num : Type) : Type := {
  of_int : Z -> num;                  (* an integer literal, a typed-array element *)
  add : num -> num -> num;
  sub : num -> num -> num;
  mul : num -> num -> num;
  div : num -> num -> num;
  Math_sqrt : num -> num;
  Math_max : num -> num -> num;
  Math_min : num -> num -> num;
  strict_eq : num -> num -> bool;     (* a === b *)
  lt : num -> num -> bool;            (* a < b *)
  Number_isFinite : num -> bool
}.

Declare Scope js_scope.
Delimit Scope js_scope with js.
Notation "x + y" := (add x y) : js_scope.
Notation "x - y" := (sub x y) : js_scope.
Notation "x * y" := (mul x y) : js_scope.
Notation "x / y" := (div x y) : js_scope.
Notation "x === y" := (strict_eq x y) (at level 70, no associativity) : js_scope.
Notation "# z" := (of_int z) (at level 9, format "# z") : js_scope.

(** ** Binary64 *)

Module Float64.

(** Integers up to 2^53 are exact in binary64; the sources only convert
    array elements (0..255) and small literals. *)
Definition of_int (z : Z) : float :=
  match z with
  | Z0 => PrimFloat.zero
  | Zpos _ => PrimFloat.of_uint63 (Uint63.of_Z z)
  | Zneg p => PrimFloat.opp (PrimFloat.of_uint63 (Uint63.of_Z (Zpos p)))
  end.

(** [Math.max]: NaN if an argument is NaN, and +0 is larger than -0. *)
Definition max (x y : float) : float :=
  if PrimFloat.is_nan x || PrimFloat.is_nan y then PrimFloat.nan
  else if PrimFloat.ltb x y then y
  else if PrimFloat.ltb y x then x
  else if PrimFloat.get_sign x then y else x.

(** [Math.min]: NaN if an argument is NaN, and -0 is smaller than +0. *)
Definition min (x y : float) : float :=
  if PrimFloat.is_nan x || PrimFloat.is_nan y then PrimFloat.nan
  else if PrimFloat.ltb x y then x
  else if PrimFloat.ltb y x then y
  else if PrimFloat.get_sign x then x else y.

(** The rational that a finite binary64 value stands for: m·2^e, signed. *)
Definition exact (x : float) : QArith_base.Q :=
  match Prim2SF x with
  | S754_finite s m e =>
      QArith_base.Qmult (QArith_base.Qmake (if s then Zneg m else Zpos m) 1)
                        (QArith_base.Qpower (QArith_base.Qmake 2 1) e)
  | _ => QArith_base.Qmake 0 1
  end.

(** The sum of the squares of the components, without rounding. *)
Definition exactSumOfSquares (vector : list float) : QArith_base.Q :=
  fold_left (fun sum value => QArith_base.Qplus sum (QArith_base.Qmult (exact value) (exact value)))
            vector (QArith_base.Qmake 0 1).

(** A number whose square neither underflows nor overflows: zero, or
    at least 2^-500 and below 2^499 in absolute value. *)
Definition moderate (x : float) : bool :=
  PrimFloat.eqb x 0%float ||
  (PrimFloat.leb 0x1p-500%float (PrimFloat.abs x) &&
   PrimFloat.ltb (PrimFloat.abs x) 0x1p499%float).

End Float64.

(** [+], [-], [*], [/] and the comparisons of JavaScript are those of
    IEEE 754, and [Math.sqrt] is its correctly rounded square root. *)
#[export] Instance float_number : JsNumber float := {|
  of_int := Float64.of_int;
  add := PrimFloat.add;
  sub := PrimFloat.sub;
  mul := PrimFloat.mul;
  div := PrimFloat.div;
  Math_sqrt := PrimFloat.sqrt;
  Math_max := Float64.max;
  Math_min := Float64.min;
  strict_eq := PrimFloat.eqb;
  lt := PrimFloat.ltb;
  Number_isFinite := PrimFloat.is_finite
|}.

(** ** Exact arithmetic *)

Module Exact.

Definition eqb (x y : R) : bool := if Req_dec_T x y then true else false.
Definition ltb (x y : R) : bool := if Rlt_dec x y then true else false.

End Exact.

(** Every real is finite: there is no NaN and no infinity, and no rounding. *)
#[export] Instance exact_number : JsNumber R := {|
  of_int := IZR;
  add := Rplus;
  sub := Rminus;
  mul := Rmult;
  div := Rdiv;
  Math_sqrt := R_sqrt.sqrt;
  Math_max := Rmax;
  Math_min := Rmin;
  strict_eq := Exact.eqb;
  lt := Exact.ltb;
  Number_isFinite := fun _ => true
|}.

(* ================================================================== *)
(** * lib/imageMatching.ts *)
(* ================================================================== *)

Section ImageMatching.

Context {num : Type} `{JsNumber num}.
Local Open Scope js_scope.

(** ** normalizeVector *)

Definition sumOfSquares (vector : list num) : num :=
  fold_left (fun sum value => sum + value * value) vector #0.

Definition magnitudeOf (vector : list num) : num :=
  Math_sqrt (sumOfSquares vector).

Definition normalizeVector (vector : list num) : list num :=
  let magnitude := magnitudeOf vector in
  if negb (Number_isFinite magnitude) || (magnitude === #0)
  then map (fun _ => #0) vector
  else map (fun value => value / magnitude) vector.

(** ** cosineSimilarity *)

(** The loop [for (i = 0; i < Math.min(a.length, b.length); i += 1)]
    over [(dot, magA, magB)]: it stops with the shorter vector. *)
Fixpoint cosineLoop (a b : list num) (acc : num * num * num) : num * num * num :=
  match a, b with
  | x :: a', y :: b' =>
      let '(dot, magA, magB) := acc in
      cosineLoop a' b' (dot + x * y, magA + x * x, magB + y * y)
  | _, _ => acc
  end.

Definition cosineSimilarity (a b : list num) : num :=
  let '(dot, magA, magB) := cosineLoop a b (#0, #0, #0) in
  if (magA === #0) || (magB === #0) then #0
  else dot / Math_sqrt (magA * magB).

(** Either operand has zero magnitude over the shared prefix: the guard
    of [cosineSimilarity]. *)
Definition zeroMagnitude (a b : list num) : bool :=
  let '(_, magA, magB) := cosineLoop a b (#0, #0, #0) in
  (magA === #0) || (magB === #0).

(** Every component is zero ([+0] or [-0]). *)
Definition allZero (vector : list num) : Prop :=
  Forall (fun value => (value === #0) = true) vector.

(** The guard of [normalizeVector]: the magnitude is 0 or not finite. *)
Definition degenerate (vector : list num) : bool :=
  negb (Number_isFinite (magnitudeOf vector)) || (magnitudeOf vector === #0).

(** ** getImageEmbedding *)

Definition CANVAS_SIZE : Z := 48.

(** The six accumulators of the pixel loop. *)
Record Totals : Type := {
  redTotal : num;
  greenTotal : num;
  blueTotal : num;
  brightnessTotal : num;
  brightnessSquares : num;
  saturationTotal : num
}.

Definition zeroTotals : Totals :=
  {| redTotal := #0; greenTotal := #0; blueTotal := #0;
     brightnessTotal := #0; brightnessSquares := #0; saturationTotal := #0 |}.

(** One iteration of the loop body, on the channels [r], [g], [b]. *)
Definition pixelStep (t : Totals) (r g b : num) : Totals :=
  let max := Math_max (Math_max r g) b in
  let min := Math_min (Math_min r g) b in
  let brightness := (r + g + b) / (#3 * #255) in
  let saturation := if max === #0 then #0 else (max - min) / max in
  {| redTotal := redTotal t + r;
     greenTotal := greenTotal t + g;
     blueTotal := blueTotal t + b;
     brightnessTotal := brightnessTotal t + brightness;
     brightnessSquares := brightnessSquares t + brightness * brightness;
     saturationTotal := saturationTotal t + saturation |}.

(** [for (let i = 0; i < data.length; i += 4)]: [data] is the RGBA buffer
    of [getImageData], four bytes a pixel, so its length is a multiple of
    four and the loop ends exactly at the end of the buffer. *)
Fixpoint pixelLoop (data : list Z) (t : Totals) : Totals :=
  match data with
  | r :: g :: b :: _ :: rest => pixelLoop rest (pixelStep t #r #g #b)
  | _ => t
  end.

(** [getImageEmbedding], from the pixel buffer [data] that
    [ctx.getImageData(0, 0, CANVAS_SIZE, CANVAS_SIZE)] returns. *)
Definition getImageEmbedding (data : list Z) : list num :=
  let pixelCount := #CANVAS_SIZE * #CANVAS_SIZE in
  let t := pixelLoop data zeroTotals in
  let avgBrightness := brightnessTotal t / pixelCount in
  let brightnessVariance :=
    brightnessSquares t / pixelCount - avgBrightness * avgBrightness in
  let contrast := Math_sqrt (Math_max brightnessVariance #0) in
  let avgSaturation := saturationTotal t / pixelCount in
  normalizeVector
    [ redTotal t / (pixelCount * #255);
      greenTotal t / (pixelCount * #255);
      blueTotal t / (pixelCount * #255);
      avgBrightness;
      contrast;
      avgSaturation ].

(** ** findSimilarProducts *)

Record CatalogEmbedding : Type := {
  entry_id : Z;
  embedding : list num
}.

Record SimilarityScore : Type := {
  score_id : Z;
  similarity : num
}.

(** [Math.max(0, cosineSimilarity(imageEmbedding, normalizeVector(entry.embedding)) * 100)] *)
Definition scoreOf (imageEmbedding : list num) (entry : CatalogEmbedding) : num :=
  Math_max #0 (cosineSimilarity imageEmbedding (normalizeVector (embedding entry)) * #100).

(** The comparator [(a, b) => b.similarity - a.similarity]. *)
Definition bySimilarityDesc (a b : SimilarityScore) : num :=
  similarity b - similarity a.

(** [Array.prototype.sort(comparefn)] is a stable sort: [x] moves behind
    [y] only when [comparefn(x, y) > 0]; a result that is 0, negative or
    NaN keeps their order.  For a comparator that orders the elements
    consistently every stable sort returns this list. *)
Fixpoint sortInsert {A : Type} (comparefn : A -> A -> num) (x : A) (sorted : list A) : list A :=
  match sorted with
  | [] => [x]
  | y :: rest =>
      if lt #0 (comparefn x y) then y :: sortInsert comparefn x rest
      else x :: sorted
  end.

Definition Array_sort {A : Type} (comparefn : A -> A -> num) (l : list A) : list A :=
  fold_right (sortInsert comparefn) [] l.

(** [x] may stand before [y]: the comparator does not ask to swap them. *)
Definition inOrder {A : Type} (comparefn : A -> A -> num) (x y : A) : Prop :=
  lt #0 (comparefn x y) = false.

(** The [map] stage: every catalog entry with its score, in catalog order. *)
Definition scored (imageEmbedding : list num) (catalogEmbeddings : list CatalogEmbedding)
  : list SimilarityScore :=
  map (fun entry => {| score_id := entry_id entry;
                       similarity := scoreOf imageEmbedding entry |})
      catalogEmbeddings.

(** [findSimilarProducts(sourceImage, catalogEmbeddings, topK)], from the
    pixel buffer of the source image. *)
Definition findSimilarProducts
    (data : list Z) (catalogEmbeddings : list CatalogEmbedding) (topK : nat)
  : list SimilarityScore :=
  let imageEmbedding := getImageEmbedding data in
  firstn topK (Array_sort bySimilarityDesc (scored imageEmbedding catalogEmbeddings)).

End ImageMatching.

Arguments Totals : clear implicits.
Arguments CatalogEmbedding : clear implicits.
Arguments SimilarityScore : clear implicits.

(* ================================================================== *)
(** * The web platform *)
(* ================================================================== *)

Local Open Scope string_scope.

(** [String.prototype.includes] *)
Fixpoint includes (s sub : string) : bool :=
  String.prefix sub s ||
  match s with
  | EmptyString => false
  | String _ s' => includes s' sub
  end.

(** A string is truthy when it is not empty. *)
Definition truthy (s : string) : bool := negb (String.eqb s "").

(** ** URLSearchParams: an ordered list of name-value pairs *)

Module URLSearchParams.

Definition t : Type := list (string * string).

Fixpoint get (params : t) (name : string) : option string :=
  match params with
  | [] => None
  | (k, v) :: rest => if String.eqb k name then Some v else get rest name
  end.

Definition has (params : t) (name : string) : bool :=
  existsb (fun kv => String.eqb (fst kv) name) params.

Definition remove (params : t) (name : string) : t :=
  filter (fun kv => negb (String.eqb (fst kv) name)) params.

(** [set]: the first pair of that name takes the value and the others
    of that name go; without such a pair the new pair is appended. *)
Fixpoint set (params : t) (name value : string) : t :=
  match params with
  | [] => [(name, value)]
  | (k, v) :: rest =>
      if String.eqb k name then (k, value) :: remove rest name
      else (k, v) :: set rest name value
  end.

End URLSearchParams.

(** ** URL *)

Record URL : Type := {
  protocol : string;
  username : string;
  password : string;
  hostname : string;
  port : string;
  pathname : string;
  searchParams : URLSearchParams.t;
  hash : string
}.

Definition withSearchParams (u : URL) (params : URLSearchParams.t) : URL :=
  {| protocol := protocol u; username := username u; password := password u;
     hostname := hostname u; port := port u; pathname := pathname u;
     searchParams := params; hash := hash u |}.

(** The URL parser and serializer of the platform: [new URL(s)], which
    throws a TypeError ([None]) on a string that is not a URL, and
    [url.toString()]. *)
Class UrlPlatform : Type := {
  URL_parse : string -> option URL;
  URL_toString : URL -> string
}.

(* ================================================================== *)
(** * lib/normalizeImageUrl.ts *)
(* ================================================================== *)

Section NormalizeImageUrl.

Context `{UrlPlatform}.

(** The three [if (!params.has(k)) params.set(k, v)] statements. *)
Definition ensureParam (name value : string) (params : URLSearchParams.t) : URLSearchParams.t :=
  if negb (URLSearchParams.has params name) then URLSearchParams.set params name value
  else params.

Definition ensureFormatParams (params : URLSearchParams.t) : URLSearchParams.t :=
  ensureParam "fm" "jpg" (ensureParam "fit" "crop" (ensureParam "auto" "format" params)).

(** The parameters the Unsplash branch asks for, with their defaults. *)
Definition formatDefaults : URLSearchParams.t :=
  [("auto", "format"); ("fit", "crop"); ("fm", "jpg")].

(** The defaults whose name [params] does not have. *)
Definition missingDefaults (params : URLSearchParams.t) : URLSearchParams.t :=
  filter (fun kv => negb (URLSearchParams.has params (fst kv))) formatDefaults.

(** The code after the wrapper check: the Unsplash branch, or the final
    [return rawUrl]. *)
Definition normalizeDirect (rawUrl : string) (parsed : URL) : string :=
  if includes (hostname parsed) "images.unsplash.com" then
    URL_toString (withSearchParams parsed (ensureFormatParams (searchParams parsed)))
  else rawUrl.

(** [normalizeImageUrl], with a bound on the depth of its recursion:
    [None] when the bound is reached.  A string that does not parse
    makes [new URL] throw; the [catch] returns [rawUrl]. *)
Fixpoint normalizeImageUrlWithin (depth : nat) (rawUrl : string) : option string :=
  match depth with
  | O => None
  | S depth' =>
      match URL_parse rawUrl with
      | None => Some rawUrl
      | Some parsed =>
          if includes (hostname parsed) "google." && includes (pathname parsed) "/imgres" then
            match URLSearchParams.get (searchParams parsed) "imgurl" with
            | Some actualImageUrl =>
                if truthy actualImageUrl then normalizeImageUrlWithin depth' actualImageUrl
                else Some (normalizeDirect rawUrl parsed)
            | None => Some (normalizeDirect rawUrl parsed)
            end
          else Some (normalizeDirect rawUrl parsed)
      end
  end.

(** [normalizeImageUrl rawUrl]: one call for each character of [rawUrl]
    is allowed, and one more. *)
Definition normalizeImageUrl (rawUrl : string) : option string :=
  normalizeImageUrlWithin (S (String.length rawUrl)) rawUrl.

(** What the parser of the platform guarantees about lengths: a value
    of the query is decoded from a part of the string that was parsed,
    and decoding never lengthens. *)
Definition paramsShorter : Prop :=
  forall (s : string) (u : URL) (k v : string),
    URL_parse s = Some u -> In (k, v) (searchParams u) ->
    (String.length v < String.length s)%nat.

End NormalizeImageUrl.

(* ================================================================== *)
(** * app/api/image-proxy/route.ts *)
(* ================================================================== *)

Inductive ResponseBody : Type :=
| JsonError (error : string)          (* the JSON object { "error": error } *)
| Stream (body : string).             (* the upstream body, passed through *)

Record Response : Type := {
  status : Z;
  headers : list (string * string);
  body : ResponseBody
}.

(** What [fetch] resolves to: the status, the two headers the handler
    reads and the body ([None] for a null body). *)
Record UpstreamResponse : Type := {
  upstream_status : Z;
  content_type : option string;
  content_length : option string;
  upstream_body : option string
}.

(** [response.ok]: the status is in the range 200 to 299. *)
Definition ok (r : UpstreamResponse) : bool :=
  (200 <=? upstream_status r)%Z && (upstream_status r <=? 299)%Z.

(** One outbound request, as the handler issues it. *)
Record FetchCall : Type := {
  fetch_url : string;
  fetch_redirect : string;
  fetch_cache : string;
  fetch_headers : list (string * string)
}.

(** The network: [None] when [fetch] rejects. *)
Class Network : Type := {
  fetch : FetchCall -> option UpstreamResponse
}.

(** How a call of the handler ends, and the outbound requests it made. *)
Inductive Completion : Type :=
| Returned (response : Response)
| Thrown                              (* an exception leaves the handler *)
| Unfinished.                         (* [normalizeImageUrl] did not return *)

Record HandlerRun : Type := {
  completion : Completion;
  fetched : list FetchCall
}.

Definition ALLOWED_PROTOCOLS : list string := ["http:"; "https:"].

Definition Set_has (set : list string) (x : string) : bool :=
  existsb (String.eqb x) set.

(** The statuses the [Response] constructor takes for a response with a
    body (Fetch standard): 200 to 599, and not a null body status. *)
Definition statusAllowsBody (status : Z) : bool :=
  (200 <=? status)%Z && (status <=? 599)%Z &&
  negb ((status =? 204)%Z || (status =? 205)%Z || (status =? 304)%Z).

(** The response with the JSON body { "error": error }. *)
Definition errorResponse (status : Z) (error : string) : Response :=
  {| status := status;
     headers := [("content-type", "application/json")];
     body := JsonError error |}.

(** [NextResponse.json({ error }, { status })]: [None] when the
    constructor throws. *)
Definition NextResponse_json (error : string) (status : Z) : option Response :=
  if statusAllowsBody status then Some (errorResponse status error) else None.

Definition completed (r : option Response) : Completion :=
  match r with
  | Some response => Returned response
  | None => Thrown
  end.

Definition upstreamHeaders : list (string * string) :=
  [ ("User-Agent",
     "Mozilla/5.0 (Windows NT 10.0; Win64; x64) AppleWebKit/537.36 (KHTML, like Gecko) Chrome/122 Safari/537.36");
    ("Accept", "image/avif,image/webp,image/apng,image/*,*/*;q=0.8");
    ("Accept-Language", "en-US,en;q=0.9") ].

Definition headerIfTruthy (name : string) (value : option string) : list (string * string) :=
  match value with
  | Some v => if truthy v then [(name, v)] else []
  | None => []
  end.

Section Route.

Context `{UrlPlatform} `{Network}.

(** The [catch] of the second [try]: whatever is thrown inside it ends
    in the 502 response. *)
Definition orProxyFailure (r : option Response) : Completion :=
  match r with
  | Some response => Returned response
  | None => completed (NextResponse_json "Unexpected proxy failure" 502)
  end.

(** The one outbound request of the handler. *)
Definition upstreamCall (parsedUrl : URL) : FetchCall :=
  {| fetch_url := URL_toString parsedUrl;
     fetch_redirect := "follow";
     fetch_cache := "no-store";
     fetch_headers := upstreamHeaders |}.

(** The second [try] block, after validation. *)
Definition fetchAndRelay (parsedUrl : URL) : HandlerRun :=
  let call := upstreamCall parsedUrl in
  {| fetched := [call];
     completion :=
       match fetch call with
       | None => orProxyFailure None
       | Some upstreamResponse =>
           match (if ok upstreamResponse then upstream_body upstreamResponse else None) with
           | None =>
               orProxyFailure
                 (NextResponse_json "Failed to fetch remote image"
                    (if (upstream_status upstreamResponse =? 0)%Z then 502%Z
                     else upstream_status upstreamResponse))
           | Some stream =>
               Returned
                 {| status := 200;
                    headers :=
                      headerIfTruthy "Content-Type" (content_type upstreamResponse) ++
                      headerIfTruthy "Content-Length" (content_length upstreamResponse) ++
                      [ ("Cache-Control", "public, max-age=60");
                        ("Access-Control-Allow-Origin", "*") ];
                    body := Stream stream |}
           end
       end |}.

Definition withoutFetch (c : Completion) : HandlerRun :=
  {| completion := c; fetched := [] |}.

(** [GET(request)], from [request.url]. *)
Definition GET (request_url : string) : HandlerRun :=
  match URL_parse request_url with
  | None => withoutFetch Thrown
  | Some requestUrl =>
      match URLSearchParams.get (searchParams requestUrl) "url" with
      | None => withoutFetch (completed (NextResponse_json "Missing url query parameter" 400))
      | Some target =>
          if negb (truthy target)
          then withoutFetch (completed (NextResponse_json "Missing url query parameter" 400))
          else
            match normalizeImageUrl target with
            | None => withoutFetch Unfinished
            | Some normalized =>
                match URL_parse normalized with
                | None => withoutFetch (completed (NextResponse_json "Invalid URL supplied" 400))
                | Some parsedUrl =>
                    if negb (Set_has ALLOWED_PROTOCOLS (protocol parsedUrl))
                    then withoutFetch
                           (completed (NextResponse_json "Only http and https protocols are allowed" 400))
                    else fetchAndRelay parsedUrl
                end
            end
      end
  end.

(** A JSON error response, sent before any outbound request. *)
Definition rejected (status : Z) (error : string) : HandlerRun :=
  withoutFetch (Returned (errorResponse status error)).

(** The request passes the three checks, and [parsedUrl] is the URL that
    the handler then fetches. *)
Definition passesValidation (request_url : string) (parsedUrl : URL) : Prop :=
  exists (requestUrl : URL) (target normalized : string),
    URL_parse request_url = Some requestUrl /\
    URLSearchParams.get (searchParams requestUrl) "url" = Some target /\
    target <> "" /\
    normalizeImageUrl target = Some normalized /\
    URL_parse normalized = Some parsedUrl /\
    Set_has ALLOWED_PROTOCOLS (protocol parsedUrl) = true.

End Route.

(* ================================================================== *)
(** * The embedding, as the specification words it *)
(* ================================================================== *)

Module EmbeddingSpec.
Section EmbeddingSpec.

Context {num : Type} `{JsNumber num}.
Local Open Scope js_scope.

(** The pixels of an RGBA buffer, in order, without the alpha channel. *)
Fixpoint pixelsOf (data : list Z) : list (Z * Z * Z) :=
  match data with
  | r :: g :: b :: _ :: rest => (r, g, b) :: pixelsOf rest
  | _ => []
  end.

Definition red (p : Z * Z * Z) : num := #(fst (fst p)).
Definition green (p : Z * Z * Z) : num := #(snd (fst p)).
Definition blue (p : Z * Z * Z) : num := #(snd p).

(** (r+g+b)/(3·255) *)
Definition brightness (p : Z * Z * Z) : num :=
  (red p + green p + blue p) / (#3 * #255).

(** 0 if max(r,g,b) is 0, else (max-min)/max *)
Definition saturation (p : Z * Z * Z) : num :=
  let max := Math_max (Math_max (red p) (green p)) (blue p) in
  let min := Math_min (Math_min (red p) (green p)) (blue p) in
  if max === #0 then #0 else (max - min) / max.

(** The sum of a list, taken from the left and starting at 0. *)
Definition total (values : list num) : num := fold_left add values #0.

(** The average of one value a pixel. *)
Definition average (values : list num) : num :=
  total values / #(Z.of_nat (length values)).

(** sum/(N²·255), with N² the number of pixels *)
Definition channelMean (channel : Z * Z * Z -> num) (pixels : list (Z * Z * Z)) : num :=
  total (map channel pixels) / #(Z.of_nat (length pixels) * 255).

Definition mean_brightness (pixels : list (Z * Z * Z)) : num :=
  average (map brightness pixels).

Definition brightness_variance (pixels : list (Z * Z * Z)) : num :=
  average (map (fun p => brightness p * brightness p) pixels)
  - mean_brightness pixels * mean_brightness pixels.

(** the square root of the variance, floored at 0 *)
Definition contrast (pixels : list (Z * Z * Z)) : num :=
  Math_sqrt (Math_max (brightness_variance pixels) #0).

Definition mean_saturation (pixels : list (Z * Z * Z)) : num :=
  average (map saturation pixels).

Definition features (pixels : list (Z * Z * Z)) : list num :=
  [ channelMean red pixels; channelMean green pixels; channelMean blue pixels;
    mean_brightness pixels; contrast pixels; mean_saturation pixels ].

End EmbeddingSpec.
End EmbeddingSpec.

(* ================================================================== *)
(** * Sample inputs *)
(* ================================================================== *)

Module Samples.

(** A 48x48 image of one colour, opaque. *)
Definition uniformImage (r g b : Z) : list Z :=
  List.concat (repeat [r; g; b; 255%Z] (48 * 48)).

Definition redImage : list Z := uniformImage 255 0 0.
Definition blueImage : list Z := uniformImage 0 0 255.
Definition blackImage : list Z := uniformImage 0 0 0.

(** A catalog of three entries; the third stores an all-zero embedding. *)
Definition catalog3 : list (CatalogEmbedding float) :=
  [ {| entry_id := 1; embedding := getImageEmbedding blueImage |};
    {| entry_id := 2; embedding := getImageEmbedding redImage |};
    {| entry_id := 3; embedding := repeat 0%float 6 |} ].


(** ** A platform for the examples

    A URL parser that knows the URLs of the examples, as [new URL] parses
    them, and rejects every other string; and a serializer that writes the
    components of a URL without encoding them. *)

Definition url (protocol hostname port pathname : string) (params : URLSearchParams.t) : URL :=
  {| protocol := protocol; username := ""; password := ""; hostname := hostname;
     port := port; pathname := pathname; searchParams := params; hash := "" |}.

Definition proxyUrl (query : string) (params : URLSearchParams.t) : string * URL :=
  ("http://localhost:3000/api/image-proxy" ++ query,
   url "http:" "localhost" "3000" "/api/image-proxy" params).

Definition knownUrls : list (string * URL) :=
  [ ("https://images.unsplash.com/photo-1",
     url "https:" "images.unsplash.com" "" "/photo-1" []);
    ("https://images.unsplash.com/photo-1?fit=max&w=400",
     url "https:" "images.unsplash.com" "" "/photo-1" [("fit", "max"); ("w", "400")]);
    ("https://images.unsplash.com/photo-1?auto=format&fit=crop&fm=jpg",
     url "https:" "images.unsplash.com" "" "/photo-1"
         [("auto", "format"); ("fit", "crop"); ("fm", "jpg")]);
    ("https://www.google.com/imgres?imgurl=https://images.unsplash.com/photo-1&h=2",
     url "https:" "www.google.com" "" "/imgres"
         [("imgurl", "https://images.unsplash.com/photo-1"); ("h", "2")]);
    ("https://example.com/a.png", url "https:" "example.com" "" "/a.png" []);
    ("https://example.com/missing.png", url "https:" "example.com" "" "/missing.png" []);
    ("ftp://example.com/a.png", url "ftp:" "example.com" "" "/a.png" []);
    proxyUrl "" [];
    proxyUrl "?url=" [("url", "")];
    proxyUrl "?url=nonsense" [("url", "nonsense")];
    proxyUrl "?url=ftp://example.com/a.png" [("url", "ftp://example.com/a.png")];
    proxyUrl "?url=https://example.com/a.png" [("url", "https://example.com/a.png")];
    proxyUrl "?url=https://example.com/missing.png"
             [("url", "https://example.com/missing.png")] ].

(** A request for an image that the upstream server does not have. *)
Definition missingRequest : string :=
  "http://localhost:3000/api/image-proxy?url=https://example.com/missing.png".

Definition missingImage : URL := url "https:" "example.com" "" "/missing.png" [].

Fixpoint lookupUrl (table : list (string * URL)) (s : string) : option URL :=
  match table with
  | [] => None
  | (k, u) :: rest => if String.eqb k s then Some u else lookupUrl rest s
  end.

Fixpoint writeParams (params : URLSearchParams.t) : string :=
  match params with
  | [] => ""
  | [(k, v)] => k ++ "=" ++ v
  | (k, v) :: rest => k ++ "=" ++ v ++ "&" ++ writeParams rest
  end.

Definition writeUrl (u : URL) : string :=
  protocol u ++ "//" ++ hostname u ++
  (if truthy (port u) then ":" ++ port u else "") ++
  pathname u ++
  (match searchParams u with [] => "" | _ => "?" ++ writeParams (searchParams u) end) ++
  hash u.

#[export] Instance platform : UrlPlatform := {|
  URL_parse := lookupUrl knownUrls;
  URL_toString := writeUrl
|}.

(** A network on which one image exists, one is missing and every other
    request fails. *)
#[export] Instance network : Network := {|
  fetch := fun call =>
    if String.eqb (fetch_url call) "https://example.com/a.png" then
      Some {| upstream_status := 200; content_type := Some "image/png";
              content_length := Some "3"; upstream_body := Some "PNG" |}
    else if String.eqb (fetch_url call) "https://example.com/missing.png" then
      Some {| upstream_status := 404; content_type := Some "text/plain";
              content_length := None; upstream_body := Some "Not Found" |}
    else None
|}.

End Samples.

(* ================================================================== *)
(** * More inputs and readings of the code *)
(* ================================================================== *)

(** A buffer whose pixels are all black, whatever their alpha. *)
Definition blackBuffer (data : list Z) : Prop :=
  Forall (fun p => p = (0, 0, 0)%Z) (EmbeddingSpec.pixelsOf data).

Section PlatformPromises.

Context `{UrlPlatform}.

(** What the platform guarantees about serialization: the string that
    [toString] writes for a parsed URL, after the Unsplash branch has set
    its query parameters, parses back to that URL. *)
Definition serializationReparses : Prop :=
  forall (s : string) (u : URL),
    URL_parse s = Some u ->
    includes (hostname u) "images.unsplash.com" = true ->
    URL_parse (URL_toString (withSearchParams u (ensureFormatParams (searchParams u)))) =
    Some (withSearchParams u (ensureFormatParams (searchParams u))).

End PlatformPromises.

Module MoreSamples.

(** The URLs of [Samples], and the normalization of each Unsplash URL
    among them. *)
Definition wrapperLink : string :=
  "https://www.google.com/imgres?imgurl=https://images.unsplash.com/photo-1&h=2".

(** Two requests to the proxy, as [encodeURIComponent] writes their url
    parameter: one for [wrapperLink], one for the image inside it. *)
Definition wrapperRequest : string :=
  "http://localhost:3000/api/image-proxy?url=https%3A%2F%2Fwww.google.com%2Fimgres%3Fimgurl%3Dhttps%3A%2F%2Fimages.unsplash.com%2Fphoto-1%26h%3D2".

Definition innerRequest : string :=
  "http://localhost:3000/api/image-proxy?url=https%3A%2F%2Fimages.unsplash.com%2Fphoto-1".

Definition proxyRequest (params : URLSearchParams.t) : URL :=
  Samples.url "http:" "localhost" "3000" "/api/image-proxy" params.

Definition closedUrls : list (string * URL) :=
  (Samples.knownUrls ++
   [ ("https://images.unsplash.com/photo-1?fit=max&w=400&auto=format&fm=jpg",
      Samples.url "https:" "images.unsplash.com" "" "/photo-1"
                  [("fit", "max"); ("w", "400"); ("auto", "format"); ("fm", "jpg")]);
     (wrapperRequest, proxyRequest [("url", wrapperLink)]);
     (innerRequest, proxyRequest [("url", "https://images.unsplash.com/photo-1")]) ])%list.

Definition closedPlatform : UrlPlatform := {|
  URL_parse := Samples.lookupUrl closedUrls;
  URL_toString := Samples.writeUrl
|}.

End MoreSamples.

(* ================================================================== *)
(** * app/page.tsx *)
(* ================================================================== *)

Module Page.

(** [Math.round]: the integer nearest to [x], the larger one at a tie; an
    integer, an infinity or NaN is returned as it is, and a result of
    zero keeps the sign of [x].  A finite [x] is m·2^e: with [e < 0] the
    result is the floor of (2m + 2^-e) / 2^(1-e), which is below 2^53. *)
Definition Math_round (x : float) : float :=
  match Prim2SF x with
  | S754_finite s m e =>
      if (0 <=? e)%Z then x
      else
        let n := ((cond_Zopp s (2 * Zpos m) + 2 ^ (- e)) / 2 ^ (1 - e))%Z in
        if (n =? 0)%Z then (if s then PrimFloat.neg_zero else PrimFloat.zero)
        else Float64.of_int n
  | _ => x
  end.

Record Product : Type := {
  product_id : Z;
  product_name : string;
  category : string;
  image : string;
  tags : list string;
  price : float;
  description : string;
  product_embedding : list float
}.

(** [{ ...product, similarity }] *)
Record ProductResult : Type := {
  product : Product;
  result_similarity : float
}.

(** [data.map((product) => ({ id: product.id, embedding: product.embedding }))] *)
Definition embeddingsOf (data : list Product) : list (CatalogEmbedding float) :=
  map (fun product => {| entry_id := product_id product;
                         embedding := product_embedding product |}) data.

(** The lines of [handleSearch] between [findSimilarProducts] and
    [setSimilarProducts]: the filter by threshold and the loop that looks
    every remaining result up in [products]. *)
Definition matchesFor (products : list Product) (filterThreshold : float)
    (results : list (SimilarityScore float)) : list ProductResult :=
  let filteredResults :=
    filter (fun item => PrimFloat.leb filterThreshold (similarity item)) results in
  fold_left
    (fun matches match_ =>
       match find (fun entry => (product_id entry =? score_id match_)%Z) products with
       | Some product =>
           (matches ++ [ {| product := product;
                            result_similarity := Math_round (similarity match_) |} ])%list
       | None => matches
       end)
    filteredResults [].

(** What one turn of that loop pushes. *)
Definition pushed (products : list Product) (match_ : SimilarityScore float)
  : list ProductResult :=
  match find (fun entry => (product_id entry =? score_id match_)%Z) products with
  | Some product => [ {| product := product;
                         result_similarity := Math_round (similarity match_) |} ]
  | None => []
  end.

(** ** The state of the page

    The [useState] values, the [useRef] values that the handlers read and
    write, and the two parts of the browser that the handlers act on: the
    object URLs that are created and not yet revoked, and the images that
    [loadImage] has started to load. *)

(** What drawing an image on the canvas and reading it back gives:
    the RGBA buffer, or an exception. *)
Inductive Drawing : Type :=
| Pixels (data : list Z)
| DrawingThrows.

Record Image : Type := {
  src : string;
  drawing : Drawing
}.

Record State : Type := {
  products : list Product;
  productEmbeddings : list (CatalogEmbedding float);
  uploadedImage : option string;
  imageElement : option Image;
  similarProducts : list ProductResult;
  loading : bool;
  error : option string;
  filterThreshold : float;
  fileInputValue : string;
  urlInputValue : string;
  remoteObjectUrlRef : option string;
  objectUrls : list string;
  imageLoads : list (string * bool)
}.

Definition setUploadedImage (v : option string) (st : State) : State :=
  {| products := products st; productEmbeddings := productEmbeddings st;
     uploadedImage := v; imageElement := imageElement st;
     similarProducts := similarProducts st; loading := loading st; error := error st;
     filterThreshold := filterThreshold st; fileInputValue := fileInputValue st;
     urlInputValue := urlInputValue st; remoteObjectUrlRef := remoteObjectUrlRef st;
     objectUrls := objectUrls st; imageLoads := imageLoads st |}.

Definition setImageElement (v : option Image) (st : State) : State :=
  {| products := products st; productEmbeddings := productEmbeddings st;
     uploadedImage := uploadedImage st; imageElement := v;
     similarProducts := similarProducts st; loading := loading st; error := error st;
     filterThreshold := filterThreshold st; fileInputValue := fileInputValue st;
     urlInputValue := urlInputValue st; remoteObjectUrlRef := remoteObjectUrlRef st;
     objectUrls := objectUrls st; imageLoads := imageLoads st |}.

Definition setSimilarProducts (v : list ProductResult) (st : State) : State :=
  {| products := products st; productEmbeddings := productEmbeddings st;
     uploadedImage := uploadedImage st; imageElement := imageElement st;
     similarProducts := v; loading := loading st; error := error st;
     filterThreshold := filterThreshold st; fileInputValue := fileInputValue st;
     urlInputValue := urlInputValue st; remoteObjectUrlRef := remoteObjectUrlRef st;
     objectUrls := objectUrls st; imageLoads := imageLoads st |}.

Definition setLoading (v : bool) (st : State) : State :=
  {| products := products st; productEmbeddings := productEmbeddings st;
     uploadedImage := uploadedImage st; imageElement := imageElement st;
     similarProducts := similarProducts st; loading := v; error := error st;
     filterThreshold := filterThreshold st; fileInputValue := fileInputValue st;
     urlInputValue := urlInputValue st; remoteObjectUrlRef := remoteObjectUrlRef st;
     objectUrls := objectUrls st; imageLoads := imageLoads st |}.

Definition setError (v : option string) (st : State) : State :=
  {| products := products st; productEmbeddings := productEmbeddings st;
     uploadedImage := uploadedImage st; imageElement := imageElement st;
     similarProducts := similarProducts st; loading := loading st; error := v;
     filterThreshold := filterThreshold st; fileInputValue := fileInputValue st;
     urlInputValue := urlInputValue st; remoteObjectUrlRef := remoteObjectUrlRef st;
     objectUrls := objectUrls st; imageLoads := imageLoads st |}.

Definition setFilterThreshold (v : float) (st : State) : State :=
  {| products := products st; productEmbeddings := productEmbeddings st;
     uploadedImage := uploadedImage st; imageElement := imageElement st;
     similarProducts := similarProducts st; loading := loading st; error := error st;
     filterThreshold := v; fileInputValue := fileInputValue st;
     urlInputValue := urlInputValue st; remoteObjectUrlRef := remoteObjectUrlRef st;
     objectUrls := objectUrls st; imageLoads := imageLoads st |}.

Definition setInputValues (file url : string) (st : State) : State :=
  {| products := products st; productEmbeddings := productEmbeddings st;
     uploadedImage := uploadedImage st; imageElement := imageElement st;
     similarProducts := similarProducts st; loading := loading st; error := error st;
     filterThreshold := filterThreshold st; fileInputValue := file;
     urlInputValue := url; remoteObjectUrlRef := remoteObjectUrlRef st;
     objectUrls := objectUrls st; imageLoads := imageLoads st |}.

Definition setRemoteObjectUrlRef (v : option string) (st : State) : State :=
  {| products := products st; productEmbeddings := productEmbeddings st;
     uploadedImage := uploadedImage st; imageElement := imageElement st;
     similarProducts := similarProducts st; loading := loading st; error := error st;
     filterThreshold := filterThreshold st; fileInputValue := fileInputValue st;
     urlInputValue := urlInputValue st; remoteObjectUrlRef := v;
     objectUrls := objectUrls st; imageLoads := imageLoads st |}.

Definition setObjectUrls (v : list string) (st : State) : State :=
  {| products := products st; productEmbeddings := productEmbeddings st;
     uploadedImage := uploadedImage st; imageElement := imageElement st;
     similarProducts := similarProducts st; loading := loading st; error := error st;
     filterThreshold := filterThreshold st; fileInputValue := fileInputValue st;
     urlInputValue := urlInputValue st; remoteObjectUrlRef := remoteObjectUrlRef st;
     objectUrls := v; imageLoads := imageLoads st |}.

Definition setImageLoads (v : list (string * bool)) (st : State) : State :=
  {| products := products st; productEmbeddings := productEmbeddings st;
     uploadedImage := uploadedImage st; imageElement := imageElement st;
     similarProducts := similarProducts st; loading := loading st; error := error st;
     filterThreshold := filterThreshold st; fileInputValue := fileInputValue st;
     urlInputValue := urlInputValue st; remoteObjectUrlRef := remoteObjectUrlRef st;
     objectUrls := objectUrls st; imageLoads := v |}.

(** ** The browser *)

(** [URL.revokeObjectURL(u)] *)
Definition revokeObjectURL (u : string) (st : State) : State :=
  setObjectUrls (filter (fun v => negb (String.eqb v u)) (objectUrls st)) st.

(** [URL.createObjectURL(blob)], which returned [objectUrl]. *)
Definition createObjectURL (objectUrl : string) (st : State) : State :=
  setObjectUrls (objectUrls st ++ [objectUrl])%list st.

Definition sameLoad (x y : string * bool) : bool :=
  String.eqb (fst x) (fst y) && Bool.eqb (snd x) (snd y).

(** The image of one load has fired its [load] or [error] event. *)
Fixpoint loadEnded (load : string * bool) (loads : list (string * bool))
  : list (string * bool) :=
  match loads with
  | [] => []
  | l :: rest => if sameLoad l load then rest else l :: loadEnded load rest
  end.

(** ** The handlers *)

Definition revokeRemoteObjectUrl (st : State) : State :=
  match remoteObjectUrlRef st with
  | Some current =>
      if truthy current then setRemoteObjectUrlRef None (revokeObjectURL current st)
      else st
  | None => st
  end.

(** [loadImage(source, isRemoteObjectUrl)]: a new image starts to load;
    its two handlers run later, see [image_onload] and [image_onerror]. *)
Definition loadImage (source : string) (isRemoteObjectUrl : bool) (st : State) : State :=
  setImageLoads (imageLoads st ++ [(source, isRemoteObjectUrl)])%list st.

(** [image.onload] of the image that [loadImage(source, isRemoteObjectUrl)]
    created, with [source = src image]. *)
Definition image_onload (image : Image) (isRemoteObjectUrl : bool) (st : State) : State :=
  let source := src image in
  let st := setImageLoads (loadEnded (source, isRemoteObjectUrl) (imageLoads st)) st in
  let st :=
    if isRemoteObjectUrl then
      let st :=
        match remoteObjectUrlRef st with
        | Some current =>
            if truthy current && negb (String.eqb current source)
            then revokeObjectURL current st else st
        | None => st
        end in
      setRemoteObjectUrlRef (Some source) st
    else st in
  setImageElement (Some image) st.

(** [image.onerror] of that image. *)
Definition image_onerror (source : string) (isRemoteObjectUrl : bool) (st : State) : State :=
  let st := setImageLoads (loadEnded (source, isRemoteObjectUrl) (imageLoads st)) st in
  let st := if isRemoteObjectUrl then revokeObjectURL source st else st in
  setError (Some "Failed to load image") st.

(** [handleFileUpload], up to [reader.readAsDataURL(file)]; [hasFile]
    tells whether [event.target.files?.[0]] is a file. *)
Definition handleFileUpload (hasFile : bool) (st : State) : State :=
  revokeRemoteObjectUrl (setError None st).

(** [reader.onload], with [e.target?.result] as [result]. *)
Definition reader_onload (result : option string) (st : State) : State :=
  match result with
  | Some r =>
      if truthy r then loadImage r false (setUploadedImage (Some r) st)
      else setError (Some "Failed to read image file") st
  | None => setError (Some "Failed to read image file") st
  end.

Definition reader_onerror (st : State) : State :=
  setError (Some "Failed to read file") st.

(** How the request of [handleUrlInput] to the proxy ends: with a blob
    for which [URL.createObjectURL] returned [objectUrl], or with a
    rejection or a response that is not ok. *)
Inductive ProxyOutcome : Type :=
| ProxyBlob (objectUrl : string)
| ProxyFailed.

Section UrlInput.

Context `{UrlPlatform}.

(** [String.prototype.trim] *)
Variable trim : string -> string.

(** [handleUrlInput] up to its [await]: the error is cleared and the
    input is read; the result is the trimmed URL, if there is one. *)
Definition handleUrlInput_begin (st : State) : State * option string :=
  let st := setError None st in
  let url := trim (urlInputValue st) in
  if negb (truthy url) then (setError (Some "Please enter a valid image URL") st, None)
  else (st, Some url).

(** [handleUrlInput] after its [await], for the normalized URL that it
    computed before: the blob of the proxy is shown through an object
    URL, and when the proxy fails the image is loaded from the normalized
    URL itself. *)
Definition handleUrlInput_settle (proxy : ProxyOutcome) (normalizedUrl : string) (st : State)
  : State :=
  match proxy with
  | ProxyBlob objectUrl =>
      loadImage objectUrl true
        (setUploadedImage (Some objectUrl) (createObjectURL objectUrl st))
  | ProxyFailed =>
      loadImage normalizedUrl false (setUploadedImage (Some normalizedUrl) st)
  end.

(** [handleUrlInput] when nothing else happens while the proxy is
    awaited: [None] when [normalizeImageUrl] does not return. *)
Definition handleUrlInput (proxy : ProxyOutcome) (st : State) : option State :=
  match handleUrlInput_begin st with
  | (st, None) => Some st
  | (st, Some url) =>
      match normalizeImageUrl url with
      | None => None
      | Some normalizedUrl => Some (handleUrlInput_settle proxy normalizedUrl st)
      end
  end.

End UrlInput.

(** [handleSearch], when it has settled.  [findSimilarProducts] awaits
    nothing, so no other handler runs before the [finally], and [loading]
    is true only in between. *)
Definition handleSearch (st : State) : State :=
  match imageElement st with
  | None => setError (Some "Upload an image before searching") st
  | Some image =>
      if (length (productEmbeddings st) =? 0)%nat
      then setError (Some "Products are still loading. Please try again in a moment.") st
      else
        let st := setError None (setLoading true st) in
        match drawing image with
        | Pixels data =>
            let results := findSimilarProducts data (productEmbeddings st) 10 in
            setLoading false
              (setSimilarProducts (matchesFor (products st) (filterThreshold st) results) st)
        | DrawingThrows =>
            setLoading false
              (setError (Some "Error while comparing products. Please try a different image.") st)
        end
  end.

Definition clearSearch (st : State) : State :=
  setInputValues "" ""
    (revokeRemoteObjectUrl
       (setError None (setSimilarProducts [] (setImageElement None (setUploadedImage None st))))).

(** The products have arrived: [setProducts(data)] and
    [setProductEmbeddings(...)]. *)
Definition productsLoaded (data : list Product) (st : State) : State :=
  {| products := data; productEmbeddings := embeddingsOf data;
     uploadedImage := uploadedImage st; imageElement := imageElement st;
     similarProducts := similarProducts st; loading := loading st; error := error st;
     filterThreshold := filterThreshold st; fileInputValue := fileInputValue st;
     urlInputValue := urlInputValue st; remoteObjectUrlRef := remoteObjectUrlRef st;
     objectUrls := objectUrls st; imageLoads := imageLoads st |}.

(** The page when it is mounted. *)
Definition initialState : State :=
  {| products := []; productEmbeddings := [];
     uploadedImage := None; imageElement := None;
     similarProducts := []; loading := false; error := None;
     filterThreshold := 30%float; fileInputValue := "";
     urlInputValue := ""; remoteObjectUrlRef := None;
     objectUrls := []; imageLoads := [] |}.

(** ** What can happen to the page *)

(** The object URLs that images are being loaded from. *)
Definition remoteLoads (loads : list (string * bool)) : list string :=
  map fst (filter snd loads).

(** One handler runs.  The browser promises that [URL.createObjectURL]
    returns a new, non-empty URL, and that an image fires [load] or
    [error] only while it is loading. *)
Inductive step : State -> State -> Prop :=
| step_productsLoaded (data : list Product) (st : State) :
    step st (productsLoaded data st)
| step_inputChanged (file url : string) (st : State) :
    step st (setInputValues file url st)
| step_thresholdChanged (v : float) (st : State) :
    step st (setFilterThreshold v st)
| step_fileUpload (hasFile : bool) (st : State) :
    step st (handleFileUpload hasFile st)
| step_readerLoaded (result : option string) (st : State) :
    step st (reader_onload result st)
| step_readerFailed (st : State) :
    step st (reader_onerror st)
| step_urlBegin (trim : string -> string) (st : State) :
    step st (fst (handleUrlInput_begin trim st))
| step_urlSettled (proxy : ProxyOutcome) (normalizedUrl : string) (st : State) :
    (forall objectUrl, proxy = ProxyBlob objectUrl ->
                       objectUrl <> "" /\ ~ In objectUrl (objectUrls st)) ->
    step st (handleUrlInput_settle proxy normalizedUrl st)
| step_imageLoaded (image : Image) (isRemoteObjectUrl : bool) (st : State) :
    In (src image, isRemoteObjectUrl) (imageLoads st) ->
    step st (image_onload image isRemoteObjectUrl st)
| step_imageFailed (source : string) (isRemoteObjectUrl : bool) (st : State) :
    In (source, isRemoteObjectUrl) (imageLoads st) ->
    step st (image_onerror source isRemoteObjectUrl st)
| step_search (st : State) :
    step st (handleSearch st)
| step_clear (st : State) :
    step st (clearSearch st)
| step_unmount (st : State) :
    step st (revokeRemoteObjectUrl st).

Inductive reachable : State -> Prop :=
| reachable_initial : reachable initialState
| reachable_step (st st' : State) : reachable st -> step st st' -> reachable st'.

(** The discipline of the object URLs: they are distinct and non-empty;
    each one is the one in [remoteObjectUrlRef] or is being loaded; the
    one in the ref is not revoked and is not being loaded; and no object
    URL is loaded twice. *)
Record urlsInvariant (st : State) : Prop := {
  urls_distinct : NoDup (objectUrls st);
  urls_nonempty : ~ In "" (objectUrls st);
  urls_accounted : forall u, In u (objectUrls st) ->
                   remoteObjectUrlRef st = Some u \/ In u (remoteLoads (imageLoads st));
  ref_live : forall r, remoteObjectUrlRef st = Some r ->
             In r (objectUrls st) /\ ~ In r (remoteLoads (imageLoads st));
  loads_live : forall u, In u (remoteLoads (imageLoads st)) -> In u (objectUrls st);
  loads_distinct : NoDup (remoteLoads (imageLoads st))
}.

End Page.


Module PageSamples.

Import Page.

Definition sampleProduct (id : Z) (name : string) (embedding : list float) : Product :=
  {| product_id := id; product_name := name; category := "Shoes"; image := "";
     tags := []; price := 10%float; description := "";
     product_embedding := embedding |}.

(** Three products, with the embeddings of [Samples.catalog3]. *)
Definition sampleProducts : list Product :=
  [ sampleProduct 1 "Blue" (getImageEmbedding Samples.blueImage);
    sampleProduct 2 "Red" (getImageEmbedding Samples.redImage);
    sampleProduct 3 "Blank" (repeat 0%float 6) ].

(** The page with the products loaded and the red image shown. *)
Definition searchableState : State :=
  setImageElement (Some {| src := "data:image/png;base64,AAAA";
                           drawing := Pixels Samples.redImage |})
                  (productsLoaded sampleProducts initialState).

(** The page after the proxy has delivered a blob and its image has
    loaded. *)
Definition remoteImage : Image :=
  {| src := "blob:http://localhost:3000/1"; drawing := Pixels Samples.redImage |}.

Definition remoteShownState : State :=
  image_onload remoteImage true
    (handleUrlInput_settle (ProxyBlob "blob:http://localhost:3000/1")
                           "https://example.com/a.png" initialState).

(** The same page after the proxy has delivered a second blob, whose
    image is still loading. *)
Definition secondLoadingState : State :=
  handleUrlInput_settle (ProxyBlob "blob:http://localhost:3000/2")
                        "https://example.com/b.png" remoteShownState.

(** The page with a wrapper link typed into the URL field. *)
Definition typedState : State :=
  setInputValues "" MoreSamples.wrapperLink initialState.

End PageSamples.

(* ================================================================== *)
(** * Facts about binary64 *)
(* ================================================================== *)

Module Float64Facts.

(** A float that compares equal to zero is +0 or -0. *)
Lemma eqb_zero_cases (x : float) :
  PrimFloat.eqb x 0%float = true -> x = 0%float \/ x = (-0)%float.
Proof.
  rewrite FloatAxioms.eqb_spec. intros E.
  rewrite <- (SF2Prim_Prim2SF x).
  destruct (Prim2SF x) as [s|s| |s m e]; try destruct s; cbn in E; try discriminate.
  - right. reflexivity.
  - left. reflexivity.
Qed.

(** Rounding keeps the sign. *)
Lemma binary_round_aux_negative m e l :
  SFltb (S754_zero false) (binary_round_aux prec emax true m e l) = false.
Proof.
  unfold binary_round_aux.
  destruct (shr_fexp prec emax m e l) as [mrs' e'].
  destruct (shr_fexp prec emax _ e' loc_Exact) as [mrs'' e''].
  destruct (shr_m mrs''); [reflexivity | | reflexivity].
  destruct (Z.leb e'' _); reflexivity.
Qed.

Lemma binary_normalize_positive m e :
  SFltb (S754_zero false) (binary_normalize prec emax m e false) = true ->
  (0 < m)%Z.
Proof.
  destruct m as [|p|p]; cbn; [discriminate | lia | ].
  unfold binary_round.
  destruct (shl_align p e _) as [mz ez].
  rewrite binary_round_aux_negative. discriminate.
Qed.

Lemma binary_normalize_negative m e :
  (m < 0)%Z ->
  SFltb (S754_zero false) (binary_normalize prec emax m e false) = false.
Proof.
  destruct m as [|p|p]; cbn; try lia. intros _.
  unfold binary_round.
  destruct (shl_align p e _) as [mz ez].
  apply binary_round_aux_negative.
Qed.

(** [y - x > 0] and [x - y > 0] never hold together: the comparator
    [(a, b) => b - a] never asks for both orders. *)
Lemma sub_pos_asym (x y : float) :
  PrimFloat.ltb 0%float (PrimFloat.sub y x) = true ->
  PrimFloat.ltb 0%float (PrimFloat.sub x y) = false.
Proof.
  rewrite !FloatAxioms.ltb_spec, !FloatAxioms.sub_spec.
  change (Prim2SF 0%float) with (S754_zero false).
  unfold SF64sub.
  destruct (Prim2SF x) as [sx|sx| |sx mx ex], (Prim2SF y) as [sy|sy| |sy my ey];
    try (cbn; congruence);
    try (destruct sx; cbn; congruence);
    try (destruct sy; cbn; congruence);
    try (destruct sx, sy; cbn; congruence).
  unfold SFsub. intros P. apply binary_normalize_positive in P.
  apply binary_normalize_negative.
  rewrite (Z.min_comm ex ey). lia.
Qed.

(** ** Subtraction and order

    No difference of two binary64 numbers rounds to zero, so the sign of
    [y - x] tells whether [x < y]. *)

Local Open Scope Z_scope.

Lemma shr_1_lower (r : shr_record) (k : Z) :
  2 * k <= shr_m r -> k <= shr_m (shr_1 r).
Proof.
  destruct r as [m rb sb].
  destruct m as [|[p|p|]|[p|p|]]; cbn [shr_1 shr_m]; intros Hk;
    try (pose proof (Pos2Z.inj_xO p)); try (pose proof (Pos2Z.inj_xI p));
    try (pose proof (Pos2Z.neg_xO p)); try (pose proof (Pos2Z.neg_xI p)); lia.
Qed.

Lemma iter_shr_1_lower (p : positive) :
  forall (r : shr_record) (k : Z),
    0 <= k -> k * 2 ^ Zpos p <= shr_m r -> k <= shr_m (iter_pos shr_1 p r).
Proof.
  induction p as [p IH|p IH|]; intros r k Hk Hle.
  - cbn [iter_pos]. apply IH; [exact Hk|]. apply IH; [nia|].
    apply shr_1_lower.
    replace (Zpos p~1) with (Zpos p + Zpos p + 1) in Hle by lia.
    rewrite !Z.pow_add_r in Hle by lia. change (2 ^ 1) with 2 in Hle. nia.
  - cbn [iter_pos]. apply IH; [exact Hk|]. apply IH; [nia|].
    replace (Zpos p~0) with (Zpos p + Zpos p) in Hle by lia.
    rewrite Z.pow_add_r in Hle by lia. nia.
  - cbn [iter_pos]. apply shr_1_lower. change (2 ^ 1) with 2 in Hle. lia.
Qed.

Lemma digits2_lower (m : positive) : 2 ^ (Zpos (digits2_pos m) - 1) <= Zpos m.
Proof.
  induction m as [m IH|m IH|]; cbn [digits2_pos].
  - rewrite Pos2Z.inj_succ. replace (Z.succ (Zpos (digits2_pos m)) - 1)
      with (Zpos (digits2_pos m) - 1 + 1) by lia.
    rewrite Z.pow_add_r by lia. change (2 ^ 1) with 2. lia.
  - rewrite Pos2Z.inj_succ. replace (Z.succ (Zpos (digits2_pos m)) - 1)
      with (Zpos (digits2_pos m) - 1 + 1) by lia.
    rewrite Z.pow_add_r by lia. change (2 ^ 1) with 2. lia.
  - simpl. lia.
Qed.

Lemma digits2_upper (m : positive) : Zpos m < 2 ^ Zpos (digits2_pos m).
Proof.
  induction m as [m IH|m IH|]; cbn [digits2_pos].
  - rewrite Pos2Z.inj_succ, Z.pow_succ_r by lia. lia.
  - rewrite Pos2Z.inj_succ, Z.pow_succ_r by lia. lia.
  - simpl. lia.
Qed.

Lemma shr_record_of_loc_m (m : Z) (l : location) : shr_m (shr_record_of_loc m l) = m.
Proof. destruct l as [|[| |]]; reflexivity. Qed.

(** Shifting to the format's exponent keeps a positive mantissa positive. *)
Lemma shr_fexp_positive (m e : Z) (l : location) :
  0 < m -> emin <= e ->
  0 < shr_m (fst (shr_fexp prec emax m e l)) /\
  emin <= snd (shr_fexp prec emax m e l).
Proof.
  intros Hm He. unfold shr_fexp, shr.
  destruct m as [|p|p]; try lia. cbn [Zdigits2].
  assert (Hlow := digits2_lower p).
  destruct (fexp prec emax (Zpos (digits2_pos p) + e) - e) as [|n|n] eqn:En;
    cbn [fst snd]; rewrite ?shr_record_of_loc_m; try (split; lia).
  unfold fexp in En.
  assert (Hn : Zpos n = Zpos (digits2_pos p) - prec) by lia.
  split; [|lia].
  apply Z.lt_le_trans with 1; [lia|].
  apply iter_shr_1_lower; [lia|]. rewrite shr_record_of_loc_m.
  apply Z.le_trans with (2 ^ (Zpos (digits2_pos p) - 1)); [|exact Hlow].
  rewrite Z.mul_1_l. apply Z.pow_le_mono_r; [lia|]. rewrite Hn. unfold prec. lia.
Qed.

Lemma round_nearest_even_lower (m : Z) (l : location) : m <= round_nearest_even m l.
Proof. destruct l as [|[| |]]; simpl; try lia. destruct (Z.even m); lia. Qed.

Lemma binary_round_aux_positive (m e : Z) (l : location) :
  0 < m -> emin <= e ->
  SFltb (S754_zero false) (binary_round_aux prec emax false m e l) = true.
Proof.
  intros Hm He. unfold binary_round_aux.
  destruct (@shr_fexp_positive m e l Hm He) as [Hm1 He1].
  destruct (shr_fexp prec emax m e l) as [mrs' e']. cbn [fst snd] in *.
  assert (Hr : 0 < round_nearest_even (shr_m mrs') (loc_of_shr_record mrs')).
  { apply Z.lt_le_trans with (shr_m mrs'); [exact Hm1 | apply round_nearest_even_lower]. }
  destruct (@shr_fexp_positive _ e' loc_Exact Hr He1) as [Hm2 _].
  destruct (shr_fexp prec emax _ e' loc_Exact) as [mrs'' e'']. cbn [fst] in Hm2.
  destruct (shr_m mrs''); try lia.
  destruct (Z.leb e'' _); reflexivity.
Qed.

Lemma binary_normalize_gt_zero (m e : Z) :
  0 < m -> emin <= e ->
  SFltb (S754_zero false) (binary_normalize prec emax m e false) = true.
Proof.
  intros Hm He. destruct m as [|p|p]; try lia. cbn [binary_normalize].
  unfold binary_round, shl_align.
  set (e' := fexp prec emax (Zpos (digits2_pos p) + e)).
  assert (He' : emin <= e') by (unfold e', fexp; lia).
  destruct (e' - e) eqn:Ed; apply binary_round_aux_positive; lia.
Qed.

Lemma valid_finite (s : bool) (m : positive) (e : Z) :
  SpecFloat.valid_binary prec emax (S754_finite s m e) = true ->
  emin <= e /\ Zpos (digits2_pos m) <= prec /\
  (emin < e -> Zpos (digits2_pos m) = prec).
Proof.
  unfold SpecFloat.valid_binary, bounded, canonical_mantissa, fexp.
  intros Hv. apply andb_prop in Hv. destruct Hv as [Hc _].
  apply Z.eqb_eq in Hc. lia.
Qed.

Lemma iter_xO_value (m d : positive) : Zpos (Pos.iter xO m d) = Zpos m * 2 ^ Zpos d.
Proof.
  induction d as [|d IH] using Pos.peano_ind.
  - simpl. lia.
  - rewrite Pos.iter_succ, Pos2Z.inj_xO, IH, Pos2Z.inj_succ, Z.pow_succ_r by lia. lia.
Qed.

Lemma shl_align_value (m : positive) (e e' : Z) :
  e' <= e -> Zpos (fst (shl_align m e e')) = Zpos m * 2 ^ (e - e').
Proof.
  intros Hle. unfold shl_align.
  destruct (e' - e) as [|d|d] eqn:Ed; cbn [fst]; try lia.
  - replace (e - e') with 0 by lia. lia.
  - rewrite iter_xO_value. f_equal. f_equal. lia.
Qed.

(** A canonical mantissa with the larger exponent is the larger number. *)
Lemma larger_exponent (m m' : positive) (e e' : Z) :
  SpecFloat.valid_binary prec emax (S754_finite false m e) = true ->
  SpecFloat.valid_binary prec emax (S754_finite false m' e') = true ->
  e < e' -> Zpos m < Zpos m' * 2 ^ (e' - e).
Proof.
  intros Hv Hv' Hlt.
  destruct (@valid_finite _ _ _ Hv) as [He [Hd _]].
  destruct (@valid_finite _ _ _ Hv') as [He' [_ Hd']].
  assert (Hm := digits2_upper m). assert (Hm' := digits2_lower m').
  rewrite Hd' in Hm' by lia.
  assert (H53 : 2 ^ Zpos (digits2_pos m) <= 2 ^ prec) by (apply Z.pow_le_mono_r; lia).
  assert (H2 : 2 ^ 1 <= 2 ^ (e' - e)) by (apply Z.pow_le_mono_r; lia).
  change (2 ^ 1) with 2 in H2.
  assert (Hp : 2 ^ prec = 2 * 2 ^ (prec - 1)) by reflexivity.
  nia.
Qed.

Lemma compare_cont_lt (m m' : positive) :
  Pos.compare_cont Eq m m' = Lt -> Zpos m < Zpos m'.
Proof. intros Hc. change (Pos.compare m m' = Lt) in Hc. now apply Pos.compare_lt_iff in Hc. Qed.

Lemma compare_cont_gt (m m' : positive) :
  CompOpp (Pos.compare_cont Eq m m') = Lt -> Zpos m' < Zpos m.
Proof.
  intros Hc. change (CompOpp (Pos.compare m m') = Lt) in Hc.
  destruct (Pos.compare m m') eqn:E; try discriminate.
  apply Pos.compare_gt_iff in E. lia.
Qed.

(** The difference of two finite numbers, as [SFsub] forms it before
    rounding, is positive when the first is the larger one. *)
Lemma finite_difference_positive (sx sy : bool) (mx my : positive) (ex ey : Z) :
  SpecFloat.valid_binary prec emax (S754_finite sx mx ex) = true ->
  SpecFloat.valid_binary prec emax (S754_finite sy my ey) = true ->
  SFltb (S754_finite sx mx ex) (S754_finite sy my ey) = true ->
  0 < cond_Zopp sy (Zpos (fst (shl_align my ey (Z.min ey ex))))
      - cond_Zopp sx (Zpos (fst (shl_align mx ex (Z.min ey ex)))).
Proof.
  intros Hvx Hvy Hlt.
  rewrite !shl_align_value by lia.
  assert (Hpx : 0 < 2 ^ (ex - Z.min ey ex)) by (apply Z.pow_pos_nonneg; lia).
  assert (Hpy : 0 < 2 ^ (ey - Z.min ey ex)) by (apply Z.pow_pos_nonneg; lia).
  unfold SFltb, SFcompare in Hlt.
  destruct sx, sy; cbn [cond_Zopp]; try discriminate.
  2: nia.
  - (* both negative *)
    destruct (Z.compare_spec ex ey) as [Heq | Hl | Hg]; try discriminate.
    + subst ey. rewrite Z.min_id, Z.sub_diag in *. change (2 ^ 0) with 1.
      assert (Zpos my < Zpos mx).
      { apply compare_cont_gt. now destruct (CompOpp _). }
      lia.
    + replace (Z.min ey ex) with ey in * by lia. rewrite Z.sub_diag. change (2 ^ 0) with 1.
      assert (Hv : forall s m e, SpecFloat.valid_binary prec emax (S754_finite s m e) = true ->
                                 SpecFloat.valid_binary prec emax (S754_finite false m e) = true)
        by (intros; assumption).
      assert (H := @larger_exponent my mx ey ex (Hv _ _ _ Hvy) (Hv _ _ _ Hvx) Hg). lia.
  - (* both positive *)
    destruct (Z.compare_spec ex ey) as [Heq | Hl | Hg]; try discriminate.
    + subst ey. rewrite Z.min_id, Z.sub_diag in *. change (2 ^ 0) with 1.
      assert (Zpos mx < Zpos my).
      { apply compare_cont_lt. now destruct (PosDef.Pos.compare_cont _ _ _). }
      lia.
    + replace (Z.min ey ex) with ex in * by lia. rewrite Z.sub_diag. change (2 ^ 0) with 1.
      assert (H := @larger_exponent mx my ex ey Hvx Hvy Hl). lia.
Qed.

Lemma SFsub_positive (fx fy : spec_float) :
  SpecFloat.valid_binary prec emax fx = true -> SpecFloat.valid_binary prec emax fy = true ->
  SFltb fx fy = true ->
  SFltb (S754_zero false) (SFsub prec emax fy fx) = true.
Proof.
  intros Hvx Hvy Hlt.
  destruct fx as [sx|sx| |sx mx ex], fy as [sy|sy| |sy my ey];
    try (cbn in Hlt; discriminate);
    try (destruct sx; cbn in Hlt; try discriminate; reflexivity);
    try (destruct sy; cbn in Hlt; try discriminate; reflexivity);
    try (destruct sx, sy; cbn in Hlt; try discriminate; reflexivity).
  cbn [SFsub].
  apply binary_normalize_gt_zero.
  - now apply finite_difference_positive.
  - destruct (@valid_finite _ _ _ Hvx) as [Hex _].
    destruct (@valid_finite _ _ _ Hvy) as [Hey _]. lia.
Qed.

(** [x < y] makes [y - x] positive: no difference of two numbers
    rounds to zero. *)
Lemma ltb_sub_positive (x y : float) :
  PrimFloat.ltb x y = true -> PrimFloat.ltb 0%float (PrimFloat.sub y x) = true.
Proof.
  rewrite !FloatAxioms.ltb_spec, FloatAxioms.sub_spec.
  change (Prim2SF 0%float) with (S754_zero false).
  apply SFsub_positive; apply Prim2SF_valid.
Qed.

End Float64Facts.


(* ================================================================== *)
(** * The embedding extractor *)
(* ================================================================== *)

Section ExtractorFacts.

Context {num : Type} `{JsNumber num}.
Local Open Scope js_scope.
Import EmbeddingSpec.

(** Buffers are consumed four bytes at a time. *)
Lemma rgba_ind (P : list Z -> Prop) :
  (forall data, (length data < 4)%nat -> P data) ->
  (forall r g b a rest, P rest -> P (r :: g :: b :: a :: rest)) ->
  forall data, P data.
Proof.
  intros Hshort Hstep data.
  remember (length data) as n eqn:Hn.
  revert data Hn. induction n as [n IH] using lt_wf_ind. intros data Hn.
  destruct data as [|r [|g [|b [|a rest]]]];
    try (apply Hshort; simpl; lia).
  apply Hstep. apply (IH (length rest)); [subst n; simpl; lia | reflexivity].
Qed.

Lemma pixelsOf_length (data : list Z) (n : nat) :
  length data = (4 * n)%nat -> length (pixelsOf data) = n.
Proof.
  revert n. induction data as [data Hshort | r g b a rest IH] using rgba_ind; intros n Hn.
  - destruct data as [|r [|g [|b [|a rest]]]]; simpl in *; lia.
  - simpl in *. destruct n as [|n]; [lia|]. f_equal. apply IH. lia.
Qed.

(** The loop computes the six sums side by side. *)
Lemma pixelLoop_totals (data : list Z) (t : Totals num) :
  pixelLoop data t =
  {| redTotal := fold_left add (map red (pixelsOf data)) (redTotal t);
     greenTotal := fold_left add (map green (pixelsOf data)) (greenTotal t);
     blueTotal := fold_left add (map blue (pixelsOf data)) (blueTotal t);
     brightnessTotal := fold_left add (map brightness (pixelsOf data)) (brightnessTotal t);
     brightnessSquares :=
       fold_left add (map (fun p => brightness p * brightness p) (pixelsOf data))
                 (brightnessSquares t);
     saturationTotal := fold_left add (map saturation (pixelsOf data)) (saturationTotal t) |}.
Proof.
  revert t. induction data as [data Hshort | r g b a rest IH] using rgba_ind; intros t.
  - destruct data as [|r [|g [|b [|a rest]]]]; simpl in Hshort; try lia;
      destruct t; reflexivity.
  - cbn [pixelLoop pixelsOf map fold_left]. rewrite IH. reflexivity.
Qed.

(** [getImageEmbedding] in terms of the sums, for whatever the two
    constants [pixelCount] and [pixelCount * 255] are worth. *)
Lemma getImageEmbedding_totals (data : list Z) :
  let pixels := pixelsOf data in
  let pixelCount := #CANVAS_SIZE * #CANVAS_SIZE in
  let avgBrightness := total (map brightness pixels) / pixelCount in
  getImageEmbedding data =
  normalizeVector
    [ total (map red pixels) / (pixelCount * #255);
      total (map green pixels) / (pixelCount * #255);
      total (map blue pixels) / (pixelCount * #255);
      avgBrightness;
      Math_sqrt (Math_max
        (total (map (fun p => brightness p * brightness p) pixels) / pixelCount
         - avgBrightness * avgBrightness) #0);
      total (map saturation pixels) / pixelCount ].
Proof.
  unfold getImageEmbedding. rewrite pixelLoop_totals. reflexivity.
Qed.

End ExtractorFacts.

(** C1. For every decoded 48x48 RGBA buffer, [getImageEmbedding] returns
    the normalization of the six features in the order mean red, mean
    green, mean blue, mean brightness, contrast, mean saturation: each
    channel mean is the channel's sum over N²·255, the mean brightness is
    the average of (r+g+b)/(3·255) over the pixels, the contrast is the
    square root of the brightness variance floored at 0, and the mean
    saturation is the average of the saturation of the pixels. *)
Theorem getImageEmbedding_is_normalized_features (data : list Z) :
  length data = (4 * 48 * 48)%nat ->
  getImageEmbedding (num := float) data =
  normalizeVector (EmbeddingSpec.features (EmbeddingSpec.pixelsOf data)).
Proof.
  intros Hlen.
  rewrite getImageEmbedding_totals.
  unfold EmbeddingSpec.features, EmbeddingSpec.channelMean, EmbeddingSpec.contrast,
    EmbeddingSpec.mean_saturation, EmbeddingSpec.brightness_variance,
    EmbeddingSpec.mean_brightness, EmbeddingSpec.average.
  rewrite !length_map.
  rewrite (@pixelsOf_length data (48 * 48)) by (rewrite Hlen; lia).
  reflexivity.
Qed.

Lemma getImageEmbedding_is_normalized_features_witness :
  length Samples.redImage = (4 * 48 * 48)%nat /\
  getImageEmbedding (num := float) Samples.redImage =
  normalizeVector (EmbeddingSpec.features (EmbeddingSpec.pixelsOf Samples.redImage)).
Proof.
  assert (Hlen : length Samples.redImage = (4 * 48 * 48)%nat) by (vm_compute; reflexivity).
  split; [exact Hlen|].
  exact (getImageEmbedding_is_normalized_features Samples.redImage Hlen).
Defined.

(** The embedding of the red image: the normalization of mean red 1,
    mean brightness 0.33333333333334086 and mean saturation 1. *)
Example redImage_embedding :
  getImageEmbedding (num := float) Samples.redImage =
  [ 0x1.6061efecf8ae2p-1%float; 0%float; 0%float; 0x1.d5d7ea914b9e7p-3%float;
    0%float; 0x1.6061efecf8ae2p-1%float ].
Proof. vm_compute. reflexivity. Qed.

(* ================================================================== *)
(** * Sorting and ranking *)
(* ================================================================== *)

Section SortFacts.

Context {num : Type} `{JsNumber num}.
Context {A : Type} (comparefn : A -> A -> num).

Lemma sortInsert_perm (x : A) (l : list A) :
  Permutation (sortInsert comparefn x l) (x :: l).
Proof.
  induction l as [|y l IH]; simpl.
  - apply Permutation_refl.
  - destruct (lt _ _).
    + apply perm_trans with (y :: x :: l); [now apply perm_skip | apply perm_swap].
    + apply Permutation_refl.
Qed.

Lemma Array_sort_perm (l : list A) : Permutation (Array_sort comparefn l) l.
Proof.
  induction l as [|x l IH]; simpl.
  - apply perm_nil.
  - apply perm_trans with (x :: Array_sort comparefn l).
    + apply sortInsert_perm.
    + now apply perm_skip.
Qed.

(** The comparator never asks for both orders of a pair. *)
Hypothesis comparefn_asym :
  forall x y, lt (of_int 0) (comparefn x y) = true -> lt (of_int 0) (comparefn y x) = false.

Lemma sortInsert_HdRel (a x : A) (l : list A) :
  inOrder comparefn a x -> HdRel (inOrder comparefn) a l ->
  HdRel (inOrder comparefn) a (sortInsert comparefn x l).
Proof.
  intros Hax Hal. destruct l as [|y l]; simpl.
  - now constructor.
  - destruct (lt _ _); constructor; [now inversion Hal | assumption].
Qed.

Lemma sortInsert_sorted (x : A) (l : list A) :
  Sorted (inOrder comparefn) l -> Sorted (inOrder comparefn) (sortInsert comparefn x l).
Proof.
  induction 1 as [|y l Hl IH Hy]; simpl.
  - repeat constructor.
  - destruct (lt _ (comparefn x y)) eqn:E.
    + constructor; [exact IH|].
      apply sortInsert_HdRel; [|exact Hy].
      apply comparefn_asym, E.
    + constructor; [now constructor | now constructor].
Qed.

Lemma Array_sort_sorted (l : list A) : Sorted (inOrder comparefn) (Array_sort comparefn l).
Proof.
  induction l as [|x l IH]; simpl; [constructor | now apply sortInsert_sorted].
Qed.

End SortFacts.

Section ListFacts.

Context {A : Type}.

Lemma Sorted_firstn (R : A -> A -> Prop) (n : nat) (l : list A) :
  Sorted R l -> Sorted R (firstn n l).
Proof.
  intros Hs. revert n. induction Hs as [|x l Hl IH Hx]; intros [|n]; simpl; try constructor.
  - apply IH.
  - destruct Hx as [|y l' Hxy]; destruct n; simpl; constructor; assumption.
Qed.

Lemma Sorted_weaken (R R' : A -> A -> Prop) (l : list A) :
  (forall x y, R x y -> R' x y) -> Sorted R l -> Sorted R' l.
Proof.
  intros Himp. induction 1 as [|x l Hl IH Hx]; constructor; [exact IH|].
  destruct Hx; constructor. now apply Himp.
Qed.

Lemma NoDup_firstn (n : nat) (l : list A) : NoDup l -> NoDup (firstn n l).
Proof.
  intros Hl. rewrite <- (firstn_skipn n l) in Hl.
  now apply NoDup_app_remove_r in Hl.
Qed.

Lemma incl_firstn (n : nat) (l : list A) : incl (firstn n l) l.
Proof.
  intros x Hx. rewrite <- (firstn_skipn n l). apply in_or_app. now left.
Qed.

End ListFacts.

Section RankerFacts.

Context {num : Type} `{JsNumber num}.

Lemma findSimilarProducts_unfold data (catalog : list (CatalogEmbedding num)) topK :
  findSimilarProducts data catalog topK =
  firstn topK (Array_sort bySimilarityDesc (scored (getImageEmbedding data) catalog)).
Proof. reflexivity. Qed.

Lemma scored_ids e (catalog : list (CatalogEmbedding num)) :
  map (@score_id num) (scored e catalog) = map (@entry_id num) catalog.
Proof. unfold scored. rewrite map_map. reflexivity. Qed.

Lemma sorted_ids_perm e (catalog : list (CatalogEmbedding num)) :
  Permutation (map (@score_id num) (Array_sort bySimilarityDesc (scored e catalog)))
              (map (@entry_id num) catalog).
Proof.
  rewrite <- (scored_ids e). apply Permutation_map, Array_sort_perm.
Qed.

Lemma findSimilarProducts_length data (catalog : list (CatalogEmbedding num)) topK :
  length (findSimilarProducts data catalog topK) = Nat.min topK (length catalog).
Proof.
  rewrite findSimilarProducts_unfold, length_firstn.
  rewrite (Permutation_length (Array_sort_perm _ _)).
  unfold scored. now rewrite length_map.
Qed.

(** Every result is the score of a catalog entry. *)
Lemma findSimilarProducts_In data (catalog : list (CatalogEmbedding num)) topK s :
  In s (findSimilarProducts data catalog topK) ->
  exists entry, In entry catalog /\ score_id s = entry_id entry /\
                similarity s = scoreOf (getImageEmbedding data) entry.
Proof.
  rewrite findSimilarProducts_unfold. intros Hs.
  apply incl_firstn in Hs.
  apply (Permutation_in _ (Array_sort_perm _ _)) in Hs.
  unfold scored in Hs. apply in_map_iff in Hs. destruct Hs as [entry [<- Hin]].
  exists entry. repeat split; assumption.
Qed.

Lemma findSimilarProducts_ids_NoDup data (catalog : list (CatalogEmbedding num)) topK :
  NoDup (map (@entry_id num) catalog) ->
  NoDup (map (@score_id num) (findSimilarProducts data catalog topK)).
Proof.
  intros Hnd. rewrite findSimilarProducts_unfold, <- firstn_map.
  apply NoDup_firstn.
  apply (Permutation_NoDup (Permutation_sym (sorted_ids_perm (getImageEmbedding data) catalog))), Hnd.
Qed.

Lemma findSimilarProducts_ids_incl data (catalog : list (CatalogEmbedding num)) topK :
  incl (map (@score_id num) (findSimilarProducts data catalog topK))
       (map (@entry_id num) catalog).
Proof.
  rewrite findSimilarProducts_unfold, <- firstn_map. intros i Hi.
  apply incl_firstn in Hi.
  apply (Permutation_in _ (sorted_ids_perm (getImageEmbedding data) catalog)), Hi.
Qed.

Lemma findSimilarProducts_all data (catalog : list (CatalogEmbedding num)) topK :
  (length catalog <= topK)%nat ->
  Permutation (map (@score_id num) (findSimilarProducts data catalog topK))
              (map (@entry_id num) catalog).
Proof.
  intros Hle. rewrite findSimilarProducts_unfold, firstn_all2.
  - apply sorted_ids_perm.
  - rewrite (Permutation_length (Array_sort_perm _ _)). unfold scored.
    now rewrite length_map.
Qed.

End RankerFacts.

(** C4. For every query image, every catalog with pairwise distinct
    identifiers and every K, the ranker returns at most K entries (the
    smaller of K and the size of the catalog), sorted by score
    non-increasing: no entry is followed by one with a larger score, nor
    by one that the comparator would put first.  The identifiers of the
    result are duplicate-free and all come from the catalog; a catalog of
    at most K entries is returned whole; and the empty catalog gives the
    empty result. *)
Theorem findSimilarProducts_top_K
    (data : list Z) (catalog : list (CatalogEmbedding float)) (K : nat) :
  NoDup (map (@entry_id float) catalog) ->
  let result := findSimilarProducts data catalog K in
  (length result <= K)%nat /\
  length result = Nat.min K (length catalog) /\
  Sorted (fun x y => PrimFloat.ltb (similarity x) (similarity y) = false) result /\
  Sorted (inOrder bySimilarityDesc) result /\
  NoDup (map (@score_id float) result) /\
  incl (map (@score_id float) result) (map (@entry_id float) catalog) /\
  ((length catalog <= K)%nat ->
   Permutation (map (@score_id float) result) (map (@entry_id float) catalog)) /\
  (catalog = [] -> result = []).
Proof.
  intros Hnd result.
  assert (Hsorted : Sorted (inOrder bySimilarityDesc) result).
  { subst result. rewrite findSimilarProducts_unfold. apply Sorted_firstn.
    apply Array_sort_sorted.
    intros x y. apply Float64Facts.sub_pos_asym. }
  subst result. repeat split.
  - rewrite findSimilarProducts_length. apply Nat.le_min_l.
  - apply findSimilarProducts_length.
  - revert Hsorted. apply Sorted_weaken. intros x y Hxy.
    destruct (PrimFloat.ltb (similarity x) (similarity y)) eqn:E; [|reflexivity].
    apply Float64Facts.ltb_sub_positive in E.
    unfold inOrder, bySimilarityDesc in Hxy. cbn in Hxy. congruence.
  - exact Hsorted.
  - apply findSimilarProducts_ids_NoDup, Hnd.
  - apply findSimilarProducts_ids_incl.
  - apply findSimilarProducts_all.
  - intros ->. rewrite findSimilarProducts_unfold. simpl. apply firstn_nil.
Qed.

Lemma findSimilarProducts_top_K_witness :
  NoDup (map (@entry_id float) Samples.catalog3) /\
  (length (findSimilarProducts Samples.redImage Samples.catalog3 2) <= 2)%nat.
Proof.
  assert (Hnd : NoDup (map (@entry_id float) Samples.catalog3)).
  { simpl. repeat constructor; simpl; intuition discriminate. }
  split; [exact Hnd|].
  exact (proj1 (@findSimilarProducts_top_K Samples.redImage Samples.catalog3 2 Hnd)).
Defined.

(* ================================================================== *)
(** * Degenerate vectors, in binary64 *)
(* ================================================================== *)

Module ZeroVectors.

Local Open Scope float_scope.

(** Read the operations of [JsNumber] at binary64. *)
Ltac at_binary64 :=
  cbn [add sub mul div of_int Math_sqrt Math_max Math_min strict_eq lt Number_isFinite
       float_number Float64.of_int] in *;
  unfold PrimFloat.zero in *.

Lemma zero_square (x : float) : PrimFloat.eqb x 0 = true -> 0 + x * x = 0.
Proof.
  intros Hx. destruct (Float64Facts.eqb_zero_cases Hx) as [-> | ->]; reflexivity.
Qed.

Lemma sumOfSquares_allZero (v : list float) : allZero v -> sumOfSquares v = 0.
Proof.
  unfold sumOfSquares. induction 1 as [|x v Hx Hv IH]; simpl.
  - reflexivity.
  - at_binary64. rewrite (zero_square Hx). exact IH.
Qed.

Lemma allZero_zeros {A : Type} (v : list A) : allZero (map (fun _ => 0) v).
Proof. induction v; simpl; constructor; [reflexivity | assumption]. Qed.

Lemma degenerate_allZero (v : list float) : allZero v -> degenerate v = true.
Proof.
  intros Hv. unfold degenerate, magnitudeOf. rewrite (sumOfSquares_allZero Hv).
  reflexivity.
Qed.

Lemma normalizeVector_degenerate (v : list float) :
  degenerate v = true -> normalizeVector v = map (fun _ => 0) v.
Proof.
  unfold degenerate, normalizeVector. cbv zeta. intros ->. reflexivity.
Qed.

Lemma normalizeVector_allZero (v : list float) :
  allZero v -> normalizeVector v = map (fun _ => 0) v.
Proof. intros Hv. apply normalizeVector_degenerate, degenerate_allZero, Hv. Qed.

(** The three accumulators of [cosineLoop] do not depend on each other. *)
Lemma cosineLoop_magA_zero (a b : list float) (dot magB : float) :
  allZero a -> exists dot' magB', cosineLoop a b (dot, 0, magB) = (dot', 0, magB').
Proof.
  intros Ha. revert b dot magB.
  induction Ha as [|x a Hx Ha IH]; intros b dot magB.
  - destruct b; simpl; eauto.
  - destruct b as [|y b]; simpl; [eauto|].
    at_binary64. rewrite (zero_square Hx). apply IH.
Qed.

Lemma cosineLoop_magB_zero (a b : list float) (dot magA : float) :
  allZero b -> exists dot' magA', cosineLoop a b (dot, magA, 0) = (dot', magA', 0).
Proof.
  intros Hb. revert a dot magA.
  induction Hb as [|y b Hy Hb IH]; intros a dot magA.
  - destruct a; simpl; eauto.
  - destruct a as [|x a]; simpl; [eauto|].
    at_binary64. rewrite (zero_square Hy). apply IH.
Qed.

Lemma zeroMagnitude_allZero (a b : list float) :
  allZero a \/ allZero b -> zeroMagnitude a b = true.
Proof.
  unfold zeroMagnitude. intros [Ha | Hb].
  - destruct (cosineLoop_magA_zero b 0 0 Ha) as [dot' [magB' E]].
    at_binary64. rewrite E. reflexivity.
  - destruct (cosineLoop_magB_zero a 0 0 Hb) as [dot' [magA' E]].
    at_binary64. rewrite E. apply orb_true_r.
Qed.

Lemma cosineSimilarity_zeroMagnitude (a b : list float) :
  zeroMagnitude a b = true -> cosineSimilarity a b = 0.
Proof.
  unfold zeroMagnitude, cosineSimilarity.
  destruct (cosineLoop a b _) as [[dot magA] magB]. intros ->. reflexivity.
Qed.

End ZeroVectors.

(** C5. When either operand of [cosineSimilarity] has zero magnitude over
    the shared prefix, the similarity is 0 and so is the score
    [Math.max(0, similarity * 100)]; an all-zero operand has zero
    magnitude; and the ranker gives score 0 to every entry when the
    query embedding is all zero, and to every entry whose stored
    embedding is all zero.  The functions are total: a value comes out in
    every case. *)
Theorem zero_magnitude_scores_zero :
  (forall a b : list float,
      zeroMagnitude a b = true ->
      cosineSimilarity a b = 0%float /\
      Math_max (of_int 0) (mul (cosineSimilarity a b) (of_int 100)) = 0%float) /\
  (forall a b : list float, allZero a \/ allZero b -> zeroMagnitude a b = true) /\
  (forall (imageEmbedding : list float) (entry : CatalogEmbedding float),
      allZero imageEmbedding \/ allZero (embedding entry) ->
      scoreOf imageEmbedding entry = 0%float).
Proof.
  assert (Hscore : forall a b : list float,
             zeroMagnitude a b = true ->
             cosineSimilarity a b = 0%float /\
             Math_max (of_int 0) (mul (cosineSimilarity a b) (of_int 100)) = 0%float).
  { intros a b Hz. rewrite (ZeroVectors.cosineSimilarity_zeroMagnitude _ _ Hz).
    split; reflexivity. }
  split; [exact Hscore|]. split; [exact ZeroVectors.zeroMagnitude_allZero|].
  intros imageEmbedding entry Hz. unfold scoreOf.
  apply Hscore, ZeroVectors.zeroMagnitude_allZero.
  destruct Hz as [Hq | He]; [now left | right].
  rewrite (ZeroVectors.normalizeVector_allZero He). apply ZeroVectors.allZero_zeros.
Qed.

Lemma zero_magnitude_scores_zero_witness :
  zeroMagnitude [1%float; 2%float] [0%float; (-0)%float; 5%float] = true /\
  cosineSimilarity [1%float; 2%float] [0%float; (-0)%float; 5%float] = 0%float.
Proof.
  assert (Hz : zeroMagnitude [1%float; 2%float] [0%float; (-0)%float; 5%float] = true)
    by (vm_compute; reflexivity).
  split; [exact Hz|].
  exact (proj1 (proj1 zero_magnitude_scores_zero _ _ Hz)).
Defined.

(* ================================================================== *)
(** * The same code in exact arithmetic *)
(* ================================================================== *)

Module ExactFacts.

Local Open Scope R_scope.

(** Read the operations of [JsNumber] at the reals. *)
Ltac at_reals :=
  cbn [add sub mul div of_int Math_sqrt Math_max Math_min strict_eq lt Number_isFinite
       exact_number] in *.

Lemma eqb_true (x y : R) : Exact.eqb x y = true <-> x = y.
Proof. unfold Exact.eqb. destruct (Req_dec_T x y); split; congruence. Qed.

Lemma eqb_false (x y : R) : Exact.eqb x y = false <-> x <> y.
Proof. unfold Exact.eqb. destruct (Req_dec_T x y); split; congruence. Qed.

Lemma ltb_lt (x y : R) : Exact.ltb x y = true -> x < y.
Proof. unfold Exact.ltb. destruct (Rlt_dec x y); congruence. Qed.

Lemma ltb_false (x y : R) : Exact.ltb x y = false <-> y <= x.
Proof.
  unfold Exact.ltb. destruct (Rlt_dec x y); split; try congruence; lra.
Qed.

(** ** Sums of squares *)

Lemma sumOfSquares_from (v : list R) (acc : R) :
  fold_left (fun sum value => sum + value * value) v acc = acc + sumOfSquares v.
Proof.
  unfold sumOfSquares. at_reals. revert acc.
  induction v as [|x v IH]; intros acc; simpl.
  - ring.
  - rewrite IH, (IH (0 + x * x)). ring.
Qed.

Lemma sumOfSquares_cons (x : R) (v : list R) :
  sumOfSquares (x :: v) = x * x + sumOfSquares v.
Proof.
  unfold sumOfSquares at 1. at_reals. simpl. rewrite sumOfSquares_from. ring.
Qed.

Lemma sumOfSquares_nonneg (v : list R) : 0 <= sumOfSquares v.
Proof.
  induction v as [|x v IH].
  - unfold sumOfSquares. at_reals. simpl. lra.
  - rewrite sumOfSquares_cons. nra.
Qed.

Lemma sumOfSquares_scaled (v : list R) (m : R) :
  sumOfSquares (map (fun value => value / m) v) = sumOfSquares v * (/ m * / m).
Proof.
  induction v as [|x v IH].
  - unfold sumOfSquares. at_reals. simpl. ring.
  - simpl map. rewrite !sumOfSquares_cons, IH. unfold Rdiv. ring.
Qed.

Lemma sumOfSquares_zeros {A : Type} (v : list A) :
  sumOfSquares (map (fun _ => 0) v) = 0.
Proof.
  induction v as [|x v IH].
  - unfold sumOfSquares. at_reals. reflexivity.
  - simpl map. rewrite sumOfSquares_cons, IH. ring.
Qed.

(** ** normalizeVector *)

Lemma normalizeVector_zero (v : list R) :
  magnitudeOf v = 0 -> normalizeVector v = map (fun _ => 0) v.
Proof.
  intros Hm. unfold normalizeVector. cbv zeta. at_reals.
  rewrite Hm. rewrite (proj2 (eqb_true 0 0) eq_refl). reflexivity.
Qed.

Lemma normalizeVector_nonzero (v : list R) :
  magnitudeOf v <> 0 ->
  normalizeVector v = map (fun value => value / magnitudeOf v) v.
Proof.
  intros Hm. unfold normalizeVector. cbv zeta. at_reals.
  rewrite (proj2 (eqb_false _ _) Hm). reflexivity.
Qed.

Lemma magnitude_square (v : list R) : magnitudeOf v * magnitudeOf v = sumOfSquares v.
Proof. unfold magnitudeOf. at_reals. apply sqrt_sqrt, sumOfSquares_nonneg. Qed.

(** A vector that is not degenerate is scaled to sum of squares 1. *)
Lemma normalizeVector_unit (v : list R) :
  magnitudeOf v <> 0 -> sumOfSquares (normalizeVector v) = 1.
Proof.
  intros Hm. rewrite (normalizeVector_nonzero _ Hm), sumOfSquares_scaled.
  rewrite <- magnitude_square. field. exact Hm.
Qed.

Lemma normalize_twice (v : list R) :
  normalizeVector (normalizeVector v) = normalizeVector v.
Proof.
  destruct (Req_dec_T (magnitudeOf v) 0) as [Hz | Hnz].
  - rewrite (normalizeVector_zero _ Hz). rewrite normalizeVector_zero.
    + now rewrite map_map.
    + unfold magnitudeOf. rewrite sumOfSquares_zeros. at_reals. apply sqrt_0.
  - assert (Hone : magnitudeOf (normalizeVector v) = 1).
    { unfold magnitudeOf. rewrite (normalizeVector_unit _ Hnz). at_reals. apply sqrt_1. }
    rewrite normalizeVector_nonzero by (rewrite Hone; lra).
    rewrite Hone. rewrite <- (map_id (normalizeVector v)) at 2.
    apply map_ext. intros x. field.
Qed.

End ExactFacts.

(* ================================================================== *)
(** * The vector normalizer *)
(* ================================================================== *)

Module NormalizerFacts.

Lemma zeros_repeat {A B : Type} (z : B) (v : list A) :
  map (fun _ => z) v = repeat z (length v).
Proof. induction v as [|x v IH]; simpl; [reflexivity | now rewrite IH]. Qed.

Lemma normalizeVector_length {num : Type} `{JsNumber num} (v : list num) :
  length (normalizeVector v) = length v.
Proof.
  unfold normalizeVector. cbv zeta. destruct (_ || _); apply length_map.
Qed.

Lemma normalizeVector_cases {num : Type} `{JsNumber num} (v : list num) :
  (degenerate v = true -> normalizeVector v = repeat (of_int 0) (length v)) /\
  (degenerate v = false ->
   normalizeVector v = map (fun value => div value (magnitudeOf v)) v).
Proof.
  unfold degenerate, normalizeVector. cbv zeta.
  split; intros ->; [apply zeros_repeat | reflexivity].
Qed.

End NormalizerFacts.

(* ================================================================== *)
(** * Rounding in the normalizer

    The four operations of [normalizeVector] on binary64, [*], [+],
    [Math.sqrt] and [/], each return a number within one unit in the last
    place of the exact result, as long as nothing underflows or overflows.
    This is read off the specification of the operations, and carried
    through the loop of [sumOfSquares], the square root and the
    quotients. *)
(* ================================================================== *)

Module Float64Rounding.

Import Float64Facts.

Local Open Scope Z_scope.

Lemma shr_1_half (r : shr_record) : 0 <= shr_m r -> shr_m (shr_1 r) = shr_m r / 2.
Proof.
  destruct r as [m rb sb].
  destruct m as [|[p|p|]|p]; cbn [shr_1 shr_m]; intros Hm; try lia.
  - reflexivity.
  - apply Z.div_unique with (r := 1); lia.
  - apply Z.div_unique with (r := 0); lia.
  - reflexivity.
Qed.

Lemma iter_shr_1_div (p : positive) :
  forall r : shr_record,
    0 <= shr_m r -> shr_m (iter_pos shr_1 p r) = shr_m r / 2 ^ Zpos p.
Proof.
  induction p as [p IH|p IH|]; intros r Hr; cbn [iter_pos].
  - assert (H1 : 0 <= shr_m (shr_1 r)) by (rewrite shr_1_half by lia; apply Z.div_pos; lia).
    assert (H2 : 0 <= shr_m (iter_pos shr_1 p (shr_1 r)))
      by (rewrite IH by lia; apply Z.div_pos; lia).
    rewrite IH, IH, shr_1_half by lia.
    rewrite !Z.div_div by lia. f_equal.
    replace (Zpos p~1) with (1 + Zpos p + Zpos p) by lia.
    rewrite !Z.pow_add_r by lia. change (2 ^ 1) with 2. lia.
  - assert (H2 : 0 <= shr_m (iter_pos shr_1 p r))
      by (rewrite IH by lia; apply Z.div_pos; lia).
    rewrite IH, IH by lia.
    rewrite !Z.div_div by lia. f_equal.
    replace (Zpos p~0) with (Zpos p + Zpos p) by lia.
    rewrite !Z.pow_add_r by lia. lia.
  - rewrite shr_1_half by lia. reflexivity.
Qed.

(** Shifting to the exponent of the format truncates the mantissa. *)
Lemma shr_fexp_truncates (m e : Z) (l : location) :
  0 < m ->
  exists n : Z,
    0 <= n /\
    snd (shr_fexp prec emax m e l) = e + n /\
    e + n = Z.max e (fexp prec emax (Zdigits2 m + e)) /\
    shr_m (fst (shr_fexp prec emax m e l)) * 2 ^ n <= m
      < (shr_m (fst (shr_fexp prec emax m e l)) + 1) * 2 ^ n.
Proof.
  intros Hm. unfold shr_fexp, shr.
  destruct (fexp prec emax (Zdigits2 m + e) - e) as [|n|n] eqn:En; cbn [fst snd].
  - exists 0. rewrite shr_record_of_loc_m. change (2 ^ 0) with 1. lia.
  - exists (Zpos n). rewrite iter_shr_1_div by (rewrite shr_record_of_loc_m; lia).
    rewrite shr_record_of_loc_m.
    assert (Hp : 0 < 2 ^ Zpos n) by (apply Z.pow_pos_nonneg; lia).
    pose proof (Z.mul_div_le m (2 ^ Zpos n) Hp).
    pose proof (Z.mul_succ_div_gt m (2 ^ Zpos n) Hp).
    lia.
  - exists 0. rewrite shr_record_of_loc_m. change (2 ^ 0) with 1. lia.
Qed.

Lemma round_nearest_even_upper (m : Z) (l : location) : round_nearest_even m l <= m + 1.
Proof. destruct l as [|[| |]]; simpl; try lia. destruct (Z.even m); lia. Qed.


Local Open Scope R_scope.

Local Abbreviation B e := (powerRZ 2 e).

Lemma B_pos (e : Z) : 0 < B e.
Proof. apply powerRZ_lt. lra. Qed.

Lemma B_add (a b : Z) : B (a + b) = B a * B b.
Proof. apply powerRZ_add. lra. Qed.

Lemma B_IZR (n : Z) : (0 <= n)%Z -> B n = IZR (2 ^ n).
Proof.
  intros Hn. destruct n as [|p|p]; try lia; [reflexivity|].
  cbn [powerRZ]. rewrite pow_IZR, positive_nat_Z. reflexivity.
Qed.

Lemma B_le (a b : Z) : (a <= b)%Z -> B a <= B b.
Proof.
  intros Hle. replace b with (a + (b - a))%Z by lia.
  rewrite B_add, (@B_IZR (b - a)) by lia.
  assert (H1 : (1 <= 2 ^ (b - a))%Z) by (apply Z.lt_pred_le; apply Z.pow_pos_nonneg; lia).
  apply IZR_le in H1. pose proof (B_pos a). nra.
Qed.

Lemma B_lt (a b : Z) : (a < b)%Z -> B a < B b.
Proof.
  intros Hlt. apply Rlt_le_trans with (B (a + 1)); [|apply B_le; lia].
  rewrite B_add. change (B 1) with (2 * 1). pose proof (B_pos a). lra.
Qed.

Lemma B_lt_inv (a b : Z) : B a < B b -> (a < b)%Z.
Proof.
  intros Hlt. destruct (Z.lt_ge_cases a b) as [H|H]; [exact H|].
  apply B_le in H. lra.
Qed.

Lemma B_shift (e n : Z) : (0 <= n)%Z -> B (e + n) = B e * IZR (2 ^ n).
Proof. intros Hn. now rewrite B_add, (@B_IZR n). Qed.

(** The number of digits of a mantissa bounds the number from below. *)
Lemma digits_value (p : positive) (e : Z) :
  B (Zpos (digits2_pos p) - 1 + e) <= IZR (Zpos p) * B e.
Proof.
  rewrite B_add, B_IZR by lia.
  pose proof (digits2_lower p) as Hd. apply IZR_le in Hd.
  pose proof (B_pos e). nra.
Qed.

(** Shifting keeps a positive mantissa positive when the number is not
    below the smallest positive number of the format. *)
Lemma shr_fexp_keeps (m e : Z) (l : location) :
  (0 < m)%Z -> B emin <= IZR m * B e ->
  (0 < shr_m (fst (shr_fexp prec emax m e l)))%Z.
Proof.
  intros Hm Hlow.
  destruct (@shr_fexp_truncates m e l Hm) as [n [Hn [_ [Hmax Hb]]]].
  set (m0 := shr_m (fst (shr_fexp prec emax m e l))) in *.
  assert (Hp : (0 < 2 ^ n)%Z) by (apply Z.pow_pos_nonneg; lia).
  destruct (Z.lt_ge_cases 0 m0) as [H|H]; [exact H|exfalso].
  assert (Hm0' : (0 < m0 + 1)%Z) by (apply (Z.mul_pos_cancel_r _ (2 ^ n) Hp); lia).
  assert (Hm0 : m0 = 0%Z) by lia. rewrite Hm0 in Hb.
  assert (Hlt : (m < 2 ^ n)%Z) by lia.
  destruct m as [|p|p]; try lia. cbn [Zdigits2] in Hmax.
  pose proof (digits2_lower p) as Hd.
  assert (Hdn : (Zpos (digits2_pos p) - 1 < n)%Z).
  { apply (Z.pow_lt_mono_r_iff 2); lia. }
  assert (Hen : (e + n = emin)%Z) by (unfold fexp, emin, emax, prec in *; lia).
  assert (Hlt' : IZR (Zpos p) * B e < B emin).
  { rewrite <- Hen, B_shift by lia. apply IZR_lt in Hlt. pose proof (B_pos e). nra. }
  lra.
Qed.

(** Rounding is faithful: the mantissa that [binary_round_aux] keeps is
    within one unit in the last place of the number that was rounded. *)
Lemma binary_round_aux_faithful (s : bool) (m e : Z) (l : location) (r : R) :
  (0 < m)%Z -> (e <= emax - prec)%Z ->
  IZR m * B e <= r < (IZR m + 1) * B e ->
  B (-1020) <= r < B 1021 ->
  exists (m' : positive) (e' : Z),
    binary_round_aux prec emax s m e l = S754_finite s m' e' /\
    IZR (Zpos m') * B e' - B e' <= r <= IZR (Zpos m') * B e' + B e'.
Proof.
  intros Hm He Hr [Hlo Hhi]. unfold binary_round_aux.
  pose proof (B_pos e) as HBe.
  assert (HmR : 1 <= IZR m) by (apply IZR_le; lia).
  assert (Hmin : B emin <= B (-1021)) by (apply B_le; unfold emin, emax, prec; lia).
  assert (H1021 : B (-1020) = 2 * B (-1021)).
  { change (-1020)%Z with (-1021 + 1)%Z. rewrite B_add. change (B 1) with (2 * 1). lra. }
  assert (Hkeep1 : B emin <= IZR m * B e) by nra.
  destruct (@shr_fexp_truncates m e l Hm) as [n1 [Hn1 [He1 [Hmax1 Hb1]]]].
  pose proof (@shr_fexp_keeps m e l Hm Hkeep1) as Hm0.
  destruct (shr_fexp prec emax m e l) as [mrs' e']. cbn [fst snd] in *.
  set (m0 := shr_m mrs') in *.
  set (m1 := round_nearest_even m0 (loc_of_shr_record mrs')).
  assert (Hm1 : (m0 <= m1 <= m0 + 1)%Z)
    by (split; [apply round_nearest_even_lower | apply round_nearest_even_upper]).
  assert (Hm1pos : (0 < m1)%Z) by lia.
  assert (HBe' : B e' = B e * IZR (2 ^ n1)) by (rewrite He1; now apply B_shift).
  assert (Hp1 : (0 < 2 ^ n1)%Z) by (apply Z.pow_pos_nonneg; lia).
  assert (Hq1 : 1 <= IZR (2 ^ n1)) by (apply IZR_le; lia).
  assert (HBe'pos : 0 < B e') by apply B_pos.
  (* the truncated mantissa brackets the number *)
  assert (Hlow0 : IZR m0 * B e' <= r).
  { apply Rle_trans with (IZR m * B e); [|lra].
    rewrite HBe'. destruct Hb1 as [Hb1 _]. apply IZR_le in Hb1. rewrite mult_IZR in Hb1. nra. }
  assert (Hhigh0 : r < (IZR m0 + 1) * B e').
  { apply Rlt_le_trans with ((IZR m + 1) * B e); [lra|].
    rewrite HBe'. destruct Hb1 as [_ Hb1].
    assert (Hb : (m + 1 <= (m0 + 1) * 2 ^ n1)%Z) by lia.
    apply IZR_le in Hb. rewrite mult_IZR, !plus_IZR in Hb. nra. }
  assert (Hr1 : IZR m0 <= IZR m1 <= IZR m0 + 1).
  { destruct Hm1 as [Ha Hb]. apply IZR_le in Ha, Hb. rewrite plus_IZR in Hb. lra. }
  assert (Hm0R : 1 <= IZR m0) by (apply IZR_le; lia).
  assert (Hkeep2 : B emin <= IZR m1 * B e') by nra.
  destruct (@shr_fexp_truncates m1 e' loc_Exact Hm1pos) as [n2 [Hn2 [He2 [Hmax2 Hb2]]]].
  pose proof (@shr_fexp_keeps m1 e' loc_Exact Hm1pos Hkeep2) as Hm2.
  destruct (shr_fexp prec emax m1 e' loc_Exact) as [mrs'' e'']. cbn [fst snd] in *.
  assert (HBe'' : B e'' = B e' * IZR (2 ^ n2)) by (rewrite He2; now apply B_shift).
  assert (Hp2 : (0 < 2 ^ n2)%Z) by (apply Z.pow_pos_nonneg; lia).
  assert (Hq2 : 1 <= IZR (2 ^ n2)) by (apply IZR_le; lia).
  destruct (shr_m mrs'') as [|m2|m2] eqn:Em2; try lia.
  assert (Hlow2 : IZR (Zpos m2) * IZR (2 ^ n2) <= IZR m1).
  { destruct Hb2 as [Hb2 _]. apply IZR_le in Hb2. now rewrite mult_IZR in Hb2. }
  assert (Hhigh2 : IZR m1 + 1 <= (IZR (Zpos m2) + 1) * IZR (2 ^ n2)).
  { destruct Hb2 as [_ Hb2].
    assert (Hb : (m1 + 1 <= (Zpos m2 + 1) * 2 ^ n2)%Z) by lia.
    apply IZR_le in Hb. now rewrite mult_IZR, !plus_IZR in Hb. }
  (* no overflow *)
  assert (Hover : (e'' <= emax - prec)%Z).
  { assert (Hd : (Zdigits2 m + e <= 1021)%Z).
    { destruct m as [|p|p]; try lia. cbn [Zdigits2].
      pose proof (digits_value p e) as Hdv.
      assert (Hlt : B (Zpos (digits2_pos p) - 1 + e) < B 1021) by lra.
      apply B_lt_inv in Hlt. lia. }
    assert (Hd1 : (Zdigits2 m1 + e' <= 1022)%Z).
    { destruct m1 as [|p|p] eqn:Ep; try lia. cbn [Zdigits2].
      pose proof (digits_value p e') as Hdv.
      assert (Hlt : B (Zpos (digits2_pos p) - 1 + e') < B 1022).
      { apply Rle_lt_trans with (IZR (Zpos p) * B e'); [exact Hdv|].
        change 1022%Z with (1021 + 1)%Z. rewrite (B_add 1021 1). change (B 1) with (2 * 1).
        nra. }
      apply B_lt_inv in Hlt. lia. }
    unfold fexp, emin, emax, prec in *. lia. }
  rewrite (proj2 (Z.leb_le _ _) Hover).
  exists m2, e''. split; [reflexivity|].
  rewrite HBe''. split.
  - assert (H1 : IZR (Zpos m2) * IZR (2 ^ n2) * B e' <= IZR m1 * B e') by nra.
    assert (H2 : IZR m1 * B e' <= r + B e') by nra.
    nra.
  - assert (H1 : r <= (IZR m1 + 1) * B e') by nra.
    assert (H2 : (IZR m1 + 1) * B e' <= (IZR (Zpos m2) + 1) * IZR (2 ^ n2) * B e') by nra.
    nra.
Qed.

(** The unit roundoff of the bounds below: one unit in the last place,
    relative to a normal number. *)
Lemma normal_ulp (s : bool) (m : positive) (e : Z) (r : R) :
  SpecFloat.valid_binary prec emax (S754_finite s m e) = true ->
  r <= IZR (Zpos m) * B e + B e ->
  B (-1020) <= r ->
  B e <= B (-52) * (IZR (Zpos m) * B e).
Proof.
  intros Hv Hr Hlo.
  destruct (@valid_finite s m e Hv) as [He [Hd Hnormal]].
  pose proof (B_pos e) as HBe.
  destruct (Z.eq_dec e emin) as [->|Hne].
  - exfalso.
    pose proof (digits2_upper m) as Hup.
    assert (H53 : (Zpos m + 1 <= 2 ^ 53)%Z).
    { assert (2 ^ Zpos (digits2_pos m) <= 2 ^ 53)%Z by (apply Z.pow_le_mono_r; unfold prec in Hd; lia).
      lia. }
    apply IZR_le in H53. rewrite plus_IZR, <- B_IZR in H53 by lia.
    assert (Hsum : B 53 * B emin = B (-1021)).
    { rewrite <- B_add. reflexivity. }
    assert (Hlt : B (-1021) < B (-1020)) by (apply B_lt; lia).
    nra.
  - assert (Hd53 : Zpos (digits2_pos m) = prec) by (apply Hnormal; lia).
    pose proof (digits2_lower m) as Hlow. rewrite Hd53 in Hlow.
    change (2 ^ (prec - 1))%Z with (2 ^ 52)%Z in Hlow.
    apply IZR_le in Hlow. rewrite <- B_IZR in Hlow by lia.
    assert (Hone : B (-52) * B 52 = 1).
    { rewrite <- B_add. reflexivity. }
    pose proof (B_pos (-52)) as Hu.
    assert (Hge : 1 <= B (-52) * IZR (Zpos m)) by nra.
    nra.
Qed.

(** The result of an operation that rounds [r]: a finite number with the
    sign that was asked for, within [2^-52] of [r] relative to itself. *)
Lemma rounded_result (z : float) (s : bool) (m e : Z) (l : location) (r : R) :
  Prim2SF z = binary_round_aux prec emax s m e l ->
  (0 < m)%Z -> (e <= emax - prec)%Z ->
  IZR m * B e <= r < (IZR m + 1) * B e ->
  B (-1020) <= r < B 1021 ->
  exists (m' : positive) (e' : Z),
    Prim2SF z = S754_finite s m' e' /\
    IZR (Zpos m') * B e' * (1 - B (-52)) <= r <= IZR (Zpos m') * B e' * (1 + B (-52)).
Proof.
  intros Hz Hm He Hr Hrange.
  destruct (@binary_round_aux_faithful s m e l r Hm He Hr Hrange) as [m' [e' [Hres Hclose]]].
  exists m', e'. rewrite Hz. split; [exact Hres|].
  assert (Hulp : B e' <= B (-52) * (IZR (Zpos m') * B e')).
  { apply (@normal_ulp s m' e' r); [|apply Hclose|apply Hrange].
    rewrite <- Hres, <- Hz. apply Prim2SF_valid. }
  lra.
Qed.


(** ** The value of a binary64 number *)

Local Abbreviation V x := (Q2R (Float64.exact x)).

Lemma exact_finite (x : float) (s : bool) (m : positive) (e : Z) :
  Prim2SF x = S754_finite s m e ->
  V x = IZR (if s then Zneg m else Zpos m) * B e.
Proof.
  intros Hx. unfold Float64.exact. rewrite Hx.
  rewrite Qreals.Q2R_mult, RMicromega.Q2RpowerRZ.
  - f_equal; unfold Q2R; cbn [QArith_base.Qnum QArith_base.Qden]; [field|].
    f_equal. lra.
  - left. discriminate.
Qed.

Lemma exact_positive (x : float) (m : positive) (e : Z) :
  Prim2SF x = S754_finite false m e -> V x = IZR (Zpos m) * B e.
Proof. apply exact_finite. Qed.

Lemma exact_zero (x : float) (s : bool) : Prim2SF x = S754_zero s -> V x = 0.
Proof.
  intros Hx. unfold Float64.exact. rewrite Hx. unfold Q2R. cbn. lra.
Qed.

Lemma exact_square (x : float) (s : bool) (m : positive) (e : Z) :
  Prim2SF x = S754_finite s m e ->
  V x * V x = (IZR (Zpos m) * B e) * (IZR (Zpos m) * B e).
Proof.
  intros Hx. rewrite (exact_finite x Hx). destruct s; [|reflexivity].
  change (Zneg m) with (- Zpos m)%Z. rewrite opp_IZR. ring.
Qed.

Lemma valid_exponent (s : bool) (m : positive) (e : Z) :
  SpecFloat.valid_binary prec emax (S754_finite s m e) = true -> (e <= emax - prec)%Z.
Proof.
  unfold SpecFloat.valid_binary, bounded. intros Hv.
  apply andb_prop in Hv. destruct Hv as [_ Hb]. now apply Z.leb_le in Hb.
Qed.

(** A normal number lies between two powers of two. *)
Lemma normal_value (x : float) (s : bool) (m : positive) (e : Z) :
  Prim2SF x = S754_finite s m e -> (emin < e)%Z ->
  B (52 + e) <= IZR (Zpos m) * B e < B (53 + e).
Proof.
  intros Hx He.
  assert (Hv : SpecFloat.valid_binary prec emax (S754_finite s m e) = true)
    by (rewrite <- Hx; apply Prim2SF_valid).
  destruct (@valid_finite s m e Hv) as [_ [_ Hd]]. specialize (Hd He).
  pose proof (digits2_lower m) as Hlow. pose proof (digits2_upper m) as Hup.
  rewrite Hd in Hlow, Hup.
  change (2 ^ (prec - 1))%Z with (2 ^ 52)%Z in Hlow. change (2 ^ prec)%Z with (2 ^ 53)%Z in Hup.
  apply IZR_le in Hlow. apply IZR_lt in Hup. rewrite <- B_IZR in Hlow, Hup by lia.
  rewrite !B_add. pose proof (B_pos e). nra.
Qed.

(** What [Float64.moderate] says about the representation. *)
Lemma moderate_cases (x : float) :
  Float64.moderate x = true ->
  (exists s, Prim2SF x = S754_zero s) \/
  (exists s m e, Prim2SF x = S754_finite s m e /\ (-552 <= e <= 446)%Z).
Proof.
  unfold Float64.moderate.
  rewrite FloatAxioms.eqb_spec, FloatAxioms.leb_spec, FloatAxioms.ltb_spec, FloatAxioms.abs_spec.
  assert (Hv := Prim2SF_valid x).
  replace (Prim2SF 0%float) with (S754_zero false) by (vm_compute; reflexivity).
  replace (Prim2SF 0x1p-500%float) with (S754_finite false 4503599627370496 (-552))
    by (vm_compute; reflexivity).
  replace (Prim2SF 0x1p499%float) with (S754_finite false 4503599627370496 447)
    by (vm_compute; reflexivity).
  destruct (Prim2SF x) as [s|s| |s m e].
  - intros _. left. now exists s.
  - intros H. destruct s; vm_compute in H; discriminate.
  - intros H. vm_compute in H. discriminate.
  - intros H. right. exists s, m, e. split; [reflexivity|].
    assert (H' : SFleb (S754_finite false 4503599627370496 (-552)) (S754_finite false m e)
                 && SFltb (S754_finite false m e) (S754_finite false 4503599627370496 447) = true).
    { destruct s; exact H. }
    clear H. apply andb_prop in H'. destruct H' as [Hlow Hhigh].
    cbv beta iota delta [SFleb SFltb SFcompare] in Hlow, Hhigh.
    destruct (Z.compare_spec (-552) e) as [He|He|He]; try discriminate;
      destruct (Z.compare_spec e 447) as [He'|He'|He']; try discriminate; try lia.
    subst e. exfalso.
    destruct (@valid_finite s m 447 Hv) as [_ [_ Hd]].
    assert (Hd53 : Zpos (digits2_pos m) = prec) by (apply Hd; unfold emin, emax, prec; lia).
    pose proof (digits2_lower m) as Hl. rewrite Hd53 in Hl.
    replace (2 ^ (prec - 1))%Z with 4503599627370496%Z in Hl by (vm_compute; reflexivity).
    assert (Hc : (Zpos m < 4503599627370496)%Z).
    { apply compare_cont_lt.
      now destruct (Pos.compare_cont Eq m 4503599627370496). }
    lia.
Qed.

(** ** Squares *)

Lemma mul_self_rounded (x : float) (s : bool) (m : positive) (e : Z) :
  Prim2SF x = S754_finite s m e -> (-552 <= e <= 446)%Z ->
  B (-1000) <= V x * V x < B 998 /\
  exists (m' : positive) (e' : Z),
    Prim2SF (x * x) = S754_finite false m' e' /\
    V (x * x) * (1 - B (-52)) <= V x * V x <= V (x * x) * (1 + B (-52)).
Proof.
  intros Hx He.
  assert (Hnormal : (emin < e)%Z) by (unfold emin, emax, prec; lia).
  pose proof (normal_value x Hx Hnormal) as [Hlow Hhigh].
  rewrite (exact_square x Hx). set (a := IZR (Zpos m) * B e) in *.
  assert (Hlow' : B (-500) <= a) by (apply Rle_trans with (B (52 + e)); [apply B_le; lia|exact Hlow]).
  assert (Hhigh' : a < B 499) by (apply Rlt_le_trans with (B (53 + e)); [exact Hhigh|apply B_le; lia]).
  assert (H1000 : B (-1000) = B (-500) * B (-500)) by (rewrite <- B_add; reflexivity).
  assert (H998 : B 998 = B 499 * B 499) by (rewrite <- B_add; reflexivity).
  pose proof (B_pos (-500)) as Hp.
  assert (Hrange : B (-1000) <= a * a < B 998) by (rewrite H1000, H998; nra).
  split; [exact Hrange|].
  assert (Hspec : Prim2SF (x * x) =
                  binary_round_aux prec emax false (Zpos (m * m)) (e + e) loc_Exact).
  { rewrite FloatAxioms.mul_spec. unfold SF64mul. rewrite Hx. cbn [SFmul]. now rewrite xorb_nilpotent. }
  assert (Hexact : IZR (Zpos (m * m)) * B (e + e) = a * a).
  { rewrite Pos2Z.inj_mul, mult_IZR, B_add. unfold a. ring. }
  destruct (@rounded_result (x * x) false (Zpos (m * m)) (e + e) loc_Exact (a * a) Hspec)
    as [m' [e' [Hres Hclose]]].
  - lia.
  - unfold emax, prec. lia.
  - rewrite Hexact. pose proof (B_pos (e + e)). lra.
  - destruct Hrange as [H1 H2]. split.
    + apply Rle_trans with (B (-1000)); [apply B_le; lia|exact H1].
    + apply Rlt_le_trans with (B 998); [exact H2|apply B_le; lia].
  - exists m', e'. split; [exact Hres|].
    rewrite (exact_positive (x * x) Hres). exact Hclose.
Qed.

(** ** Sums of positive numbers *)

Lemma shl_align_fst_value (m : positive) (e e' : Z) :
  (e' <= e)%Z -> IZR (Zpos (fst (shl_align m e e'))) * B e' = IZR (Zpos m) * B e.
Proof.
  intros Hle. rewrite (shl_align_value m Hle), mult_IZR.
  replace e with (e' + (e - e'))%Z at 2 by lia.
  rewrite B_shift by lia. ring.
Qed.

Lemma shl_align_exact (m : positive) (e e' : Z) :
  IZR (Zpos (fst (shl_align m e e'))) * B (snd (shl_align m e e')) = IZR (Zpos m) * B e /\
  (snd (shl_align m e e') <= e)%Z.
Proof.
  unfold shl_align. destruct (e' - e)%Z as [|d|d] eqn:Ed; cbn [fst snd].
  - split; [reflexivity|lia].
  - split; [reflexivity|lia].
  - split; [|lia].
    rewrite iter_xO_value, mult_IZR.
    replace e with (e' + Zpos d)%Z by lia. rewrite B_shift by lia. ring.
Qed.

Lemma add_rounded (acc q : float) (ma mq : positive) (ea eq : Z) :
  Prim2SF acc = S754_finite false ma ea ->
  Prim2SF q = S754_finite false mq eq ->
  B (-1020) <= V acc + V q < B 1021 ->
  exists (m' : positive) (e' : Z),
    Prim2SF (acc + q) = S754_finite false m' e' /\
    V (acc + q) * (1 - B (-52)) <= V acc + V q <= V (acc + q) * (1 + B (-52)).
Proof.
  intros Hacc Hq Hrange.
  rewrite (exact_positive acc Hacc), (exact_positive q Hq) in *.
  set (ez := Z.min ea eq).
  set (p := (fst (shl_align ma ea ez) + fst (shl_align mq eq ez))%positive).
  assert (Hsum : IZR (Zpos p) * B ez = IZR (Zpos ma) * B ea + IZR (Zpos mq) * B eq).
  { unfold p. rewrite Pos2Z.inj_add, plus_IZR, Rmult_plus_distr_r.
    rewrite !shl_align_fst_value by (unfold ez; lia). reflexivity. }
  assert (Hva : (ea <= emax - prec)%Z).
  { apply (@valid_exponent false ma). rewrite <- Hacc. apply Prim2SF_valid. }
  assert (Hspec : Prim2SF (acc + q) = binary_round prec emax false p ez).
  { rewrite FloatAxioms.add_spec. unfold SF64add. rewrite Hacc, Hq. reflexivity. }
  unfold binary_round in Hspec.
  pose proof (shl_align_exact p ez (fexp prec emax (Zpos (digits2_pos p) + ez))) as [Hval Hexp].
  destruct (shl_align p ez (fexp prec emax (Zpos (digits2_pos p) + ez))) as [mz ez'].
  cbn [fst snd] in Hval, Hexp.
  destruct (@rounded_result (acc + q) false (Zpos mz) ez' loc_Exact
              (IZR (Zpos ma) * B ea + IZR (Zpos mq) * B eq) Hspec)
    as [m' [e' [Hres Hclose]]].
  - lia.
  - unfold ez in Hexp. lia.
  - rewrite Hval, Hsum. pose proof (B_pos ez'). lra.
  - exact Hrange.
  - exists m', e'. split; [exact Hres|].
    rewrite (exact_positive (acc + q) Hres). exact Hclose.
Qed.

Lemma add_zero_l (acc q : float) :
  Prim2SF acc = S754_zero false ->
  (exists m e, Prim2SF q = S754_finite false m e) ->
  Prim2SF (acc + q) = Prim2SF q.
Proof.
  intros Hacc [m [e Hq]]. rewrite FloatAxioms.add_spec. unfold SF64add. now rewrite Hacc, Hq.
Qed.

Lemma add_zero_r (acc q : float) :
  Prim2SF q = S754_zero false ->
  (Prim2SF acc = S754_zero false \/ exists m e, Prim2SF acc = S754_finite false m e) ->
  Prim2SF (acc + q) = Prim2SF acc.
Proof.
  intros Hq [Hacc | [m [e Hacc]]]; rewrite FloatAxioms.add_spec; unfold SF64add; now rewrite Hacc, Hq.
Qed.

(** ** Square roots *)

Lemma sqrt_core_bracket (m : positive) (e : Z) :
  let '(q, e', l) := SFsqrt_core_binary prec emax (Zpos m) e in
  (0 < q)%Z /\ (2 * e' <= e)%Z /\
  IZR q * B e' <= R_sqrt.sqrt (IZR (Zpos m) * B e) < (IZR q + 1) * B e'.
Proof.
  unfold SFsqrt_core_binary. cbv zeta.
  set (e' := Z.min (fexp prec emax (Z.div2 (Zdigits2 (Zpos m) + e + 1))) (Z.div2 e)).
  assert (He' : (2 * e' <= e)%Z).
  { pose proof (Z.div2_odd e) as Hodd. destruct (Z.odd e); cbn [Z.b2z] in Hodd; unfold e'; lia. }
  set (m' := match (e - 2 * e')%Z with
             | Zpos _ => Z.shiftl (Zpos m) (e - 2 * e')
             | Z0 => Zpos m
             | Zneg _ => 0%Z
             end).
  assert (Hm' : m' = (Zpos m * 2 ^ (e - 2 * e'))%Z).
  { unfold m'. destruct (e - 2 * e')%Z as [|d|d] eqn:Ed.
    - change (2 ^ 0)%Z with 1%Z. lia.
    - apply Z.shiftl_mul_pow2. lia.
    - lia. }
  assert (Hpow : (0 < 2 ^ (e - 2 * e'))%Z) by (apply Z.pow_pos_nonneg; lia).
  assert (Hm'pos : (0 < m')%Z) by (rewrite Hm'; lia).
  pose proof (Z.sqrtrem_spec m' (Z.lt_le_incl _ _ Hm'pos)) as Hspec.
  destruct (Z.sqrtrem m') as [q r]. destruct Hspec as [Hsq Hr].
  assert (Hq : (0 < q)%Z) by nia.
  split; [exact Hq|]. split; [exact He'|].
  assert (Hvalue : IZR (Zpos m) * B e = IZR m' * (B e' * B e')).
  { rewrite Hm', mult_IZR. replace e with (e' + e' + (e - 2 * e'))%Z at 1 by lia.
    rewrite B_shift, B_add by lia. ring. }
  pose proof (B_pos e') as HBe'.
  assert (Hroot : R_sqrt.sqrt (IZR (Zpos m) * B e) = R_sqrt.sqrt (IZR m') * B e').
  { rewrite Hvalue, sqrt_mult_alt by (apply IZR_le; lia).
    now rewrite sqrt_square by lra. }
  rewrite Hroot.
  assert (HqR : 0 <= IZR q) by (apply IZR_le; lia).
  assert (Hlow : IZR q <= R_sqrt.sqrt (IZR m')).
  { rewrite <- (sqrt_square (IZR q)) at 1 by exact HqR.
    apply sqrt_le_1_alt. rewrite <- mult_IZR. apply IZR_le. lia. }
  assert (Hhigh : R_sqrt.sqrt (IZR m') < IZR q + 1).
  { rewrite <- (sqrt_square (IZR q + 1)) by lra.
    apply sqrt_lt_1_alt. split; [apply IZR_le; lia|].
    rewrite <- plus_IZR, <- mult_IZR. apply IZR_lt. lia. }
  split; nra.
Qed.

Lemma sqrt_rounded (x : float) (m : positive) (e : Z) :
  Prim2SF x = S754_finite false m e ->
  B (-1020) <= R_sqrt.sqrt (V x) < B 1021 ->
  exists (m' : positive) (e' : Z),
    Prim2SF (PrimFloat.sqrt x) = S754_finite false m' e' /\
    V (PrimFloat.sqrt x) * (1 - B (-52)) <= R_sqrt.sqrt (V x)
      <= V (PrimFloat.sqrt x) * (1 + B (-52)).
Proof.
  intros Hx Hrange. rewrite (exact_positive x Hx) in *.
  assert (Hva : (e <= emax - prec)%Z).
  { apply (@valid_exponent false m). rewrite <- Hx. apply Prim2SF_valid. }
  pose proof (sqrt_core_bracket m e) as Hcore.
  assert (Hspec : Prim2SF (PrimFloat.sqrt x) =
                  let '(mz, ez, lz) := SFsqrt_core_binary prec emax (Zpos m) e in
                  binary_round_aux prec emax false mz ez lz).
  { rewrite FloatAxioms.sqrt_spec. unfold SF64sqrt. now rewrite Hx. }
  destruct (SFsqrt_core_binary prec emax (Zpos m) e) as [[q e'] l].
  destruct Hcore as [Hq [He' Hbracket]].
  destruct (@rounded_result (PrimFloat.sqrt x) false q e' l
              (R_sqrt.sqrt (IZR (Zpos m) * B e)) Hspec)
    as [m' [e'' [Hres Hclose]]].
  - exact Hq.
  - unfold emax, prec in *. lia.
  - exact Hbracket.
  - exact Hrange.
  - exists m', e''. split; [exact Hres|].
    rewrite (exact_positive (PrimFloat.sqrt x) Hres). exact Hclose.
Qed.

(** ** Quotients *)

Lemma div_core_bracket (m1 m2 : positive) (e1 e2 : Z) :
  let '(q, e', l) := SFdiv_core_binary prec emax (Zpos m1) e1 (Zpos m2) e2 in
  (0 <= q)%Z /\
  (e' <= fexp prec emax (Zpos (digits2_pos m1) + e1 - (Zpos (digits2_pos m2) + e2)))%Z /\
  IZR q * B e' <= (IZR (Zpos m1) * B e1) / (IZR (Zpos m2) * B e2) < (IZR q + 1) * B e'.
Proof.
  unfold SFdiv_core_binary. cbv zeta. cbn [Zdigits2].
  set (e' := Z.min (fexp prec emax (Zpos (digits2_pos m1) + e1 - (Zpos (digits2_pos m2) + e2)))
                   (e1 - e2)).
  assert (He' : (e' <= e1 - e2)%Z) by (unfold e'; lia).
  set (m' := match (e1 - e2 - e')%Z with
             | Zpos _ => Z.shiftl (Zpos m1) (e1 - e2 - e')
             | Z0 => Zpos m1
             | Zneg _ => 0%Z
             end).
  assert (Hm' : m' = (Zpos m1 * 2 ^ (e1 - e2 - e'))%Z).
  { unfold m'. destruct (e1 - e2 - e')%Z as [|d|d] eqn:Ed.
    - change (2 ^ 0)%Z with 1%Z. lia.
    - apply Z.shiftl_mul_pow2. lia.
    - lia. }
  assert (Hpow : (0 < 2 ^ (e1 - e2 - e'))%Z) by (apply Z.pow_pos_nonneg; lia).
  assert (Hm'pos : (0 < m')%Z) by (rewrite Hm'; lia).
  pose proof (Z_div_mod m' (Zpos m2) (Zgt_pos_0 m2)) as Hspec.
  destruct (Z.div_eucl m' (Zpos m2)) as [q r]. destruct Hspec as [Hdiv Hr].
  assert (Hq : (0 <= q)%Z) by nia.
  split; [exact Hq|]. split; [unfold e'; lia|].
  pose proof (B_pos e') as HBe'. pose proof (B_pos e2) as HBe2.
  assert (Hm2 : 0 < IZR (Zpos m2)) by (apply IZR_lt; lia).
  assert (Hvalue : (IZR (Zpos m1) * B e1) / (IZR (Zpos m2) * B e2)
                   = IZR m' * B e' / IZR (Zpos m2)).
  { rewrite Hm', mult_IZR. replace e1 with (e2 + e' + (e1 - e2 - e'))%Z at 1 by lia.
    rewrite B_shift, B_add by lia. field. split; lra. }
  rewrite Hvalue.
  set (X := IZR m' * B e' / IZR (Zpos m2)).
  assert (HX : X * IZR (Zpos m2) = IZR m' * B e') by (unfold X; field; lra).
  assert (HmR : IZR m' = IZR (Zpos m2) * IZR q + IZR r)
    by (rewrite Hdiv, plus_IZR, mult_IZR; reflexivity).
  assert (Hr0 : 0 <= IZR r) by (apply IZR_le; lia).
  assert (Hr1 : IZR r < IZR (Zpos m2)) by (apply IZR_lt; lia).
  split.
  - apply Rmult_le_reg_r with (IZR (Zpos m2)); [exact Hm2|]. rewrite HX, HmR. nra.
  - apply Rmult_lt_reg_r with (IZR (Zpos m2)); [exact Hm2|]. rewrite HX, HmR. nra.
Qed.

Lemma div_rounded (x y : float) (s : bool) (mx my : positive) (ex ey : Z) :
  Prim2SF x = S754_finite s mx ex ->
  Prim2SF y = S754_finite false my ey ->
  B (-1020) <= (IZR (Zpos mx) * B ex) / V y < B 1021 ->
  exists (m' : positive) (e' : Z),
    Prim2SF (x / y) = S754_finite s m' e' /\
    IZR (Zpos m') * B e' * (1 - B (-52)) <= (IZR (Zpos mx) * B ex) / V y
      <= IZR (Zpos m') * B e' * (1 + B (-52)).
Proof.
  intros Hx Hy Hrange. rewrite (exact_positive y Hy) in *.
  pose proof (div_core_bracket mx my ex ey) as Hcore.
  assert (Hspec : Prim2SF (x / y) =
                  let '(mz, ez, lz) := SFdiv_core_binary prec emax (Zpos mx) ex (Zpos my) ey in
                  binary_round_aux prec emax s mz ez lz).
  { rewrite FloatAxioms.div_spec. unfold SF64div. rewrite Hx, Hy. cbn [SFdiv]. now rewrite xorb_false_r. }
  destruct (SFdiv_core_binary prec emax (Zpos mx) ex (Zpos my) ey) as [[q e'] l].
  destruct Hcore as [Hq [He' Hbracket]].
  set (r := (IZR (Zpos mx) * B ex) / (IZR (Zpos my) * B ey)) in *.
  (* the quotient is above 2^(D-1), where D is the difference of the positions *)
  set (D := (Zpos (digits2_pos mx) + ex - (Zpos (digits2_pos my) + ey))%Z) in *.
  assert (HD : B (D - 1) < r).
  { pose proof (digits_value mx ex) as Hnum.
    pose proof (digits2_upper my) as Hden. apply IZR_lt in Hden.
    rewrite <- B_IZR in Hden by lia.
    pose proof (B_pos ey) as HBey. pose proof (B_pos (D - 1)) as HBD.
    assert (Hmy : 0 < IZR (Zpos my)) by (apply IZR_lt; lia).
    assert (Hsplit : B (Zpos (digits2_pos mx) - 1 + ex)
                     = B (D - 1) * (B (Zpos (digits2_pos my)) * B ey)).
    { rewrite <- !B_add. f_equal. unfold D. lia. }
    unfold r. apply Rmult_lt_reg_r with (IZR (Zpos my) * B ey); [nra|].
    replace (IZR (Zpos mx) * B ex / (IZR (Zpos my) * B ey) * (IZR (Zpos my) * B ey))
      with (IZR (Zpos mx) * B ex) by (field; split; lra).
    apply Rlt_le_trans with (B (D - 1) * (B (Zpos (digits2_pos my)) * B ey)).
    { apply Rmult_lt_compat_l; [exact HBD|]. apply Rmult_lt_compat_r; assumption. }
    rewrite <- Hsplit. exact Hnum. }
  assert (HDhigh : (D - 1 < 1021)%Z) by (apply B_lt_inv; lra).
  assert (Hbelow : B e' <= r).
  { unfold fexp in He'.
    destruct (Z.le_ge_cases e' (D - 1)) as [Hc|Hc].
    - apply Rle_trans with (B (D - 1)); [now apply B_le|lra].
    - apply Rle_trans with (B (-1020)); [|apply Hrange].
      apply B_le. unfold emin, emax, prec in *. lia. }
  assert (Hqpos : (0 < q)%Z).
  { apply lt_IZR. pose proof (B_pos e'). nra. }
  destruct (@rounded_result (x / y) s q e' l r Hspec) as [m' [e'' [Hres Hclose]]].
  - exact Hqpos.
  - unfold fexp, emin, emax, prec in *. lia.
  - exact Hbracket.
  - exact Hrange.
  - exists m', e''. split; [exact Hres|exact Hclose].
Qed.

Lemma div_zero (x y : float) (s : bool) (my : positive) (ey : Z) :
  Prim2SF x = S754_zero s ->
  Prim2SF y = S754_finite false my ey ->
  V (x / y) = 0.
Proof.
  intros Hx Hy. apply (@exact_zero _ s).
  rewrite FloatAxioms.div_spec. unfold SF64div. rewrite Hx, Hy. cbn [SFdiv]. now rewrite xorb_false_r.
Qed.

(** ** Accumulated rounding errors *)

Local Abbreviation u := (B (-52)).

Lemma u_value : u = / 4503599627370496.
Proof.
  apply Rmult_eq_reg_l with (B 52); [|pose proof (B_pos 52); lra].
  rewrite <- B_add. change (B (52 + -52)) with 1.
  rewrite (@B_IZR 52) by lia. change (2 ^ 52)%Z with 4503599627370496%Z. field.
Qed.

Lemma bernoulli (x : R) (k : nat) :
  0 <= x <= 1 -> 0 <= (1 - x) ^ k /\ 1 - INR k * x <= (1 - x) ^ k.
Proof.
  intros Hx. induction k as [|k [IH0 IH1]].
  - cbn. lra.
  - rewrite S_INR. cbn [pow]. pose proof (pos_INR k) as Hk. split; nra.
Qed.

(** The powers of [1 - u] and [1 + u] that occur for vectors of at most
    2^20 components. *)
Lemma error_factors (k : nat) :
  (1 <= k)%nat -> INR k <= 1048586 ->
  / 2 <= (1 - u) ^ k <= 1 - u /\ 1 + u <= (1 + u) ^ k <= 2.
Proof.
  intros Hk Hbound. pose proof u_value as Hu.
  assert (Hu01 : 0 <= u <= 1) by (rewrite Hu; lra).
  destruct (bernoulli k Hu01) as [H0 H1].
  assert (Hhalf : / 2 <= (1 - u) ^ k) by (rewrite Hu in *; nra).
  destruct k as [|k]; [lia|].
  assert (Hq : (1 - u) ^ k <= 1).
  { apply Rle_trans with (1 ^ k); [apply pow_incr; lra|rewrite pow1; lra]. }
  assert (Hq0 : 0 <= (1 - u) ^ k) by (apply pow_le; lra).
  assert (Hp : 1 <= (1 + u) ^ k) by (apply pow_R1_Rle; lra).
  assert (Hprod : (1 + u) ^ S k * (1 - u) ^ S k <= 1).
  { rewrite <- Rpow_mult_distr.
    apply Rle_trans with (1 ^ S k); [apply pow_incr; nra|rewrite pow1; lra]. }
  assert (Hp0 : 0 < (1 + u) ^ S k) by (apply pow_lt; lra).
  cbn [pow] in *. repeat split; nra.
Qed.

Lemma exact_same (x y : float) : Prim2SF x = Prim2SF y -> V x = V y.
Proof. intros Hxy. unfold Float64.exact. now rewrite Hxy. Qed.

Lemma positive_value (x : float) (m : positive) (e : Z) :
  Prim2SF x = S754_finite false m e -> 0 < V x.
Proof.
  intros Hx. rewrite (exact_positive x Hx).
  apply Rmult_lt_0_compat; [apply IZR_lt; lia|apply B_pos].
Qed.

(** [+0] or a positive number: what a sum of squares can be. *)
Local Abbreviation nonnegative x :=
  (Prim2SF x = S754_zero false \/ exists m e, Prim2SF x = S754_finite false m e).

Lemma nonnegative_value (x : float) : nonnegative x -> 0 <= V x.
Proof.
  intros [Hz | [m [e Hx]]].
  - rewrite (exact_zero x Hz). lra.
  - apply Rlt_le. exact (positive_value x Hx).
Qed.

Lemma square_of_zero (x : float) (s : bool) :
  Prim2SF x = S754_zero s -> Prim2SF (x * x) = S754_zero false.
Proof.
  intros Hx. rewrite FloatAxioms.mul_spec. unfold SF64mul. rewrite Hx. cbn [SFmul].
  now rewrite xorb_nilpotent.
Qed.

(** One turn of the loop of [sumOfSquares]: [k] bounds the number of
    roundings that the sum [acc] of the squares so far, whose exact value
    is [T], has gone through. *)
Lemma accumulate_step (acc x : float) (T : R) (k : nat) :
  Float64.moderate x = true -> (1 <= k)%nat -> INR k <= 1048577 ->
  nonnegative acc ->
  V acc * (1 - u) ^ k <= T <= V acc * (1 + u) ^ k ->
  T = 0 \/ B (-1000) <= T ->
  T <= (INR k - 1) * B 998 ->
  nonnegative (acc + x * x) /\
  V (acc + x * x) * (1 - u) ^ S k <= T + V x * V x <= V (acc + x * x) * (1 + u) ^ S k /\
  (T + V x * V x = 0 \/ B (-1000) <= T + V x * V x) /\
  T + V x * V x <= (INR (S k) - 1) * B 998.
Proof.
  intros Hmod Hk Hbound Hacc Hrel Hzero Hsize.
  pose proof u_value as Hu.
  assert (Hbound' : INR k <= 1048586) by lra.
  destruct (@error_factors k Hk Hbound') as [[HQ1 HQ2] [HP1 HP2]].
  pose proof (@nonnegative_value acc Hacc) as Ha.
  pose proof (B_pos (-1000)) as H1000. pose proof (B_pos 998) as H998.
  assert (HkR : 1 <= INR k) by (change 1 with (INR 1); apply le_INR; lia).
  rewrite S_INR. cbn [pow].
  set (Q := (1 - u) ^ k) in *. set (P := (1 + u) ^ k) in *.
  destruct (@moderate_cases x Hmod) as [[s Hx] | [s [m [e [Hx He]]]]].
  - (* a zero component *)
    rewrite (@exact_zero x s Hx).
    assert (Hsame : Prim2SF (acc + x * x) = Prim2SF acc).
    { apply add_zero_r; [exact (@square_of_zero x s Hx)|exact Hacc]. }
    rewrite (@exact_same _ _ Hsame).
    split; [rewrite Hsame; exact Hacc|].
    rewrite Hu in *. repeat split; nra.
  - destruct (@mul_self_rounded x s m e Hx He) as [[Hx1 Hx2] [m' [e' [Hq Hqrel]]]].
    pose proof (@positive_value (x * x) m' e' Hq) as Hqpos.
    assert (HT0 : 0 <= T) by (destruct Hzero; lra).
    destruct Hacc as [Hz | [ma [ea Hacc]]].
    + (* the first non-zero component *)
      assert (Hsame : Prim2SF (acc + x * x) = Prim2SF (x * x)).
      { apply add_zero_l; [exact Hz|]. now exists m', e'. }
      rewrite (@exact_same _ _ Hsame).
      rewrite (@exact_zero acc false Hz) in Hrel.
      assert (HTz : T = 0) by lra.
      split; [right; exists m', e'; now rewrite Hsame|].
      rewrite Hu in *. repeat split; nra.
    + assert (Hrange : B (-1020) <= V acc + V (x * x) < B 1021).
      { assert (H1 : B (-1000) = IZR (2 ^ 20) * B (-1020)).
        { rewrite <- (@B_IZR 20), <- B_add by lia. reflexivity. }
        assert (H2 : B 1021 = IZR (2 ^ 23) * B 998).
        { rewrite <- (@B_IZR 23), <- B_add by lia. reflexivity. }
        change (2 ^ 20)%Z with 1048576%Z in H1. change (2 ^ 23)%Z with 8388608%Z in H2.
        pose proof (B_pos (-1020)).
        rewrite Hu in *. split; nra. }
      destruct (@add_rounded acc (x * x) ma m' ea e' Hacc Hq Hrange) as [ms [es [Hsum Hsumrel]]].
      pose proof (@positive_value (acc + x * x) ms es Hsum) as Hspos.
      split; [right; now exists ms, es|].
      set (a := V acc) in *. set (a' := V (acc + x * x)) in *.
      set (X := V x * V x) in *. set (q := V (x * x)) in *.
      assert (Hup1 : q * (1 + u) <= q * P) by (apply Rmult_le_compat_l; lra).
      assert (Hup2 : (a + q) * P <= a' * (1 + u) * P) by (apply Rmult_le_compat_r; lra).
      assert (Hlo1 : q * Q <= q * (1 - u)) by (apply Rmult_le_compat_l; lra).
      assert (Hlo2 : a' * (1 - u) * Q <= (a + q) * Q) by (apply Rmult_le_compat_r; lra).
      repeat split; nra.
Qed.

(** The exact sum of the squares of the components. *)
Local Abbreviation SS l := (fold_right Rplus 0 (map (fun x => V x * V x) l)).

Lemma exactSumOfSquares_value (l : list float) :
  Q2R (Float64.exactSumOfSquares l) = SS l.
Proof.
  unfold Float64.exactSumOfSquares.
  assert (Hgen : forall q0,
             Q2R (fold_left (fun sum value =>
                    QArith_base.Qplus sum (QArith_base.Qmult (Float64.exact value)
                                                             (Float64.exact value))) l q0)
             = Q2R q0 + SS l).
  { induction l as [|x l IH]; intros q0; cbn [fold_left map fold_right].
    - lra.
    - rewrite IH, Qreals.Q2R_plus, Qreals.Q2R_mult. lra. }
  rewrite Hgen. unfold Q2R. cbn. lra.
Qed.

Lemma SS_nonnegative (l : list float) : 0 <= SS l.
Proof.
  induction l as [|x l IH]; cbn [map fold_right]; [lra|]. nra.
Qed.

(** The loop of [sumOfSquares], from any sum so far. *)
Lemma sumOfSquares_loop (l : list float) :
  Forall (fun x => Float64.moderate x = true) l ->
  forall (acc : float) (T : R) (k : nat),
    (1 <= k)%nat -> INR k + INR (length l) <= 1048577 ->
    nonnegative acc ->
    V acc * (1 - u) ^ k <= T <= V acc * (1 + u) ^ k ->
    T = 0 \/ B (-1000) <= T ->
    T <= (INR k - 1) * B 998 ->
    let acc' := fold_left (fun sum value => (sum + value * value)%float) l acc in
    nonnegative acc' /\
    V acc' * (1 - u) ^ (k + length l) <= T + SS l <= V acc' * (1 + u) ^ (k + length l) /\
    (T + SS l = 0 \/ B (-1000) <= T + SS l) /\
    T + SS l <= (INR (k + length l) - 1) * B 998.
Proof.
  induction 1 as [|x l Hx Hl IH]; intros acc T k Hk Hbound Hacc Hrel Hzero Hsize.
  - cbn [fold_left map fold_right length]. rewrite Nat.add_0_r, Rplus_0_r. auto.
  - cbn [fold_left map fold_right length] in *. rewrite S_INR in Hbound.
    pose proof (pos_INR (length l)) as Hlen.
    assert (Hk' : INR k <= 1048577) by lra.
    destruct (@accumulate_step acc x T k Hx Hk Hk' Hacc Hrel Hzero Hsize)
      as [Hacc' [Hrel' [Hzero' Hsize']]].
    assert (Hbound' : INR (S k) + INR (length l) <= 1048577) by (rewrite S_INR; lra).
    destruct (IH (acc + x * x)%float (T + V x * V x) (S k) (le_S _ _ Hk) Hbound'
                 Hacc' Hrel' Hzero' Hsize') as [H1 [H2 [H3 H4]]].
    rewrite Nat.add_succ_r. cbn [Nat.add] in H2, H4.
    replace (T + (V x * V x + SS l)) with (T + V x * V x + SS l) by ring.
    auto.
Qed.

(** A vector of moderate numbers whose squares add up to zero holds
    zeros only. *)
Lemma SS_zero_allZero (l : list float) :
  Forall (fun x => Float64.moderate x = true) l -> SS l = 0 -> allZero l.
Proof.
  induction 1 as [|x l Hx Hl IH]; intros Hsum; [constructor|].
  cbn [map fold_right] in Hsum.
  pose proof (SS_nonnegative l) as Hnn.
  assert (Hsq : 0 <= V x * V x) by nra.
  constructor; [|apply IH; lra].
  destruct (@moderate_cases x Hx) as [[s Hz] | [s [m [e [Hf _]]]]].
  - cbn [strict_eq of_int float_number Float64.of_int].
    rewrite FloatAxioms.eqb_spec, Hz. now destruct s.
  - exfalso. rewrite (@exact_square x s m e Hf) in *.
    assert (Hpos : 0 < IZR (Zpos m) * B e)
      by (apply Rmult_lt_0_compat; [apply IZR_lt; lia|apply B_pos]).
    nra.
Qed.

(** A positive number passes the two tests of the guard of
    [normalizeVector]. *)
Lemma positive_not_degenerate (x : float) (m : positive) (e : Z) :
  Prim2SF x = S754_finite false m e ->
  PrimFloat.is_finite x = true /\ PrimFloat.eqb x 0%float = false.
Proof.
  intros Hx. unfold PrimFloat.is_finite, PrimFloat.is_nan, PrimFloat.is_infinity.
  rewrite !FloatAxioms.eqb_spec, FloatAxioms.abs_spec, Hx.
  replace (Prim2SF PrimFloat.infinity) with (S754_infinity false) by (vm_compute; reflexivity).
  replace (Prim2SF 0%float) with (S754_zero false) by (vm_compute; reflexivity).
  cbv beta iota delta [SFabs SFeqb SFcompare].
  rewrite Z.compare_refl.
  change (Pos.compare_cont Eq m m) with (Pos.compare m m). rewrite Pos.compare_refl.
  split; reflexivity.
Qed.

(** The magnitude of a vector of moderate numbers that are not all zero. *)
Lemma magnitudeOf_rounded (v : list float) :
  Forall (fun x => Float64.moderate x = true) v ->
  INR (length v) <= 1048576 ->
  ~ allZero v ->
  exists (m : positive) (e : Z),
    Prim2SF (magnitudeOf v) = S754_finite false m e /\
    B (-1000) <= SS v <= INR (length v) * B 998 /\
    V (magnitudeOf v) * V (magnitudeOf v) * (1 - u) ^ (length v + 3) <= SS v
      <= V (magnitudeOf v) * V (magnitudeOf v) * (1 + u) ^ (length v + 3).
Proof.
  intros Hmod Hlen Hnz.
  pose proof u_value as Hu.
  change (magnitudeOf v)
    with (PrimFloat.sqrt (fold_left (fun sum value => (sum + value * value)%float) v 0%float)).
  assert (Hstart : nonnegative 0%float) by (left; vm_compute; reflexivity).
  assert (Hzero : V 0%float = 0) by (apply (@exact_zero _ false); vm_compute; reflexivity).
  assert (Hbound : INR 1 + INR (length v) <= 1048577) by (cbn [INR]; lra).
  destruct (@sumOfSquares_loop v Hmod 0%float 0 1%nat (le_n 1) Hbound Hstart)
    as [Hacc [Hrel [Hbig Hsize]]].
  - rewrite Hzero. lra.
  - now left.
  - cbn [INR]. lra.
  - rewrite Rplus_0_l in Hrel, Hbig, Hsize.
    set (S := fold_left (fun sum value => (sum + value * value)%float) v 0%float) in *.
    destruct Hbig as [Hz|Hbig]; [exfalso; apply Hnz; now apply SS_zero_allZero|].
    pose proof (B_pos (-1000)) as H1000. pose proof (B_pos 998) as H998.
    assert (Hk : INR (1 + length v) <= 1048586)
      by (rewrite plus_INR; cbn [INR]; lra).
    destruct (@error_factors (1 + length v) ltac:(lia) Hk) as [[HQ1 HQ2] [HP1 HP2]].
    rewrite plus_INR in Hsize. cbn [INR] in Hsize.
    replace (1 + INR (length v) - 1) with (INR (length v)) in Hsize by ring.
    pose proof (@nonnegative_value S Hacc) as HS0.
    assert (HSpos : 0 < V S) by nra.
    destruct Hacc as [Hz | [ms [es HS]]]; [rewrite (@exact_zero S false Hz) in HSpos; lra|].
    (* the sum is between 2^-1001 and 2^1019 *)
    assert (H1 : B (-1000) = 2 * B (-1001)).
    { change (-1000)%Z with (-1001 + 1)%Z. rewrite B_add. change (B 1) with (2 * 1). ring. }
    assert (H2 : B 1019 = IZR (2 ^ 21) * B 998).
    { rewrite <- (@B_IZR 21), <- B_add by lia. reflexivity. }
    change (2 ^ 21)%Z with 2097152%Z in H2.
    assert (HSlow : B (-1001) <= V S) by nra.
    assert (HShigh : V S <= B 1019) by nra.
    assert (Hroot : B (-1020) <= R_sqrt.sqrt (V S) < B 1021).
    { split.
      - rewrite <- (sqrt_square (B (-1020))) by (apply Rlt_le, B_pos).
        apply sqrt_le_1_alt. rewrite <- B_add.
        apply Rle_trans with (B (-1001)); [apply B_le; lia|exact HSlow].
      - rewrite <- (sqrt_square (B 1021)) by (apply Rlt_le, B_pos).
        apply sqrt_lt_1_alt. split; [lra|]. rewrite <- B_add.
        apply Rle_lt_trans with (B 1019); [exact HShigh|apply B_lt; lia]. }
    destruct (@sqrt_rounded S ms es HS Hroot) as [m [e [Hmag Hmagrel]]].
    exists m, e. split; [exact Hmag|]. split; [lra|].
    pose proof (@positive_value (PrimFloat.sqrt S) m e Hmag) as HMpos.
    set (M := V (PrimFloat.sqrt S)) in *.
    assert (Hsq : R_sqrt.sqrt (V S) * R_sqrt.sqrt (V S) = V S) by (apply sqrt_sqrt; lra).
    assert (Hr0 : 0 <= R_sqrt.sqrt (V S)) by apply sqrt_pos.
    replace (length v + 3)%nat with (2 + (1 + length v))%nat by lia.
    rewrite (pow_add (1 - u) 2 (1 + length v)), (pow_add (1 + u) 2 (1 + length v)).
    set (Q := (1 - u) ^ (1 + length v)) in *. set (P := (1 + u) ^ (1 + length v)) in *.
    rewrite Hu in *.
    assert (HM1 : M * (1 - / 4503599627370496) * (M * (1 - / 4503599627370496)) <= V S) by nra.
    assert (HM2 : V S <= M * (1 + / 4503599627370496) * (M * (1 + / 4503599627370496))) by nra.
    split.
    + apply Rle_trans with (V S * Q); [|lra].
      replace (M * M * ((1 - / 4503599627370496) ^ 2 * Q))
        with (M * (1 - / 4503599627370496) * (M * (1 - / 4503599627370496)) * Q) by ring.
      apply Rmult_le_compat_r; lra.
    + apply Rle_trans with (V S * P); [lra|].
      replace (M * M * ((1 + / 4503599627370496) ^ 2 * P))
        with (M * (1 + / 4503599627370496) * (M * (1 + / 4503599627370496)) * P) by ring.
      apply Rmult_le_compat_r; lra.
Qed.

(** One component of the result, for a magnitude that is neither tiny
    nor huge. *)
Lemma component_rounded (x y : float) (my : positive) (ey : Z) :
  Float64.moderate x = true ->
  Prim2SF y = S754_finite false my ey ->
  B (-502) <= V y <= B 511 ->
  V (x / y) * V (x / y) * (1 - u) ^ 2 <= V x * V x / (V y * V y)
    <= V (x / y) * V (x / y) * (1 + u) ^ 2.
Proof.
  intros Hmod Hy [Hylow Hyhigh].
  pose proof (@positive_value y my ey Hy) as Hypos.
  destruct (@moderate_cases x Hmod) as [[s Hz] | [s [m [e [Hx He]]]]].
  - rewrite (@div_zero x y s my ey Hz Hy), (@exact_zero x s Hz).
    unfold Rdiv. rewrite !Rmult_0_l. lra.
  - assert (Hnormal : (emin < e)%Z) by (unfold emin, emax, prec; lia).
    pose proof (@normal_value x s m e Hx Hnormal) as [Hlow Hhigh].
    set (a := IZR (Zpos m) * B e) in *.
    assert (Halow : B (-500) <= a)
      by (apply Rle_trans with (B (52 + e)); [apply B_le; lia|exact Hlow]).
    assert (Hahigh : a < B 499)
      by (apply Rlt_le_trans with (B (53 + e)); [exact Hhigh|apply B_le; lia]).
    set (r := a / V y).
    assert (Hr : r * V y = a) by (unfold r; field; lra).
    assert (Hrange : B (-1020) <= r < B 1021).
    { pose proof (B_pos (-1020)) as H1020. pose proof (B_pos 1021) as H1021.
      assert (H1 : B (-1020) * B 511 <= B (-500)) by (rewrite <- B_add; apply B_le; lia).
      assert (H2 : B 499 <= B 1021 * B (-502)) by (rewrite <- B_add; apply B_le; lia).
      split.
      - apply Rmult_le_reg_r with (V y); [exact Hypos|]. rewrite Hr.
        apply Rle_trans with (B (-1020) * B 511); [|lra].
        apply Rmult_le_compat_l; lra.
      - apply Rmult_lt_reg_r with (V y); [exact Hypos|]. rewrite Hr.
        apply Rlt_le_trans with (B 1021 * B (-502)); [lra|].
        apply Rmult_le_compat_l; lra. }
    destruct (@div_rounded x y s m my e ey Hx Hy Hrange) as [m' [e' [Hres Hclose]]].
    rewrite (@exact_square (x / y) s m' e' Hres), (@exact_square x s m e Hx).
    fold a. change (IZR (Zpos m) * B e / V y) with r in Hclose.
    set (o := IZR (Zpos m') * B e') in *.
    assert (Ho : 0 < o) by (apply Rmult_lt_0_compat; [apply IZR_lt; lia|apply B_pos]).
    replace (a * a / (V y * V y)) with (r * r) by (unfold r; field; lra).
    pose proof u_value as Hu. rewrite Hu in *.
    set (c := / 4503599627370496) in *.
    assert (Hc : 0 < c < 1) by (unfold c; lra).
    assert (HL : 0 < o * (1 - c)) by (apply Rmult_lt_0_compat; lra).
    assert (HU : 0 < o * (1 + c)) by (apply Rmult_lt_0_compat; lra).
    destruct Hclose as [Hc1 Hc2].
    assert (Hr0 : 0 < r) by lra.
    split.
    + replace (o * o * (1 - c) ^ 2) with (o * (1 - c) * (o * (1 - c))) by ring.
      apply Rmult_le_compat; lra.
    + replace (o * o * (1 + c) ^ 2) with (o * (1 + c) * (o * (1 + c))) by ring.
      apply Rmult_le_compat; lra.
Qed.

Lemma SS_scaled (v : list float) (y : float) (c d : R) :
  (forall x, In x v ->
     V (x / y) * V (x / y) * c <= V x * V x / (V y * V y) <= V (x / y) * V (x / y) * d) ->
  SS (map (fun x => (x / y)%float) v) * c <= SS v / (V y * V y)
    <= SS (map (fun x => (x / y)%float) v) * d.
Proof.
  induction v as [|x v IH]; intros Hall; cbn [map fold_right].
  - unfold Rdiv. rewrite !Rmult_0_l. lra.
  - destruct (Hall x (or_introl eq_refl)) as [H1 H2].
    destruct IH as [IH1 IH2]; [intros z Hz; apply Hall; now right|].
    unfold Rdiv in *. rewrite !Rmult_plus_distr_r. lra.
Qed.

(** From the bounds on the roundings to the distance from 1. *)
Lemma unit_norm_bound (n : nat) (sigma ratio : R) :
  INR n <= 1048576 -> 0 <= sigma ->
  sigma * (1 - u) ^ 2 <= ratio <= sigma * (1 + u) ^ 2 ->
  (1 - u) ^ (n + 3) <= ratio <= (1 + u) ^ (n + 3) ->
  Rabs (sigma - 1) <= (INR n + 5) / 2 ^ 51.
Proof.
  intros Hn Hsigma [Hs1 Hs2] [Hr1 Hr2].
  pose proof u_value as Hu.
  assert (Hu01 : 0 <= u <= 1) by (rewrite Hu; lra).
  destruct (@bernoulli u (2 + (n + 3)) Hu01) as [_ Hbern].
  rewrite plus_INR, plus_INR in Hbern. cbn [INR] in Hbern.
  rewrite (pow_add (1 - u) 2 (n + 3)) in Hbern.
  assert (Hprod : (1 + u) ^ (n + 3) * (1 - u) ^ (n + 3) <= 1).
  { rewrite <- Rpow_mult_distr.
    apply Rle_trans with (1 ^ (n + 3)); [apply pow_incr; nra|rewrite pow1; lra]. }
  assert (HQ0 : 0 < (1 - u) ^ (n + 3)) by (apply pow_lt; rewrite Hu; lra).
  assert (HP0 : 0 < (1 + u) ^ (n + 3)) by (apply pow_lt; lra).
  set (Q := (1 - u) ^ (n + 3)) in *. set (P := (1 + u) ^ (n + 3)) in *.
  set (t := (1 + 1 + (INR n + (1 + 1 + 1))) * u) in *.
  assert (Ht : 0 <= t <= / 2) by (unfold t; rewrite Hu; pose proof (pos_INR n); lra).
  assert (Hbound : (INR n + 5) / 2 ^ 51 = 2 * t) by (unfold t; rewrite Hu; field).
  rewrite Hbound.
  (* above *)
  assert (Hup1 : sigma * (1 - u) ^ 2 * Q <= P * Q) by (apply Rmult_le_compat_r; lra).
  assert (Hup2 : sigma * (1 - t) <= sigma * ((1 - u) ^ 2 * Q)) by (apply Rmult_le_compat_l; lra).
  assert (Hup : sigma * (1 - t) <= 1) by lra.
  (* below *)
  assert (Hlo1 : (1 - u) ^ 2 * Q <= (1 - u) ^ 2 * (sigma * (1 + u) ^ 2)).
  { apply Rmult_le_compat_l; [apply pow2_ge_0|lra]. }
  assert (Hlo2 : (1 - u) ^ 2 * (1 + u) ^ 2 <= 1) by (rewrite Hu; nra).
  assert (Hlo3 : sigma * ((1 - u) ^ 2 * (1 + u) ^ 2) <= sigma * 1)
    by (apply Rmult_le_compat_l; lra).
  assert (Hlo : 1 - t <= sigma) by lra.
  apply Rabs_le. split; nra.
Qed.

(** The normalization of a vector of moderate numbers that are not all
    zero: the guard lets it through, and the squares of its components
    add up to 1 within the accumulated roundings. *)
Lemma normalizeVector_rounded (v : list float) :
  Forall (fun x => Float64.moderate x = true) v ->
  (Z.of_nat (length v) <= 2 ^ 20)%Z ->
  ~ allZero v ->
  degenerate v = false /\
  Rabs (Q2R (Float64.exactSumOfSquares (normalizeVector v)) - 1)
    <= (INR (length v) + 5) / 2 ^ 51.
Proof.
  intros Hmod Hlen Hnz.
  assert (Hn : INR (length v) <= 1048576).
  { rewrite INR_IZR_INZ. apply IZR_le. exact Hlen. }
  destruct (@magnitudeOf_rounded v Hmod Hn Hnz) as [m [e [Hmag [[Hlow Hhigh] Hrel]]]].
  destruct (@positive_not_degenerate (magnitudeOf v) m e Hmag) as [Hfinite Hnonzero].
  assert (Hd : degenerate v = false).
  { unfold degenerate. cbn [Number_isFinite strict_eq of_int float_number Float64.of_int].
    unfold PrimFloat.zero. now rewrite Hfinite, Hnonzero. }
  split; [exact Hd|].
  rewrite (proj2 (NormalizerFacts.normalizeVector_cases v) Hd).
  cbn [div float_number].
  rewrite exactSumOfSquares_value.
  pose proof (@positive_value (magnitudeOf v) m e Hmag) as HMpos.
  set (M := V (magnitudeOf v)) in *.
  pose proof u_value as Hu.
  pose proof (B_pos (-1000)) as H1000. pose proof (B_pos 998) as H998.
  assert (Hk : INR (length v + 3) <= 1048586) by (rewrite plus_INR; cbn [INR]; lra).
  destruct (@error_factors (length v + 3) ltac:(lia) Hk) as [[HQ1 HQ2] [HP1 HP2]].
  assert (HMM : 0 < M * M) by (apply Rmult_lt_0_compat; exact HMpos).
  (* the magnitude is neither tiny nor huge *)
  assert (HMrange : B (-502) <= M <= B 511).
  { assert (H1 : B (-502) * B (-502) <= B (-1000) * / 2).
    { apply Rle_trans with (B (-1001)); [rewrite <- B_add; apply B_le; lia|].
      change (-1000)%Z with (-1001 + 1)%Z. rewrite B_add. change (B 1) with (2 * 1).
      pose proof (B_pos (-1001)). lra. }
    assert (H2 : 2 * (1048576 * B 998) <= B 511 * B 511).
    { apply Rle_trans with (B 1019); [|rewrite <- B_add; apply B_le; lia].
      replace (B 1019) with (IZR (2 ^ 21) * B 998)
        by (rewrite <- (@B_IZR 21), <- B_add by lia; reflexivity).
      change (2 ^ 21)%Z with 2097152%Z. lra. }
    pose proof (B_pos (-502)) as H502. pose proof (B_pos 511) as H511.
    set (Q := (1 - u) ^ (length v + 3)) in *. set (P := (1 + u) ^ (length v + 3)) in *.
    assert (Hsq1 : B (-502) * B (-502) <= M * M) by nra.
    assert (Hsq2 : M * M <= B 511 * B 511) by nra.
    split; nra. }
  pose proof (@SS_scaled v (magnitudeOf v) ((1 - u) ^ 2) ((1 + u) ^ 2)) as Hscaled.
  destruct Hscaled as [Hs1 Hs2].
  { intros x Hx. apply (@component_rounded x (magnitudeOf v) m e); [|exact Hmag|exact HMrange].
    exact (proj1 (Forall_forall _ _) Hmod x Hx). }
  fold M in Hs1, Hs2.
  apply (@unit_norm_bound (length v) _ (SS v / (M * M)) Hn).
  - apply SS_nonnegative.
  - split; [exact Hs1|exact Hs2].
  - destruct Hrel as [Hr1 Hr2]. split.
    + apply Rmult_le_reg_r with (M * M); [exact HMM|].
      replace (SS v / (M * M) * (M * M)) with (SS v) by (field; lra). lra.
    + apply Rmult_le_reg_r with (M * M); [exact HMM|].
      replace (SS v / (M * M) * (M * M)) with (SS v) by (field; lra). lra.
Qed.

End Float64Rounding.

(** C2, as the code has it.  The normalizer returns a vector of the
    length of its argument: the all-zero vector when the magnitude is 0 or
    not finite, which is the case of every all-zero argument, and otherwise
    the argument divided, component by component, by its magnitude.  On
    binary64, when every component is zero or at least 2^-500 and below
    2^499 in absolute value, not all components are zero and there are n,
    at most 2^20, of them, the magnitude is finite and not zero, and the
    squares of the components of the result add up, without rounding, to a
    number within (n + 5) / 2^51 of 1.  In exact arithmetic they add up to
    1 whenever the magnitude is not zero. *)
Theorem normalizeVector_unit_norm :
  (forall v : list float,
      length (normalizeVector v) = length v /\
      (degenerate v = true -> normalizeVector v = repeat 0%float (length v)) /\
      (degenerate v = false ->
       normalizeVector v = map (fun value => PrimFloat.div value (magnitudeOf v)) v) /\
      (allZero v -> degenerate v = true)) /\
  (forall v : list float,
      Forall (fun value => Float64.moderate value = true) v ->
      (Z.of_nat (length v) <= 2 ^ 20)%Z ->
      ~ allZero v ->
      degenerate v = false /\
      (Rabs (Q2R (Float64.exactSumOfSquares (normalizeVector v)) - 1)
       <= (INR (length v) + 5) / 2 ^ 51)%R) /\
  (forall v : list R,
      length (normalizeVector v) = length v /\
      (magnitudeOf v = 0%R -> normalizeVector v = repeat 0%R (length v)) /\
      (magnitudeOf v <> 0%R -> sumOfSquares (normalizeVector v) = 1%R)).
Proof.
  split; [|split]; intros v.
  - split; [apply NormalizerFacts.normalizeVector_length|].
    destruct (NormalizerFacts.normalizeVector_cases v) as [Hzeros Hscaled].
    repeat split; [exact Hzeros|exact Hscaled|apply ZeroVectors.degenerate_allZero].
  - apply Float64Rounding.normalizeVector_rounded.
  - split; [apply NormalizerFacts.normalizeVector_length|]. split.
    + intros Hz. rewrite (ExactFacts.normalizeVector_zero _ Hz).
      apply NormalizerFacts.zeros_repeat.
    + apply ExactFacts.normalizeVector_unit.
Qed.

Lemma normalizeVector_unit_norm_witness :
  degenerate [3%float; 4%float] = false /\
  (Rabs (Q2R (Float64.exactSumOfSquares (normalizeVector [3%float; 4%float])) - 1)
   <= (INR 2 + 5) / 2 ^ 51)%R.
Proof.
  apply (proj1 (proj2 normalizeVector_unit_norm) [3%float; 4%float]).
  - repeat constructor.
  - vm_compute. discriminate.
  - intros Hz. inversion Hz as [|x l Hx Hl]. vm_compute in Hx. discriminate.
Defined.

(** C2 fails as stated, and not by rounding alone.  The vector
    [1.35 * 2^-537, 0] has a magnitude that is finite and not zero, but the
    square of its first component underflows: it is rounded to 2^-1073,
    the magnitude comes out too large, and the squares of the components
    of the result add up to 0.91, both as the program would add them up
    and without rounding. *)
Lemma normalizeVector_sum_of_squares_not_1 :
  degenerate [0x1.59843e8c86a09p-537%float; 0%float] = false /\
  PrimFloat.is_finite (magnitudeOf [0x1.59843e8c86a09p-537%float; 0%float]) = true /\
  sumOfSquares [0x1.59843e8c86a09p-537%float; 0%float] = 0x1p-1073%float /\
  length (normalizeVector [0x1.59843e8c86a09p-537%float; 0%float]) = 2%nat /\
  PrimFloat.ltb (sumOfSquares (normalizeVector [0x1.59843e8c86a09p-537%float; 0%float]))
                0x1.ep-1%float = true /\
  QArith_base.Qle_bool
    (Float64.exactSumOfSquares (normalizeVector [0x1.59843e8c86a09p-537%float; 0%float]))
    (QArith_base.Qmake 15 16) = true.
Proof. repeat split; vm_compute; reflexivity. Qed.

(** C8, as the code has it.  In exact arithmetic the normalizer is
    idempotent.  In binary64 it is idempotent on every vector whose
    magnitude is 0 or not finite, where its result is the all-zero
    vector, and the all-zero vector of any length is a fixed point. *)
Theorem normalizeVector_idempotent :
  (forall v : list R, normalizeVector (normalizeVector v) = normalizeVector v) /\
  (forall v : list float,
      degenerate v = true ->
      normalizeVector (normalizeVector v) = normalizeVector v) /\
  (forall n : nat, normalizeVector (repeat 0%float n) = repeat 0%float n).
Proof.
  split; [exact ExactFacts.normalize_twice|].
  assert (Hzeros : forall n, normalizeVector (repeat 0%float n) = repeat 0%float n).
  { intros n.
    assert (Hz : allZero (repeat 0%float n)).
    { induction n; simpl; constructor; [reflexivity | assumption]. }
    rewrite (ZeroVectors.normalizeVector_allZero Hz).
    rewrite NormalizerFacts.zeros_repeat. now rewrite repeat_length. }
  split; [|exact Hzeros].
  intros v Hd.
  rewrite (proj1 (NormalizerFacts.normalizeVector_cases v) Hd). apply Hzeros.
Qed.

Lemma normalizeVector_idempotent_witness :
  degenerate [0%float; (-0)%float; 0%float] = true /\
  normalizeVector (normalizeVector [0%float; (-0)%float; 0%float]) =
  normalizeVector [0%float; (-0)%float; 0%float].
Proof.
  assert (Hd : degenerate [0%float; (-0)%float; 0%float] = true) by (vm_compute; reflexivity).
  split; [exact Hd|].
  exact (proj1 (proj2 normalizeVector_idempotent) [0%float; (-0)%float; 0%float] Hd).
Defined.

(** C8 fails as stated: normalizing [1, 2] twice changes the last bit of
    both components. *)
Lemma normalizeVector_twice_differs :
  normalizeVector [1%float; 2%float] =
    [0x1.c9f25c5bfedd9p-2%float; 0x1.c9f25c5bfedd9p-1%float] /\
  normalizeVector (normalizeVector [1%float; 2%float]) =
    [0x1.c9f25c5bfeddap-2%float; 0x1.c9f25c5bfeddap-1%float] /\
  normalizeVector (normalizeVector [1%float; 2%float]) <> normalizeVector [1%float; 2%float].
Proof.
  repeat split; try (vm_compute; reflexivity).
  intros E.
  apply (f_equal (fun l => match l with x :: _ => PrimFloat.eqb x 0x1.c9f25c5bfedd9p-2%float
                                   | [] => true end)) in E.
  vm_compute in E. discriminate E.
Qed.

(* ================================================================== *)
(** * Cosine similarity and scores *)
(* ================================================================== *)

Module CosineFacts.

Local Open Scope R_scope.
Import ExactFacts.







(** In exact arithmetic the ranking is descending throughout: every
    result scores at least as much as every later one. *)
Lemma exact_ranking_descending
    (data : list Z) (catalog : list (CatalogEmbedding R)) (K : nat) :
  StronglySorted (fun x y => similarity y <= similarity x)
                 (findSimilarProducts data catalog K).
Proof.
  apply Sorted_StronglySorted.
  - intros x y z Hxy Hyz. eapply Rle_trans; eassumption.
  - rewrite findSimilarProducts_unfold. apply Sorted_firstn.
    apply Sorted_weaken with (R := inOrder bySimilarityDesc).
    + intros x y Hxy. unfold inOrder, bySimilarityDesc in Hxy. at_reals.
      apply ltb_false in Hxy. now apply Rminus_le.
    + apply Array_sort_sorted. intros x y Hxy.
      unfold bySimilarityDesc in *. at_reals.
      apply ltb_false. apply ltb_lt in Hxy.
      generalize dependent (similarity x). generalize dependent (similarity y).
      intros a b Hab. lra.
Qed.

End CosineFacts.




(* ================================================================== *)
(** * The URL normalizer *)
(* ================================================================== *)

Local Open Scope list_scope.

Module ParamsFacts.

Import URLSearchParams.

Lemma get_In (params : t) (name value : string) :
  get params name = Some value -> In (name, value) params.
Proof.
  induction params as [|[k v] rest IH]; simpl; [discriminate|].
  destruct (String.eqb_spec k name) as [-> | Hne].
  - intros [= ->]. now left.
  - intros Hget. right. now apply IH.
Qed.

Lemma has_app (p q : t) (name : string) :
  has (p ++ q) name = has p name || has q name.
Proof. unfold has. apply existsb_app. Qed.

Lemma get_app (p q : t) (name value : string) :
  get p name = Some value -> get (p ++ q) name = Some value.
Proof.
  induction p as [|[k v] rest IH]; simpl; [discriminate|].
  destruct (String.eqb k name); [trivial | exact IH].
Qed.

(** [set] appends when the name is new. *)
Lemma set_absent (params : t) (name value : string) :
  has params name = false -> set params name value = params ++ [(name, value)].
Proof.
  induction params as [|[k v] rest IH]; simpl; [reflexivity|].
  destruct (String.eqb k name); simpl; [discriminate|].
  intros Hrest. now rewrite IH.
Qed.

Lemma ensureParam_app (name value : string) (params : t) :
  ensureParam name value params =
  params ++ (if has params name then [] else [(name, value)]).
Proof.
  unfold ensureParam. destruct (has params name) eqn:E; simpl.
  - now rewrite app_nil_r.
  - now apply set_absent.
Qed.

(** The Unsplash branch appends the defaults that are missing, in the
    order auto, fit, fm, and touches nothing else. *)
Lemma ensureFormatParams_app (params : t) :
  ensureFormatParams params = params ++ missingDefaults params.
Proof.
  unfold ensureFormatParams, missingDefaults, formatDefaults.
  rewrite !ensureParam_app, !has_app. cbn [filter fst].
  destruct (has params "auto"), (has params "fit"), (has params "fm");
    cbn; rewrite <- ?app_assoc; reflexivity.
Qed.

Lemma ensureFormatParams_has (params : t) :
  has (ensureFormatParams params) "auto" = true /\
  has (ensureFormatParams params) "fit" = true /\
  has (ensureFormatParams params) "fm" = true.
Proof.
  rewrite ensureFormatParams_app, !has_app.
  unfold missingDefaults, formatDefaults. cbn [filter fst].
  destruct (has params "auto"), (has params "fit"), (has params "fm");
    cbn; repeat split; reflexivity.
Qed.

End ParamsFacts.

Section NormalizerUrlFacts.

Context `{UrlPlatform}.

Lemma normalizeImageUrlWithin_mono (depth : nat) (rawUrl result : string) :
  normalizeImageUrlWithin depth rawUrl = Some result ->
  forall depth', (depth <= depth')%nat ->
  normalizeImageUrlWithin depth' rawUrl = Some result.
Proof.
  revert rawUrl. induction depth as [|depth IH]; intros rawUrl Hres depth' Hle;
    [discriminate|].
  destruct depth' as [|depth']; [lia|].
  simpl in *. destruct (URL_parse rawUrl) as [parsed|]; [|exact Hres].
  destruct (includes (hostname parsed) "google." && includes (pathname parsed) "/imgres");
    [|exact Hres].
  destruct (URLSearchParams.get (searchParams parsed) "imgurl") as [actual|]; [|exact Hres].
  destruct (truthy actual); [|exact Hres].
  apply IH; [exact Hres | lia].
Qed.

Lemma normalizeImageUrlWithin_returns :
  paramsShorter ->
  forall (depth : nat) (rawUrl : string),
    (String.length rawUrl < depth)%nat ->
    exists result, normalizeImageUrlWithin depth rawUrl = Some result.
Proof.
  intros Hshort. induction depth as [|depth IH]; intros rawUrl Hlen; [lia|].
  simpl. destruct (URL_parse rawUrl) as [parsed|] eqn:Hparse; [|eauto].
  destruct (includes (hostname parsed) "google." && includes (pathname parsed) "/imgres");
    [|eauto].
  destruct (URLSearchParams.get (searchParams parsed) "imgurl") as [actual|] eqn:Hget;
    [|eauto].
  destruct (truthy actual); [|eauto].
  apply IH.
  apply ParamsFacts.get_In in Hget.
  specialize (Hshort rawUrl parsed "imgurl" actual Hparse Hget). lia.
Qed.

End NormalizerUrlFacts.

(** C9. For every string that parses as a URL whose host is
    images.unsplash.com, [normalizeImageUrl] returns the serialization of
    that URL with new query parameters and no other change: the new
    parameters have auto, fit and fm; they are the old ones followed by
    the defaults auto=format, fit=crop, fm=jpg of exactly the names that
    were missing; and every parameter that was present keeps its value. *)
Theorem normalizeImageUrl_unsplash `{UrlPlatform} (rawUrl : string) (parsed : URL) :
  URL_parse rawUrl = Some parsed ->
  hostname parsed = "images.unsplash.com" ->
  let params := searchParams parsed in
  let params' := ensureFormatParams params in
  normalizeImageUrl rawUrl = Some (URL_toString (withSearchParams parsed params')) /\
  URLSearchParams.has params' "auto" = true /\
  URLSearchParams.has params' "fit" = true /\
  URLSearchParams.has params' "fm" = true /\
  params' = params ++ missingDefaults params /\
  (forall name value,
      URLSearchParams.get params name = Some value ->
      URLSearchParams.get params' name = Some value).
Proof.
  intros Hparse Hhost params params'.
  split; [|split; [|split; [|split; [|split]]]];
    try apply ParamsFacts.ensureFormatParams_has;
    try apply ParamsFacts.ensureFormatParams_app.
  - unfold normalizeImageUrl. simpl. rewrite Hparse.
    unfold normalizeDirect. rewrite Hhost. reflexivity.
  - intros name value Hget. subst params'.
    rewrite ParamsFacts.ensureFormatParams_app. now apply ParamsFacts.get_app.
Qed.

(** C10. When the values of the query parameters of a parsed URL are
    shorter than the string that was parsed, [normalizeImageUrl] returns
    on every string: the recursion, which is entered only with the value
    of imgurl, is at most as deep as the string is long, and any larger
    bound on the depth gives the same result. *)
Theorem normalizeImageUrl_terminates `{UrlPlatform} :
  paramsShorter ->
  forall rawUrl : string,
  exists result : string,
    normalizeImageUrl rawUrl = Some result /\
    forall depth, (String.length rawUrl < depth)%nat ->
                  normalizeImageUrlWithin depth rawUrl = Some result.
Proof.
  intros Hshort rawUrl.
  destruct (normalizeImageUrlWithin_returns Hshort (depth := S (String.length rawUrl)) rawUrl)
    as [result Hres]; [lia|].
  exists result. split; [exact Hres|].
  intros depth Hlen. apply (@normalizeImageUrlWithin_mono _ _ _ _ Hres). lia.
Qed.

Module SamplePlatformFacts.

Import Samples.

Lemma lookupUrl_In (table : list (string * URL)) (s : string) (u : URL) :
  lookupUrl table s = Some u -> In (s, u) table.
Proof.
  induction table as [|[k u'] rest IH]; simpl; [discriminate|].
  destruct (String.eqb_spec k s) as [-> | Hne].
  - intros [= ->]. now left.
  - intros Hl. right. now apply IH.
Qed.

(** The example parser keeps the promise of the platform about lengths. *)
Lemma platform_paramsShorter : paramsShorter.
Proof.
  intros s u k v Hparse Hin.
  apply lookupUrl_In in Hparse.
  assert (Hall : forallb (fun entry =>
                   forallb (fun kv => (String.length (snd kv) <? String.length (fst entry))%nat)
                           (searchParams (snd entry))) knownUrls = true)
    by (vm_compute; reflexivity).
  rewrite forallb_forall in Hall. specialize (Hall _ Hparse). simpl in Hall.
  rewrite forallb_forall in Hall. specialize (Hall _ Hin). simpl in Hall.
  now apply Nat.ltb_lt.
Qed.

End SamplePlatformFacts.

Lemma normalizeImageUrl_unsplash_witness :
  normalizeImageUrl (H := Samples.platform)
    "https://images.unsplash.com/photo-1?fit=max&w=400" =
  Some "https://images.unsplash.com/photo-1?fit=max&w=400&auto=format&fm=jpg".
Proof.
  exact (proj1 (@normalizeImageUrl_unsplash Samples.platform
                  "https://images.unsplash.com/photo-1?fit=max&w=400"
                  (Samples.url "https:" "images.unsplash.com" "" "/photo-1"
                               [("fit", "max"); ("w", "400")])
                  eq_refl eq_refl)).
Defined.

Lemma normalizeImageUrl_terminates_witness :
  exists result : string,
    normalizeImageUrl (H := Samples.platform)
      "https://www.google.com/imgres?imgurl=https://images.unsplash.com/photo-1&h=2" =
    Some result /\
    forall depth,
      (String.length
         "https://www.google.com/imgres?imgurl=https://images.unsplash.com/photo-1&h=2"
       < depth)%nat ->
      normalizeImageUrlWithin (H := Samples.platform) depth
        "https://www.google.com/imgres?imgurl=https://images.unsplash.com/photo-1&h=2" =
      Some result.
Proof.
  exact (@normalizeImageUrl_terminates Samples.platform
           SamplePlatformFacts.platform_paramsShorter
           "https://www.google.com/imgres?imgurl=https://images.unsplash.com/photo-1&h=2").
Defined.

(** The wrapper URL of the examples is unwrapped in one recursive call. *)
Example normalizeImageUrl_unwraps :
  normalizeImageUrl (H := Samples.platform)
    "https://www.google.com/imgres?imgurl=https://images.unsplash.com/photo-1&h=2" =
  Some "https://images.unsplash.com/photo-1?auto=format&fit=crop&fm=jpg".
Proof. vm_compute. reflexivity. Qed.

(* ================================================================== *)
(** * The image proxy *)
(* ================================================================== *)

Section RouteFacts.

Context `{UrlPlatform} `{Network}.

Lemma truthy_true (s : string) : truthy s = true <-> s <> "".
Proof.
  unfold truthy. destruct (String.eqb_spec s ""); simpl; split; congruence.
Qed.

Lemma allowed_protocol (p : string) :
  Set_has ALLOWED_PROTOCOLS p = true <-> p = "http:" \/ p = "https:".
Proof.
  unfold Set_has, ALLOWED_PROTOCOLS. simpl.
  destruct (String.eqb_spec p "http:"), (String.eqb_spec p "https:"); simpl;
    split; intros; try tauto; try discriminate.
Qed.

Lemma disallowed_protocol (p : string) :
  Set_has ALLOWED_PROTOCOLS p = false <-> p <> "http:" /\ p <> "https:".
Proof.
  destruct (Set_has ALLOWED_PROTOCOLS p) eqn:E.
  - apply allowed_protocol in E. split; [discriminate | tauto].
  - split; [|reflexivity]. intros _.
    split; intros ->; vm_compute in E; discriminate.
Qed.

(** With a parser that keeps its promise about lengths the handler
    always completes: it returns a response, or throws when the URL of
    the request itself does not parse. *)
Lemma GET_finishes (request_url : string) :
  paramsShorter -> completion (GET request_url) <> Unfinished.
Proof.
  intros Hshort. unfold GET.
  destruct (URL_parse request_url) as [requestUrl|]; [|discriminate].
  destruct (URLSearchParams.get (searchParams requestUrl) "url") as [target|];
    [|discriminate].
  destruct (truthy target); [|discriminate]. cbn [negb].
  destruct (@normalizeImageUrlWithin_returns _ Hshort (S (String.length target)) target)
    as [normalized Hn]; [lia|].
  unfold normalizeImageUrl. rewrite Hn.
  destruct (URL_parse normalized) as [parsedUrl|]; [|discriminate].
  destruct (Set_has ALLOWED_PROTOCOLS (protocol parsedUrl)); [|discriminate].
  cbn [negb]. unfold fetchAndRelay. cbn [completion].
  destruct (fetch (upstreamCall parsedUrl)) as [upstream|]; [|discriminate].
  destruct (if ok upstream then upstream_body upstream else None); [discriminate|].
  destruct (NextResponse_json _ _); discriminate.
Qed.

Lemma GET_passes (request_url : string) (parsedUrl : URL) :
  passesValidation request_url parsedUrl -> GET request_url = fetchAndRelay parsedUrl.
Proof.
  intros [requestUrl [target [normalized [Hreq [Hget [Hne [Hnorm [Hparse Hproto]]]]]]]].
  unfold GET. rewrite Hreq, Hget.
  rewrite (proj2 (truthy_true target) Hne). cbn [negb].
  rewrite Hnorm, Hparse, Hproto. reflexivity.
Qed.

End RouteFacts.

(** C6, as the code has it.  When the url parameter is absent or empty
    the proxy answers 400 "Missing url query parameter"; else, when the
    normalized parameter does not parse as a URL, 400 "Invalid URL
    supplied"; else, when the protocol is neither http: nor https:, 400
    "Only http and https protocols are allowed".  None of these three
    answers comes with an outbound request; a request that passes all
    three checks makes exactly one. *)
Theorem GET_validates_before_fetching
    `{UrlPlatform} `{Network} (request_url : string) (requestUrl : URL) :
  URL_parse request_url = Some requestUrl ->
  let target := URLSearchParams.get (searchParams requestUrl) "url" in
  (target = None \/ target = Some "" ->
   GET request_url = rejected 400 "Missing url query parameter") /\
  (forall t normalized : string,
      target = Some t -> t <> "" -> normalizeImageUrl t = Some normalized ->
      (URL_parse normalized = None ->
       GET request_url = rejected 400 "Invalid URL supplied") /\
      (forall parsedUrl : URL,
          URL_parse normalized = Some parsedUrl ->
          (protocol parsedUrl <> "http:" /\ protocol parsedUrl <> "https:" ->
           GET request_url = rejected 400 "Only http and https protocols are allowed") /\
          (protocol parsedUrl = "http:" \/ protocol parsedUrl = "https:" ->
           fetched (GET request_url) = [upstreamCall parsedUrl]))).
Proof.
  intros Hreq target. subst target. unfold GET. rewrite Hreq. split.
  - intros [-> | ->]; reflexivity.
  - intros t normalized -> Hne Hnorm.
    rewrite (proj2 (truthy_true t) Hne). cbn [negb]. rewrite Hnorm. split.
    + intros ->. reflexivity.
    + intros parsedUrl ->. split.
      * intros Hp. apply disallowed_protocol in Hp. rewrite Hp. reflexivity.
      * intros Hp. apply allowed_protocol in Hp. rewrite Hp. reflexivity.
Qed.

Lemma GET_validates_before_fetching_witness :
  GET (H := Samples.platform) (H0 := Samples.network)
      "http://localhost:3000/api/image-proxy?url=ftp://example.com/a.png" =
  rejected 400 "Only http and https protocols are allowed".
Proof.
  refine (proj1 (proj2 (proj2 (@GET_validates_before_fetching
            Samples.platform Samples.network
            "http://localhost:3000/api/image-proxy?url=ftp://example.com/a.png"
            (snd (Samples.proxyUrl "?url=ftp://example.com/a.png"
                    [("url", "ftp://example.com/a.png")]))
            eq_refl)
          "ftp://example.com/a.png" "ftp://example.com/a.png" eq_refl _ eq_refl)
          (Samples.url "ftp:" "example.com" "" "/a.png" []) eq_refl) _).
  - discriminate.
  - split; discriminate.
Defined.

(** C6 fails as stated: with [?url=] the parameter is present, its
    normalization is the empty string, which is not a URL, and yet the
    answer is "Missing url query parameter", not "Invalid URL
    supplied". *)
Lemma GET_empty_url_is_missing :
  URL_parse (UrlPlatform := Samples.platform) "http://localhost:3000/api/image-proxy?url=" =
    Some (snd (Samples.proxyUrl "?url=" [("url", "")])) /\
  URLSearchParams.has [("url", "")] "url" = true /\
  URLSearchParams.get [("url", "")] "url" = Some "" /\
  normalizeImageUrl (H := Samples.platform) "" = Some "" /\
  URL_parse (UrlPlatform := Samples.platform) "" = None /\
  GET (H := Samples.platform) (H0 := Samples.network)
      "http://localhost:3000/api/image-proxy?url=" =
    rejected 400 "Missing url query parameter" /\
  rejected 400 "Missing url query parameter" <> rejected 400 "Invalid URL supplied".
Proof.
  repeat split; try (vm_compute; reflexivity).
  discriminate.
Qed.

Section UpstreamFacts.

Context `{UrlPlatform} `{Network}.

(** The upstream response is not usable: not ok, or without a body. *)
Lemma unusable_upstream (upstream : UpstreamResponse) :
  ok upstream = false \/ upstream_body upstream = None ->
  (if ok upstream then upstream_body upstream else None) = None.
Proof. intros [-> | Hb]; [reflexivity | now destruct (ok upstream)]. Qed.

Lemma fetchAndRelay_failure (parsedUrl : URL) (upstream : UpstreamResponse) :
  fetch (upstreamCall parsedUrl) = Some upstream ->
  ok upstream = false \/ upstream_body upstream = None ->
  completion (fetchAndRelay parsedUrl) =
  orProxyFailure
    (NextResponse_json "Failed to fetch remote image"
       (if (upstream_status upstream =? 0)%Z then 502%Z else upstream_status upstream)).
Proof.
  intros Hfetch Hbad. unfold fetchAndRelay. cbn [completion].
  rewrite Hfetch, (unusable_upstream _ Hbad). reflexivity.
Qed.

End UpstreamFacts.

(** C7, as the code has it.  For a request that passes validation and
    whose upstream response has a status outside 200..299 or no body, the
    proxy answers with body { "error": "Failed to fetch remote image" }
    and with the status of the upstream response, 502 standing in for a
    status of 0; a status that a response with a body cannot carry gives
    the answer of the [catch] instead.  When the fetch itself fails the
    proxy answers 502 with { "error": "Unexpected proxy failure" }.  One
    outbound request is made in each case. *)
Theorem GET_upstream_failure
    `{UrlPlatform} `{Network} (request_url : string) (parsedUrl : URL) :
  passesValidation request_url parsedUrl ->
  (forall upstream : UpstreamResponse,
      fetch (upstreamCall parsedUrl) = Some upstream ->
      ok upstream = false \/ upstream_body upstream = None ->
      let status := if (upstream_status upstream =? 0)%Z then 502%Z
                    else upstream_status upstream in
      completion (GET request_url) =
      Returned (if statusAllowsBody status
                then errorResponse status "Failed to fetch remote image"
                else errorResponse 502 "Unexpected proxy failure")) /\
  (fetch (upstreamCall parsedUrl) = None ->
   completion (GET request_url) =
   Returned (errorResponse 502 "Unexpected proxy failure")) /\
  fetched (GET request_url) = [upstreamCall parsedUrl].
Proof.
  intros Hpass. rewrite (GET_passes Hpass). split; [|split].
  - intros upstream Hfetch Hbad status.
    rewrite (fetchAndRelay_failure _ Hfetch Hbad). fold status.
    unfold NextResponse_json. destruct (statusAllowsBody status); reflexivity.
  - intros Hfetch. unfold fetchAndRelay. cbn [completion]. rewrite Hfetch. reflexivity.
  - reflexivity.
Qed.

Module ProxyExamples.

Import Samples.

Lemma missing_passesValidation : passesValidation missingRequest missingImage.
Proof.
  exists (snd (proxyUrl "?url=https://example.com/missing.png"
                 [("url", "https://example.com/missing.png")])),
         "https://example.com/missing.png", "https://example.com/missing.png".
  repeat split; try (vm_compute; reflexivity). discriminate.
Qed.

End ProxyExamples.

Lemma GET_upstream_failure_witness :
  completion (GET (H := Samples.platform) (H0 := Samples.network)
                  Samples.missingRequest) =
  Returned (errorResponse 404 "Failed to fetch remote image").
Proof.
  exact (proj1 (@GET_upstream_failure Samples.platform Samples.network
                  Samples.missingRequest Samples.missingImage
                  ProxyExamples.missing_passesValidation)
               {| upstream_status := 404; content_type := Some "text/plain";
                  content_length := None; upstream_body := Some "Not Found" |}
               eq_refl (or_introl eq_refl)).
Defined.

(** C7 fails as stated: the request passes validation, the upstream
    answers 404, and the proxy answers 404, not 502. *)
Lemma GET_relays_upstream_status :
  passesValidation (H := Samples.platform)
    Samples.missingRequest Samples.missingImage /\
  (exists upstream,
      fetch (Network := Samples.network)
            (upstreamCall (H := Samples.platform) Samples.missingImage) = Some upstream /\
      upstream_status upstream = 404%Z /\ ok upstream = false) /\
  completion (GET (H := Samples.platform) (H0 := Samples.network)
                  Samples.missingRequest) =
    Returned (errorResponse 404 "Failed to fetch remote image") /\
  errorResponse 404 "Failed to fetch remote image" <>
    errorResponse 502 "Failed to fetch remote image".
Proof.
  split; [exact ProxyExamples.missing_passesValidation|].
  split; [eexists; repeat split; vm_compute; reflexivity|].
  split; [vm_compute; reflexivity | discriminate].
Qed.

(** A request for an image that exists is relayed with status 200, the
    two upstream headers and the two headers of the proxy. *)
Example GET_relays_image :
  completion (GET (H := Samples.platform) (H0 := Samples.network)
                  "http://localhost:3000/api/image-proxy?url=https://example.com/a.png") =
  Returned {| status := 200;
              headers := [ ("Content-Type", "image/png"); ("Content-Length", "3");
                           ("Cache-Control", "public, max-age=60");
                           ("Access-Control-Allow-Origin", "*") ];
              body := Stream "PNG" |}.
Proof. vm_compute. reflexivity. Qed.

(* ================================================================== *)
(** * More about the similarity pipeline *)
(* ================================================================== *)

Module Float64Algebra.

Lemma SFmul_comm (x y : spec_float) : SFmul prec emax x y = SFmul prec emax y x.
Proof.
  destruct x as [sx|sx| |sx mx ex], y as [sy|sy| |sy my ey]; cbn;
    rewrite ?(xorb_comm sx sy); try reflexivity.
  now rewrite (Pos.mul_comm mx my), (Z.add_comm ex ey).
Qed.

(** Multiplication of binary64 numbers is commutative, bit for bit. *)
Lemma mul_comm (x y : float) : PrimFloat.mul x y = PrimFloat.mul y x.
Proof.
  rewrite <- (SF2Prim_Prim2SF (PrimFloat.mul x y)), <- (SF2Prim_Prim2SF (PrimFloat.mul y x)).
  rewrite !FloatAxioms.mul_spec. unfold SF64mul. now rewrite SFmul_comm.
Qed.

End Float64Algebra.

Section CosineStructure.

Context {num : Type} `{JsNumber num}.

(** The loop reads the two vectors only up to the shorter length. *)
Lemma cosineLoop_prefix (a b : list num) (acc : num * num * num) :
  cosineLoop a b acc =
  cosineLoop (firstn (Nat.min (length a) (length b)) a)
             (firstn (Nat.min (length a) (length b)) b) acc.
Proof.
  revert b acc. induction a as [|x a IH]; intros b acc; [reflexivity|].
  destruct b as [|y b]; [reflexivity|].
  cbn [length Nat.min firstn cosineLoop]. destruct acc as [[dot magA] magB].
  apply IH.
Qed.

End CosineStructure.

Lemma cosineLoop_swap (a b : list float) (dot magA magB : float) :
  cosineLoop b a (dot, magB, magA) =
  (let '(dot', magA', magB') := cosineLoop a b (dot, magA, magB) in (dot', magB', magA')).
Proof.
  revert b dot magA magB. induction a as [|x a IH]; intros b dot magA magB.
  - destruct b; reflexivity.
  - destruct b as [|y b]; [reflexivity|].
    cbn [cosineLoop]. rewrite <- IH.
    cbn [add mul float_number]. now rewrite (Float64Algebra.mul_comm y x).
Qed.

(** X1. Cosine similarity is symmetric on binary64, bit for bit and for
    all vectors, of equal length or not, degenerate or not. *)
Theorem cosineSimilarity_symmetric (a b : list float) :
  cosineSimilarity a b = cosineSimilarity b a.
Proof.
  unfold cosineSimilarity.
  rewrite (cosineLoop_swap a b).
  destruct (cosineLoop a b _) as [[dot magA] magB].
  rewrite orb_comm. cbn [mul float_number].
  now rewrite (Float64Algebra.mul_comm magB magA).
Qed.

(** X2. Cosine similarity reads its arguments only up to the shorter of
    the two lengths: components beyond it, whatever they are, do not
    change the result. *)
Theorem cosineSimilarity_shared_prefix {num : Type} `{JsNumber num} (a b : list num) :
  cosineSimilarity a b =
  cosineSimilarity (firstn (Nat.min (length a) (length b)) a)
                   (firstn (Nat.min (length a) (length b)) b).
Proof. unfold cosineSimilarity. now rewrite <- cosineLoop_prefix. Qed.

Section EmbeddingStructure.

Context {num : Type} `{JsNumber num}.

Lemma getImageEmbedding_length (data : list Z) : length (getImageEmbedding data) = 6%nat.
Proof. unfold getImageEmbedding. now rewrite NormalizerFacts.normalizeVector_length. Qed.

End EmbeddingStructure.

(** X3. The embedding has six components for every buffer, and it is a
    function of the red, green and blue bytes alone: two buffers with the
    same pixels, whatever their alpha bytes, have the same embedding. *)
Theorem getImageEmbedding_ignores_alpha {num : Type} `{JsNumber num} (data data' : list Z) :
  EmbeddingSpec.pixelsOf data = EmbeddingSpec.pixelsOf data' ->
  getImageEmbedding data = getImageEmbedding data' /\
  length (getImageEmbedding data) = 6%nat.
Proof.
  intros Hpx. split; [|apply getImageEmbedding_length].
  rewrite !getImageEmbedding_totals. cbv zeta. now rewrite Hpx.
Qed.

Lemma getImageEmbedding_ignores_alpha_witness :
  getImageEmbedding (num := float) [10; 20; 30; 255; 40; 50; 60; 255]%Z =
  getImageEmbedding (num := float) [10; 20; 30; 0; 40; 50; 60; 128]%Z.
Proof.
  exact (proj1 (@getImageEmbedding_ignores_alpha float _
                  [10; 20; 30; 255; 40; 50; 60; 255]%Z
                  [10; 20; 30; 0; 40; 50; 60; 128]%Z eq_refl)).
Defined.

Module BlackImage.

Import EmbeddingSpec.
Local Open Scope float_scope.

Lemma total_zeros {A : Type} (l : list A) : total (map (fun _ => 0) l) = 0.
Proof.
  unfold total. cbn [of_int float_number Float64.of_int]. unfold PrimFloat.zero.
  induction l as [|x l IH]; [reflexivity|]. simpl. exact IH.
Qed.

Lemma total_black (f : Z * Z * Z -> float) (data : list Z) :
  f (0, 0, 0)%Z = 0 -> blackBuffer data -> total (map f (pixelsOf data)) = 0.
Proof.
  intros Hf Hb. rewrite <- (total_zeros (pixelsOf data)). f_equal.
  apply map_ext_in. intros p Hp.
  unfold blackBuffer in Hb. rewrite Forall_forall in Hb. now rewrite (Hb p Hp).
Qed.

Lemma embedding_black (data : list Z) :
  blackBuffer data -> getImageEmbedding data = repeat 0 6.
Proof.
  intros Hb. rewrite getImageEmbedding_totals. cbv zeta.
  rewrite !total_black by (assumption || (vm_compute; reflexivity)).
  vm_compute. reflexivity.
Qed.

End BlackImage.

Lemma scoreOf_zero_query (imageEmbedding : list float) (entry : CatalogEmbedding float) :
  allZero imageEmbedding -> scoreOf imageEmbedding entry = 0%float.
Proof.
  intros Hz. unfold scoreOf.
  rewrite ZeroVectors.cosineSimilarity_zeroMagnitude; [reflexivity|].
  apply ZeroVectors.zeroMagnitude_allZero. now left.
Qed.

(** X4. A black image, of any size and with any alpha, has the all-zero
    embedding, and the ranker gives every catalog entry the score 0 for
    it, whatever the catalog stores. *)
Theorem black_image_scores_zero
    (data : list Z) (catalog : list (CatalogEmbedding float)) (K : nat) :
  blackBuffer data ->
  getImageEmbedding data = repeat 0%float 6 /\
  Forall (fun s => similarity s = 0%float) (findSimilarProducts data catalog K).
Proof.
  intros Hb. split; [now apply BlackImage.embedding_black|].
  apply Forall_forall. intros s Hs.
  destruct (findSimilarProducts_In _ _ _ _ Hs) as [entry [_ [_ ->]]].
  rewrite (BlackImage.embedding_black Hb). apply scoreOf_zero_query.
  repeat constructor.
Qed.

Lemma black_image_scores_zero_witness :
  Forall (fun s => similarity s = 0%float)
         (findSimilarProducts Samples.blackImage Samples.catalog3 2).
Proof.
  refine (proj2 (@black_image_scores_zero Samples.blackImage Samples.catalog3 2 _)).
  apply Forall_forall. intros p Hp.
  assert (Hall : forallb (fun q => match q with (r, g, b) => (r =? 0) && (g =? 0) && (b =? 0) end%Z)
                         (EmbeddingSpec.pixelsOf Samples.blackImage) = true)
    by (vm_compute; reflexivity).
  rewrite forallb_forall in Hall. specialize (Hall p Hp).
  destruct p as [[r g] b].
  apply andb_prop in Hall. destruct Hall as [Hrg Hb'].
  apply andb_prop in Hrg. destruct Hrg as [Hr Hg].
  apply Z.eqb_eq in Hr, Hg, Hb'. now subst.
Defined.

(** X5. The top K is the beginning of every longer ranking: asking for
    fewer results never changes which entries come first, nor their
    scores. *)
Theorem findSimilarProducts_prefix {num : Type} `{JsNumber num}
    (data : list Z) (catalog : list (CatalogEmbedding num)) (K K' : nat) :
  (K <= K')%nat ->
  findSimilarProducts data catalog K = firstn K (findSimilarProducts data catalog K').
Proof.
  intros Hle. rewrite !findSimilarProducts_unfold, firstn_firstn.
  now rewrite Nat.min_l.
Qed.

Lemma findSimilarProducts_prefix_witness :
  findSimilarProducts Samples.redImage Samples.catalog3 1 =
  firstn 1 (findSimilarProducts Samples.redImage Samples.catalog3 3).
Proof.
  apply (@findSimilarProducts_prefix float _ Samples.redImage Samples.catalog3 1 3). lia.
Defined.

Lemma NoDup_map_injective {A B : Type} (f : A -> B) (l : list A) (x y : A) :
  NoDup (map f l) -> In x l -> In y l -> f x = f y -> x = y.
Proof.
  induction l as [|z l IH]; simpl; [tauto|].
  intros Hnd Hx Hy Hf. inversion Hnd as [|? ? Hnotin Hnd']; subst.
  destruct Hx as [-> | Hx], Hy as [-> | Hy]; try reflexivity.
  - exfalso. apply Hnotin. rewrite Hf. now apply in_map.
  - exfalso. apply Hnotin. rewrite <- Hf. now apply in_map.
  - now apply IH.
Qed.

(** X6. In a catalog with distinct identifiers every result carries the
    score of the entry that has its identifier: a score is never attached
    to the identifier of another product. *)
Theorem findSimilarProducts_pairs_score_with_id {num : Type} `{JsNumber num}
    (data : list Z) (catalog : list (CatalogEmbedding num)) (K : nat)
    (s : SimilarityScore num) (entry : CatalogEmbedding num) :
  NoDup (map (@entry_id num) catalog) ->
  In s (findSimilarProducts data catalog K) ->
  In entry catalog -> entry_id entry = score_id s ->
  similarity s = scoreOf (getImageEmbedding data) entry.
Proof.
  intros Hnd Hs Hentry Hid.
  destruct (findSimilarProducts_In _ _ _ _ Hs) as [entry' [Hin' [Hid' ->]]].
  f_equal. apply (NoDup_map_injective _ _ _ _ Hnd Hin' Hentry). congruence.
Qed.

Lemma findSimilarProducts_pairs_score_with_id_witness :
  100%float =
  scoreOf (getImageEmbedding Samples.redImage)
          {| entry_id := 2; embedding := getImageEmbedding Samples.redImage |}.
Proof.
  refine (@findSimilarProducts_pairs_score_with_id float _
            Samples.redImage Samples.catalog3 2
            {| score_id := 2; similarity := 100%float |}
            {| entry_id := 2; embedding := getImageEmbedding Samples.redImage |}
            _ _ _ eq_refl).
  - simpl. repeat constructor; simpl; intuition discriminate.
  - vm_compute. left. reflexivity.
  - right. left. reflexivity.
Defined.

(* ================================================================== *)
(** * More about the URL normalizer *)
(* ================================================================== *)

Module ParamsMore.

Import URLSearchParams.

Lemma get_app_none (p q : t) (name : string) :
  get p name = None -> get (p ++ q) name = get q name.
Proof.
  induction p as [|[k v] rest IH]; simpl; [reflexivity|].
  destruct (String.eqb k name); [discriminate | exact IH].
Qed.

(** The defaults that are added are never named imgurl. *)
Lemma get_imgurl_ensured (params : t) :
  get (ensureFormatParams params) "imgurl" = get params "imgurl".
Proof.
  rewrite ParamsFacts.ensureFormatParams_app.
  destruct (get params "imgurl") as [v|] eqn:E.
  - now apply ParamsFacts.get_app.
  - rewrite get_app_none by exact E. unfold missingDefaults, formatDefaults. cbn [filter fst].
    destruct (has params "auto"), (has params "fit"), (has params "fm"); reflexivity.
Qed.

Lemma ensureParam_present (name value : string) (params : t) :
  has params name = true -> ensureParam name value params = params.
Proof. unfold ensureParam. now intros ->. Qed.

Lemma ensureFormatParams_twice (params : t) :
  ensureFormatParams (ensureFormatParams params) = ensureFormatParams params.
Proof.
  destruct (ParamsFacts.ensureFormatParams_has params) as [Ha [Hf Hm]].
  unfold ensureFormatParams at 1.
  rewrite (@ensureParam_present "auto") by exact Ha.
  rewrite (@ensureParam_present "fit") by exact Hf.
  now rewrite (@ensureParam_present "fm") by exact Hm.
Qed.

End ParamsMore.

Section NormalizerTwice.

Context `{UrlPlatform}.

(** The result of the code after the wrapper check normalizes to itself
    in one call, if the wrapper check fails on [parsed]. *)
Lemma normalizeDirect_fixed (rawUrl : string) (parsed : URL) :
  serializationReparses ->
  URL_parse rawUrl = Some parsed ->
  (includes (hostname parsed) "google." && includes (pathname parsed) "/imgres" = false \/
   URLSearchParams.get (searchParams parsed) "imgurl" = None \/
   URLSearchParams.get (searchParams parsed) "imgurl" = Some "") ->
  normalizeImageUrlWithin 1 (normalizeDirect rawUrl parsed) = Some (normalizeDirect rawUrl parsed).
Proof.
  intros Hre Hparse Hnot.
  assert (Hstep : forall (s : string) (u : URL),
             URL_parse s = Some u ->
             hostname u = hostname parsed -> pathname u = pathname parsed ->
             URLSearchParams.get (searchParams u) "imgurl" =
               URLSearchParams.get (searchParams parsed) "imgurl" ->
             normalizeImageUrlWithin 1 s = Some (normalizeDirect s u)).
  { intros s u Hs Hh Hp Hg. cbn [normalizeImageUrlWithin]. rewrite Hs, Hh, Hp, Hg.
    destruct Hnot as [-> | [-> | ->]]; [reflexivity | |].
    - now destruct (_ && _).
    - now destruct (_ && _). }
  unfold normalizeDirect.
  destruct (includes (hostname parsed) "images.unsplash.com") eqn:Hu.
  - rewrite (Hstep _ _ (Hre _ _ Hparse Hu) eq_refl eq_refl
               (ParamsMore.get_imgurl_ensured (searchParams parsed))).
    unfold normalizeDirect. cbn [hostname withSearchParams searchParams]. rewrite Hu.
    now rewrite ParamsMore.ensureFormatParams_twice.
  - rewrite (Hstep _ _ Hparse eq_refl eq_refl eq_refl).
    unfold normalizeDirect. now rewrite Hu.
Qed.

Lemma normalizeImageUrlWithin_fixed :
  serializationReparses ->
  forall (depth : nat) (rawUrl result : string),
    normalizeImageUrlWithin depth rawUrl = Some result ->
    normalizeImageUrlWithin 1 result = Some result.
Proof.
  intros Hre. induction depth as [|depth IH]; intros rawUrl result Hres; [discriminate|].
  cbn [normalizeImageUrlWithin] in Hres.
  destruct (URL_parse rawUrl) as [parsed|] eqn:Hparse.
  - destruct (includes (hostname parsed) "google." && includes (pathname parsed) "/imgres")
      eqn:Hw.
    + destruct (URLSearchParams.get (searchParams parsed) "imgurl") as [actual|] eqn:Hget.
      * destruct (truthy actual) eqn:Ht.
        -- now apply (IH actual).
        -- injection Hres as <-. apply normalizeDirect_fixed; try assumption.
           right. right. rewrite Hget. f_equal.
           unfold truthy in Ht. destruct (String.eqb_spec actual ""); [assumption|discriminate].
      * injection Hres as <-. apply normalizeDirect_fixed; auto.
    + injection Hres as <-. apply normalizeDirect_fixed; auto.
  - injection Hres as <-. cbn [normalizeImageUrlWithin]. now rewrite Hparse.
Qed.

End NormalizerTwice.

(** X7. Normalization is idempotent: when the serialization of a URL
    parses back to it, the result of [normalizeImageUrl] is left
    unchanged by a second normalization, which needs a single call.  So
    the proxy, which normalizes again what the page has normalized,
    fetches the URL the page computed. *)
Theorem normalizeImageUrl_idempotent `{UrlPlatform} :
  serializationReparses ->
  forall rawUrl result : string,
    normalizeImageUrl rawUrl = Some result ->
    normalizeImageUrl result = Some result /\
    normalizeImageUrlWithin 1 result = Some result.
Proof.
  intros Hre rawUrl result Hres.
  assert (Hone := normalizeImageUrlWithin_fixed Hre _ _ Hres).
  split; [|exact Hone].
  apply (@normalizeImageUrlWithin_mono _ _ _ _ Hone). lia.
Qed.

Module ClosedPlatformFacts.

Import Samples MoreSamples.

Lemma closedPlatform_reparses : serializationReparses (H := closedPlatform).
Proof.
  intros s u Hparse Hu.
  apply SamplePlatformFacts.lookupUrl_In in Hparse.
  unfold closedUrls, knownUrls, proxyUrl in Hparse. simpl in Hparse.
  repeat (destruct Hparse as [Heq | Hparse];
          [injection Heq as <- <-;
           first [ vm_compute in Hu; discriminate Hu | vm_compute; reflexivity ] | ]).
  contradiction.
Qed.

End ClosedPlatformFacts.

Lemma normalizeImageUrl_idempotent_witness :
  normalizeImageUrl (H := MoreSamples.closedPlatform)
    "https://images.unsplash.com/photo-1?fit=max&w=400&auto=format&fm=jpg" =
  Some "https://images.unsplash.com/photo-1?fit=max&w=400&auto=format&fm=jpg".
Proof.
  exact (proj1 (@normalizeImageUrl_idempotent MoreSamples.closedPlatform
                  ClosedPlatformFacts.closedPlatform_reparses
                  "https://images.unsplash.com/photo-1?fit=max&w=400"
                  "https://images.unsplash.com/photo-1?fit=max&w=400&auto=format&fm=jpg"
                  eq_refl)).
Defined.

(** X8. A wrapper link is worth the image inside it: for a URL on a
    google host with /imgres in its path and a non-empty imgurl, the
    result is the normalization of the value of imgurl, under the promise
    of the parser about lengths. *)
Theorem normalizeImageUrl_unwraps_wrapper `{UrlPlatform}
    (rawUrl actualImageUrl : string) (parsed : URL) :
  paramsShorter ->
  URL_parse rawUrl = Some parsed ->
  includes (hostname parsed) "google." = true ->
  includes (pathname parsed) "/imgres" = true ->
  URLSearchParams.get (searchParams parsed) "imgurl" = Some actualImageUrl ->
  actualImageUrl <> "" ->
  normalizeImageUrl rawUrl = normalizeImageUrl actualImageUrl /\
  exists result, normalizeImageUrl actualImageUrl = Some result.
Proof.
  intros Hshort Hparse Hg Hp Hget Hne.
  assert (Hlen : (String.length actualImageUrl < String.length rawUrl)%nat)
    by (apply (Hshort _ _ "imgurl" _ Hparse), ParamsFacts.get_In, Hget).
  destruct (@normalizeImageUrlWithin_returns _ Hshort (S (String.length actualImageUrl))
              actualImageUrl) as [result Hres]; [lia|].
  split; [|exists result; exact Hres].
  unfold normalizeImageUrl at 1. cbn [normalizeImageUrlWithin].
  rewrite Hparse, Hg, Hp, Hget. cbn [andb].
  unfold truthy. destruct (String.eqb_spec actualImageUrl ""); [contradiction|]. cbn [negb].
  unfold normalizeImageUrl. rewrite Hres.
  apply (@normalizeImageUrlWithin_mono _ _ _ _ Hres). lia.
Qed.

Lemma normalizeImageUrl_unwraps_wrapper_witness :
  normalizeImageUrl (H := Samples.platform)
    "https://www.google.com/imgres?imgurl=https://images.unsplash.com/photo-1&h=2" =
  normalizeImageUrl (H := Samples.platform) "https://images.unsplash.com/photo-1".
Proof.
  refine (proj1 (@normalizeImageUrl_unwraps_wrapper Samples.platform
            "https://www.google.com/imgres?imgurl=https://images.unsplash.com/photo-1&h=2"
            "https://images.unsplash.com/photo-1"
            (Samples.url "https:" "www.google.com" "" "/imgres"
               [("imgurl", "https://images.unsplash.com/photo-1"); ("h", "2")])
            SamplePlatformFacts.platform_paramsShorter eq_refl eq_refl eq_refl eq_refl _)).
  discriminate.
Defined.

(* ================================================================== *)
(** * More about the image proxy *)
(* ================================================================== *)

(** X9. The proxy makes at most one outbound request, and only after
    validation: the URL it fetches is the serialization of the parsed,
    normalized parameter, whose protocol is http: or https:, and the
    request follows redirects, bypasses the cache and carries the three
    fixed headers. *)
Theorem GET_fetches_only_validated `{UrlPlatform} `{Network}
    (request_url : string) (call : FetchCall) :
  In call (fetched (GET request_url)) ->
  fetched (GET request_url) = [call] /\
  exists parsedUrl : URL,
    passesValidation request_url parsedUrl /\
    (protocol parsedUrl = "http:" \/ protocol parsedUrl = "https:") /\
    fetch_url call = URL_toString parsedUrl /\
    fetch_redirect call = "follow" /\ fetch_cache call = "no-store" /\
    fetch_headers call = upstreamHeaders.
Proof.
  unfold GET.
  destruct (URL_parse request_url) as [requestUrl|] eqn:Hreq; [|contradiction].
  destruct (URLSearchParams.get (searchParams requestUrl) "url") as [target|] eqn:Hget;
    [|contradiction].
  destruct (truthy target) eqn:Ht; [|contradiction]. cbn [negb].
  destruct (normalizeImageUrl target) as [normalized|] eqn:Hnorm; [|contradiction].
  destruct (URL_parse normalized) as [parsedUrl|] eqn:Hparse; [|contradiction].
  destruct (Set_has ALLOWED_PROTOCOLS (protocol parsedUrl)) eqn:Hp; [|contradiction].
  cbn [negb]. intros [<- | []]. split; [reflexivity|].
  exists parsedUrl. repeat split; try reflexivity.
  - exists requestUrl, target, normalized. repeat split; try assumption.
    now apply truthy_true.
  - now apply allowed_protocol.
Qed.

Lemma GET_fetches_only_validated_witness :
  fetched (GET (H := Samples.platform) (H0 := Samples.network)
               "http://localhost:3000/api/image-proxy?url=https://example.com/a.png") =
  [ upstreamCall (H := Samples.platform) (Samples.url "https:" "example.com" "" "/a.png" []) ].
Proof.
  refine (proj1 (@GET_fetches_only_validated Samples.platform Samples.network
                   "http://localhost:3000/api/image-proxy?url=https://example.com/a.png"
                   (upstreamCall (H := Samples.platform)
                      (Samples.url "https:" "example.com" "" "/a.png" [])) _)).
  vm_compute. left. reflexivity.
Defined.

Lemma headerIfTruthy_In (name : string) (value : option string) (n v : string) :
  In (n, v) (headerIfTruthy name value) -> n = name /\ value = Some v /\ v <> "".
Proof.
  unfold headerIfTruthy. destruct value as [w|]; [|contradiction].
  destruct (truthy w) eqn:Ht; [|contradiction].
  intros [[= <- <-] | []]. repeat split. now apply truthy_true.
Qed.

Lemma headerIfTruthy_passes (name v : string) (value : option string) :
  value = Some v -> v <> "" -> In (name, v) (headerIfTruthy name value).
Proof.
  intros -> Hv. unfold headerIfTruthy.
  rewrite (proj2 (truthy_true v) Hv). now left.
Qed.

(** X10. For a request that passes validation and an upstream response
    with a status in 200..299 and a body, the proxy answers 200, whatever
    the upstream status was, with the upstream body unchanged.  It passes
    on the content-type and the content-length of the upstream response,
    each whenever it is present and non-empty, and no other upstream
    header, and it always adds its own Cache-Control and
    Access-Control-Allow-Origin. *)
Theorem GET_relays_successful_upstream `{UrlPlatform} `{Network}
    (request_url : string) (parsedUrl : URL) (upstream : UpstreamResponse) (stream : string) :
  passesValidation request_url parsedUrl ->
  fetch (upstreamCall parsedUrl) = Some upstream ->
  ok upstream = true ->
  upstream_body upstream = Some stream ->
  exists response : Response,
    completion (GET request_url) = Returned response /\
    status response = 200%Z /\
    body response = Stream stream /\
    In ("Cache-Control", "public, max-age=60") (headers response) /\
    In ("Access-Control-Allow-Origin", "*") (headers response) /\
    (forall n v, In (n, v) (headers response) ->
       (n = "Content-Type" /\ content_type upstream = Some v /\ v <> "") \/
       (n = "Content-Length" /\ content_length upstream = Some v /\ v <> "") \/
       (n, v) = ("Cache-Control", "public, max-age=60") \/
       (n, v) = ("Access-Control-Allow-Origin", "*")) /\
    (forall v, content_type upstream = Some v -> v <> "" ->
               In ("Content-Type", v) (headers response)) /\
    (forall v, content_length upstream = Some v -> v <> "" ->
               In ("Content-Length", v) (headers response)).
Proof.
  intros Hpass Hfetch Hok Hbody. rewrite (GET_passes Hpass).
  unfold fetchAndRelay. cbn [completion]. rewrite Hfetch, Hok, Hbody.
  eexists. split; [reflexivity|]. cbn [status body headers].
  split; [reflexivity|]. split; [reflexivity|].
  split; [apply in_or_app; right; apply in_or_app; right; now left|].
  split; [apply in_or_app; right; apply in_or_app; right; right; now left|].
  split; [|split].
  2: { intros v Hv Hne. apply in_or_app. left. now apply headerIfTruthy_passes. }
  2: { intros v Hv Hne. apply in_or_app. right. apply in_or_app. left.
       now apply headerIfTruthy_passes. }
  intros n v Hin.
  apply in_app_or in Hin. destruct Hin as [Hin | Hin].
  - left. now apply headerIfTruthy_In.
  - apply in_app_or in Hin. destruct Hin as [Hin | Hin].
    + right. left. now apply headerIfTruthy_In.
    + destruct Hin as [<- | [<- | []]]; auto.
Qed.

Lemma GET_relays_successful_upstream_witness :
  exists response : Response,
    completion (GET (H := Samples.platform) (H0 := Samples.network)
                    "http://localhost:3000/api/image-proxy?url=https://example.com/a.png") =
      Returned response /\
    status response = 200%Z /\ body response = Stream "PNG" /\
    In ("Content-Type", "image/png") (headers response) /\
    In ("Content-Length", "3") (headers response).
Proof.
  assert (Hpass : passesValidation (H := Samples.platform)
            "http://localhost:3000/api/image-proxy?url=https://example.com/a.png"
            (Samples.url "https:" "example.com" "" "/a.png" [])).
  { exists (snd (Samples.proxyUrl "?url=https://example.com/a.png"
                   [("url", "https://example.com/a.png")])),
           "https://example.com/a.png", "https://example.com/a.png".
    repeat split; try (vm_compute; reflexivity). discriminate. }
  destruct (@GET_relays_successful_upstream Samples.platform Samples.network _ _
              {| upstream_status := 200; content_type := Some "image/png";
                 content_length := Some "3"; upstream_body := Some "PNG" |} "PNG"
              Hpass eq_refl eq_refl eq_refl)
    as [response [Hc [Hs [Hb [_ [_ [_ [Htype Hlength]]]]]]]].
  exists response. repeat split; try assumption.
  - apply Htype; [reflexivity|discriminate].
  - apply Hlength; [reflexivity|discriminate].
Defined.

Lemma statusAllowsBody_range (status : Z) :
  statusAllowsBody status = true -> (200 <= status <= 599)%Z.
Proof.
  unfold statusAllowsBody. intros Hs.
  apply andb_prop in Hs. destruct Hs as [Hs _].
  apply andb_prop in Hs. destruct Hs as [Hlo Hhi].
  apply Z.leb_le in Hlo, Hhi. lia.
Qed.

(** X11. With a parser that keeps its promise about lengths, every
    request whose own URL parses is answered: the handler does not throw.
    The status of the answer is between 200 and 599.  An answer with the
    upstream body has status 200 and comes after one outbound request; any
    other answer is a JSON error with one of five messages: the three
    validation messages come with status 400 and without any outbound
    request, "Unexpected proxy failure" comes with status 502, and both it
    and "Failed to fetch remote image" come after one outbound request. *)
Theorem GET_always_answers `{UrlPlatform} `{Network}
    (request_url : string) (requestUrl : URL) :
  paramsShorter ->
  URL_parse request_url = Some requestUrl ->
  exists response : Response,
    completion (GET request_url) = Returned response /\
    (200 <= status response <= 599)%Z /\
    match body response with
    | Stream _ => status response = 200%Z /\ length (fetched (GET request_url)) = 1%nat
    | JsonError message =>
        (status response = 400%Z /\ fetched (GET request_url) = [] /\
         (message = "Missing url query parameter" \/
          message = "Invalid URL supplied" \/
          message = "Only http and https protocols are allowed")) \/
        (length (fetched (GET request_url)) = 1%nat /\
         (message = "Failed to fetch remote image" \/
          (message = "Unexpected proxy failure" /\ status response = 502%Z)))
    end.
Proof.
  intros Hshort Hreq. unfold GET. rewrite Hreq.
  destruct (URLSearchParams.get (searchParams requestUrl) "url") as [target|].
  2: { eexists. split; [reflexivity|]. cbn. split; [lia|]. left. auto. }
  destruct (truthy target).
  2: { eexists. split; [reflexivity|]. cbn. split; [lia|]. left. auto. }
  cbn [negb].
  destruct (@normalizeImageUrlWithin_returns _ Hshort (S (String.length target)) target)
    as [normalized Hn]; [lia|].
  unfold normalizeImageUrl. rewrite Hn.
  destruct (URL_parse normalized) as [parsedUrl|].
  2: { eexists. split; [reflexivity|]. cbn. split; [lia|]. left. auto. }
  destruct (Set_has ALLOWED_PROTOCOLS (protocol parsedUrl)).
  2: { eexists. split; [reflexivity|]. cbn. split; [lia|]. left. auto 6. }
  cbn [negb]. unfold fetchAndRelay. cbn [completion fetched length].
  destruct (fetch (upstreamCall parsedUrl)) as [upstream|].
  2: { eexists. split; [reflexivity|]. cbn. split; [lia|]. right. auto. }
  destruct (if ok upstream then upstream_body upstream else None) as [stream|].
  { eexists. split; [reflexivity|]. cbn. split; [lia|]. auto. }
  unfold NextResponse_json.
  destruct (statusAllowsBody _) eqn:Hs.
  - eexists. split; [reflexivity|]. cbn [orProxyFailure errorResponse status body].
    split; [now apply statusAllowsBody_range|]. right. auto.
  - eexists. split; [reflexivity|]. cbn. split; [lia|]. right. auto.
Qed.

Lemma GET_always_answers_witness :
  exists response : Response,
    completion (GET (H := Samples.platform) (H0 := Samples.network)
                    Samples.missingRequest) = Returned response /\
    (200 <= status response <= 599)%Z.
Proof.
  destruct (@GET_always_answers Samples.platform Samples.network
              Samples.missingRequest
              (snd (Samples.proxyUrl "?url=https://example.com/missing.png"
                      [("url", "https://example.com/missing.png")]))
              SamplePlatformFacts.platform_paramsShorter eq_refl)
    as [response [Hc [Hs _]]].
  exists response. auto.
Defined.

(** Two requests whose url parameters normalize alike are answered
    alike. *)
Lemma GET_same_normalization `{UrlPlatform} `{Network}
    (request1 request2 : string) (u1 u2 : URL) (target1 target2 : string) :
  URL_parse request1 = Some u1 -> URL_parse request2 = Some u2 ->
  URLSearchParams.get (searchParams u1) "url" = Some target1 ->
  URLSearchParams.get (searchParams u2) "url" = Some target2 ->
  target1 <> "" -> target2 <> "" ->
  normalizeImageUrl target1 = normalizeImageUrl target2 ->
  GET request1 = GET request2.
Proof.
  intros H1 H2 Hg1 Hg2 Hn1 Hn2 Hnorm. unfold GET.
  rewrite H1, H2, Hg1, Hg2.
  rewrite (proj2 (truthy_true target1) Hn1), (proj2 (truthy_true target2) Hn2).
  cbn [negb]. now rewrite Hnorm.
Qed.

(** X12. The proxy answers a request for a wrapper link exactly as it
    answers a request for the image inside it: the same response and the
    same outbound request. *)
Theorem GET_wrapper_as_inner `{UrlPlatform} `{Network}
    (request1 request2 : string) (u1 u2 : URL)
    (wrapper actualImageUrl : string) (parsed : URL) :
  paramsShorter ->
  URL_parse request1 = Some u1 -> URL_parse request2 = Some u2 ->
  URLSearchParams.get (searchParams u1) "url" = Some wrapper ->
  URLSearchParams.get (searchParams u2) "url" = Some actualImageUrl ->
  URL_parse wrapper = Some parsed ->
  includes (hostname parsed) "google." = true ->
  includes (pathname parsed) "/imgres" = true ->
  URLSearchParams.get (searchParams parsed) "imgurl" = Some actualImageUrl ->
  actualImageUrl <> "" ->
  GET request1 = GET request2.
Proof.
  intros Hshort H1 H2 Hg1 Hg2 Hparse Hg Hp Hget Hne.
  apply (GET_same_normalization _ _ H1 H2 Hg1 Hg2); [|exact Hne|].
  - intros ->. specialize (Hshort _ _ _ _ Hparse (ParamsFacts.get_In _ _ Hget)).
    simpl in Hshort. lia.
  - unfold normalizeImageUrl at 1. cbn [normalizeImageUrlWithin].
    rewrite Hparse, Hg, Hp, Hget. cbn [andb].
    rewrite (proj2 (truthy_true actualImageUrl) Hne).
    destruct (@normalizeImageUrlWithin_returns _ Hshort (S (String.length actualImageUrl))
                actualImageUrl) as [result Hres]; [lia|].
    unfold normalizeImageUrl. rewrite Hres.
    apply (@normalizeImageUrlWithin_mono _ _ _ _ Hres).
    specialize (Hshort _ _ _ _ Hparse (ParamsFacts.get_In _ _ Hget)). lia.
Qed.

Lemma closedPlatform_paramsShorter : paramsShorter (H := MoreSamples.closedPlatform).
Proof.
  intros s u k v Hparse Hin.
  apply SamplePlatformFacts.lookupUrl_In in Hparse.
  assert (Hall : forallb (fun entry =>
                   forallb (fun kv => (String.length (snd kv) <? String.length (fst entry))%nat)
                           (searchParams (snd entry))) MoreSamples.closedUrls = true)
    by (vm_compute; reflexivity).
  rewrite forallb_forall in Hall. specialize (Hall _ Hparse). simpl in Hall.
  rewrite forallb_forall in Hall. specialize (Hall _ Hin). simpl in Hall.
  now apply Nat.ltb_lt.
Qed.

Lemma GET_wrapper_as_inner_witness :
  GET (H := MoreSamples.closedPlatform) (H0 := Samples.network) MoreSamples.wrapperRequest =
  GET (H := MoreSamples.closedPlatform) (H0 := Samples.network) MoreSamples.innerRequest.
Proof.
  refine (@GET_wrapper_as_inner MoreSamples.closedPlatform Samples.network
            MoreSamples.wrapperRequest MoreSamples.innerRequest
            (MoreSamples.proxyRequest [("url", MoreSamples.wrapperLink)])
            (MoreSamples.proxyRequest [("url", "https://images.unsplash.com/photo-1")])
            MoreSamples.wrapperLink "https://images.unsplash.com/photo-1"
            (Samples.url "https:" "www.google.com" "" "/imgres"
               [("imgurl", "https://images.unsplash.com/photo-1"); ("h", "2")])
            closedPlatform_paramsShorter eq_refl eq_refl eq_refl eq_refl eq_refl
            eq_refl eq_refl eq_refl _).
  discriminate.
Defined.

(* ================================================================== *)
(** * The page *)
(* ================================================================== *)

Module Float64Order.

Ltac order_cases :=
  repeat match goal with
         | H : context [Z.compare ?a ?b] |- _ => destruct (Z.compare_spec a b)
         | |- context [Z.compare ?a ?b] => destruct (Z.compare_spec a b)
         | H : context [Pos.compare ?a ?b] |- _ => destruct (Pos.compare_spec a b)
         | |- context [Pos.compare ?a ?b] => destruct (Pos.compare_spec a b)
         end.

Lemma SFleb_trans (x y z : spec_float) :
  SFleb x y = true -> SFleb y z = true -> SFleb x z = true.
Proof.
  unfold SFleb, SFcompare.
  destruct x as [sx|sx| |sx mx ex], y as [sy|sy| |sy my ey], z as [sz|sz| |sz mz ez];
    try discriminate; try reflexivity;
    try (destruct sx; try discriminate; try reflexivity);
    try (destruct sy; try discriminate; try reflexivity);
    try (destruct sz; try discriminate; try reflexivity);
    change (PosDef.Pos.compare_cont Eq) with Pos.compare;
    intros Hxy Hyz; order_cases; cbn in *; subst;
    try discriminate; try reflexivity; try lia.
Qed.

(** [<=] on binary64 is transitive. *)
Lemma leb_trans (x y z : float) :
  PrimFloat.leb x y = true -> PrimFloat.leb y z = true -> PrimFloat.leb x z = true.
Proof. rewrite !FloatAxioms.leb_spec. apply SFleb_trans. Qed.

End Float64Order.

Module MatchFacts.

Import Page.

Lemma push_loop (products : list Product) (l : list (SimilarityScore float))
    (acc : list ProductResult) :
  fold_left
    (fun matches match_ =>
       match find (fun entry => (product_id entry =? score_id match_)%Z) products with
       | Some product =>
           matches ++ [ {| product := product;
                           result_similarity := Math_round (similarity match_) |} ]
       | None => matches
       end) l acc =
  acc ++ flat_map (pushed products) l.
Proof.
  revert acc. induction l as [|x l IH]; intros acc; cbn [fold_left flat_map].
  - now rewrite app_nil_r.
  - rewrite IH. unfold pushed at 2.
    destruct (find _ products); [now rewrite <- app_assoc | reflexivity].
Qed.

(** What the loop of [handleSearch] pushes, result by result. *)
Lemma matchesFor_flat_map (products : list Product) (filterThreshold : float)
    (results : list (SimilarityScore float)) :
  matchesFor products filterThreshold results =
  flat_map (pushed products)
    (filter (fun item => PrimFloat.leb filterThreshold (similarity item)) results).
Proof. unfold matchesFor. cbv zeta. now rewrite push_loop. Qed.

Lemma matchesFor_In (products : list Product) (filterThreshold : float)
    (results : list (SimilarityScore float)) (r : ProductResult) :
  In r (matchesFor products filterThreshold results) <->
  exists s, In s results /\
            PrimFloat.leb filterThreshold (similarity s) = true /\
            find (fun entry => (product_id entry =? score_id s)%Z) products = Some (product r) /\
            result_similarity r = Math_round (similarity s).
Proof.
  rewrite matchesFor_flat_map, in_flat_map. split.
  - intros [s [Hs Hr]]. apply filter_In in Hs. destruct Hs as [Hs Hle].
    exists s. unfold pushed in Hr. destruct (find _ products) as [p|]; [|contradiction].
    destruct Hr as [<- | []]. auto.
  - intros [s [Hs [Hle [Hf Hr]]]]. exists s. split; [now apply filter_In|].
    unfold pushed. rewrite Hf. left. destruct r as [p sim]. cbn in *. now subst.
Qed.

Lemma matchesFor_ids (products : list Product) (filterThreshold : float)
    (results : list (SimilarityScore float)) :
  map (fun r => product_id (product r)) (matchesFor products filterThreshold results) =
  map (@score_id float)
      (filter (fun s => PrimFloat.leb filterThreshold (similarity s) &&
                        existsb (fun entry => (product_id entry =? score_id s)%Z) products)
              results).
Proof.
  rewrite matchesFor_flat_map.
  induction results as [|s results IH]; [reflexivity|].
  cbn [filter]. destruct (PrimFloat.leb filterThreshold (similarity s)); cbn [andb].
  - cbn [flat_map]. rewrite map_app, IH. unfold pushed at 1.
    destruct (find _ products) as [p|] eqn:Hf.
    + assert (He : existsb (fun entry => (product_id entry =? score_id s)%Z) products = true).
      { apply existsb_exists. apply find_some in Hf. now exists p. }
      rewrite He. cbn. f_equal. apply find_some in Hf. now apply Z.eqb_eq.
    + assert (He : existsb (fun entry => (product_id entry =? score_id s)%Z) products = false).
      { apply not_true_is_false. intros He. apply existsb_exists in He.
        destruct He as [p [Hp Hid]]. now rewrite (find_none _ _ Hf p Hp) in Hid. }
      now rewrite He.
  - exact IH.
Qed.

End MatchFacts.

(** X13. A search with an image that can be read and a loaded catalog
    ends with [loading] false and no error, and shows at most ten
    matches.  Their identifiers are those of the ranking, in the order of
    the ranking, without the results below the threshold and without the
    results that have no product; every match is one of [products], with
    the rounded score of the result that has its identifier. *)
Theorem handleSearch_shows_ranking (st : Page.State) (image : Page.Image) (data : list Z) :
  Page.imageElement st = Some image ->
  Page.drawing image = Page.Pixels data ->
  Page.productEmbeddings st <> [] ->
  let ranking := findSimilarProducts data (Page.productEmbeddings st) 10 in
  let shown := Page.similarProducts (Page.handleSearch st) in
  Page.loading (Page.handleSearch st) = false /\
  Page.error (Page.handleSearch st) = None /\
  (length shown <= 10)%nat /\
  map (fun r => Page.product_id (Page.product r)) shown =
    map (@score_id float)
        (filter (fun s => PrimFloat.leb (Page.filterThreshold st) (similarity s) &&
                          existsb (fun entry => (Page.product_id entry =? score_id s)%Z)
                                  (Page.products st))
                ranking) /\
  (forall r, In r shown ->
     In (Page.product r) (Page.products st) /\
     exists s, In s ranking /\ score_id s = Page.product_id (Page.product r) /\
               PrimFloat.leb (Page.filterThreshold st) (similarity s) = true /\
               Page.result_similarity r = Page.Math_round (similarity s)).
Proof.
  intros Himg Hdraw Hcat ranking shown.
  assert (Hrun : Page.handleSearch st =
                 Page.setLoading false
                   (Page.setSimilarProducts
                      (Page.matchesFor (Page.products st) (Page.filterThreshold st) ranking)
                      (Page.setError None (Page.setLoading true st)))).
  { unfold Page.handleSearch. rewrite Himg.
    destruct (Page.productEmbeddings st) eqn:E; [contradiction|].
    cbn [length Nat.eqb]. rewrite Hdraw. cbn. subst ranking. now rewrite E. }
  assert (Hshown : shown =
            Page.matchesFor (Page.products st) (Page.filterThreshold st) ranking)
    by (subst shown; rewrite Hrun; reflexivity).
  rewrite Hrun. split; [reflexivity|]. split; [reflexivity|]. rewrite Hshown.
  assert (Hids := MatchFacts.matchesFor_ids (Page.products st) (Page.filterThreshold st) ranking).
  split; [|split; [exact Hids|]].
  - rewrite <- (length_map (fun r => Page.product_id (Page.product r))), Hids, length_map.
    eapply Nat.le_trans; [apply filter_length_le|].
    subst ranking. rewrite findSimilarProducts_length. apply Nat.le_min_l.
  - intros r Hr. apply MatchFacts.matchesFor_In in Hr.
    destruct Hr as [s [Hs [Hle [Hf Hround]]]].
    apply find_some in Hf. destruct Hf as [Hp Hid]. apply Z.eqb_eq in Hid.
    split; [exact Hp|]. exists s. auto.
Qed.

Lemma handleSearch_shows_ranking_witness :
  map (fun r => Page.product_id (Page.product r))
      (Page.similarProducts (Page.handleSearch PageSamples.searchableState)) = [2%Z; 1%Z].
Proof.
  assert (H := @handleSearch_shows_ranking PageSamples.searchableState
                 {| Page.src := "data:image/png;base64,AAAA";
                    Page.drawing := Page.Pixels Samples.redImage |}
                 Samples.redImage eq_refl eq_refl).
  cbv zeta in H.
  destruct H as [_ [_ [_ [Hids _]]]]; [discriminate|].
  rewrite Hids. vm_compute. reflexivity.
Defined.

(** X14. The threshold only filters: a match that is shown at a
    threshold is shown, with the same product and the same score, at
    every lower threshold. *)
Theorem matchesFor_threshold_monotone
    (products : list Page.Product) (lower higher : float)
    (results : list (SimilarityScore float)) (r : Page.ProductResult) :
  PrimFloat.leb lower higher = true ->
  In r (Page.matchesFor products higher results) ->
  In r (Page.matchesFor products lower results).
Proof.
  intros Hle Hr. apply MatchFacts.matchesFor_In in Hr.
  destruct Hr as [s [Hs [Hhigh [Hf Hround]]]].
  apply MatchFacts.matchesFor_In. exists s.
  repeat split; try assumption.
  exact (Float64Order.leb_trans Hle Hhigh).
Qed.

Lemma matchesFor_threshold_monotone_witness :
  In {| Page.product := PageSamples.sampleProduct 2 "Red" (getImageEmbedding Samples.redImage);
        Page.result_similarity := 100%float |}
     (Page.matchesFor PageSamples.sampleProducts 30%float
        (findSimilarProducts Samples.redImage Samples.catalog3 10)).
Proof.
  refine (@matchesFor_threshold_monotone PageSamples.sampleProducts 30%float 90%float
            (findSimilarProducts Samples.redImage Samples.catalog3 10) _ eq_refl _).
  vm_compute. left. reflexivity.
Defined.

(* ================================================================== *)
(** * The object URLs of the page *)

Module ObjectUrlFacts.

Import Page.

Local Open Scope list_scope.

Lemma remoteLoads_app (loads : list (string * bool)) (source : string) (isRemote : bool) :
  remoteLoads (loads ++ [(source, isRemote)]) =
  remoteLoads loads ++ (if isRemote then [source] else []).
Proof.
  unfold remoteLoads. rewrite filter_app, map_app. cbn. now destruct isRemote.
Qed.

Lemma remoteLoads_ended_local (source : string) (loads : list (string * bool)) :
  remoteLoads (loadEnded (source, false) loads) = remoteLoads loads.
Proof.
  induction loads as [|[s b] rest IH]; [reflexivity|].
  cbn [loadEnded]. unfold sameLoad. cbn [fst snd].
  destruct b; cbn [Bool.eqb].
  - rewrite andb_false_r. unfold remoteLoads in *. cbn. now rewrite IH.
  - rewrite andb_true_r. destruct (String.eqb s source); [reflexivity|].
    unfold remoteLoads in *. cbn. exact IH.
Qed.

Lemma remoteLoads_ended_remote (source : string) (loads : list (string * bool)) :
  NoDup (remoteLoads loads) ->
  NoDup (remoteLoads (loadEnded (source, true) loads)) /\
  forall u, In u (remoteLoads (loadEnded (source, true) loads)) <->
            In u (remoteLoads loads) /\ u <> source.
Proof.
  induction loads as [|[s b] rest IH]; intros Hnd.
  - split; [constructor|]. cbn. tauto.
  - cbn [loadEnded]. unfold sameLoad. cbn [fst snd].
    destruct b; cbn [Bool.eqb].
    + rewrite andb_true_r.
      change (remoteLoads ((s, true) :: rest)) with (s :: remoteLoads rest) in *.
      inversion Hnd as [|? ? Hnotin Hrest]; subst.
      destruct (String.eqb_spec s source) as [->|Hne].
      * split; [exact Hrest|]. intros u. cbn [In]. split.
        -- intros Hu. split; [now right|]. intros ->. contradiction.
        -- intros [[Heq|Hu] Hneq]; [congruence|exact Hu].
      * destruct (IH Hrest) as [IHnd IHin].
        change (remoteLoads ((s, true) :: loadEnded (source, true) rest))
          with (s :: remoteLoads (loadEnded (source, true) rest)).
        split.
        -- constructor; [|exact IHnd]. intros Hin. apply IHin in Hin. tauto.
        -- intros u. cbn [In]. rewrite IHin. split.
           ++ intros [Heq|[Hu Hneq]]; [subst; tauto|tauto].
           ++ tauto.
    + rewrite andb_false_r.
      change (remoteLoads ((s, false) :: rest)) with (remoteLoads rest) in *.
      change (remoteLoads ((s, false) :: loadEnded (source, true) rest))
        with (remoteLoads (loadEnded (source, true) rest)).
      exact (IH Hnd).
Qed.

Lemma In_remoteLoads (source : string) (loads : list (string * bool)) :
  In (source, true) loads -> In source (remoteLoads loads).
Proof.
  intros Hin. unfold remoteLoads. apply in_map_iff. exists (source, true).
  split; [reflexivity|]. apply filter_In. now split.
Qed.

Lemma In_revoked (u v : string) (urls : list string) :
  In v (filter (fun w => negb (String.eqb w u)) urls) <-> In v urls /\ v <> u.
Proof.
  rewrite filter_In, negb_true_iff, String.eqb_neq. tauto.
Qed.

(** The invariant reads the ref, the live object URLs and the object URLs
    that are being loaded, and nothing else. *)
Lemma urlsInvariant_transfer (st st' : State) :
  remoteObjectUrlRef st' = remoteObjectUrlRef st ->
  objectUrls st' = objectUrls st ->
  remoteLoads (imageLoads st') = remoteLoads (imageLoads st) ->
  urlsInvariant st -> urlsInvariant st'.
Proof.
  intros Hr Hu Hl [H1 H2 H3 H4 H5 H6].
  constructor; rewrite ?Hr, ?Hu, ?Hl; assumption.
Qed.

Lemma urlsInvariant_revokeRemoteObjectUrl (st : State) :
  urlsInvariant st -> urlsInvariant (revokeRemoteObjectUrl st).
Proof.
  intros Hinv. unfold revokeRemoteObjectUrl.
  destruct (remoteObjectUrlRef st) as [current|] eqn:Href; [|exact Hinv].
  destruct (truthy current); [|exact Hinv].
  destruct Hinv as [H1 H2 H3 H4 H5 H6].
  destruct (H4 _ Href) as [Hlive Hnotloading].
  constructor; cbn.
  - now apply NoDup_filter.
  - rewrite In_revoked. tauto.
  - intros u Hu. apply In_revoked in Hu. destruct Hu as [Hu Hne].
    destruct (H3 _ Hu) as [Heq|Hload]; [congruence|now right].
  - discriminate.
  - intros u Hu. apply In_revoked. split; [now apply H5|].
    intros ->. contradiction.
  - exact H6.
Qed.

Lemma NoDup_snoc (u : string) (urls : list string) :
  NoDup urls -> ~ In u urls -> NoDup (urls ++ [u]).
Proof.
  intros Hnd Hnotin.
  apply (Permutation_NoDup (Permutation_cons_append urls u)).
  now constructor.
Qed.

Ltac page_fields :=
  unfold handleUrlInput_settle, image_onload, image_onerror, reader_onload, reader_onerror,
         handleFileUpload, clearSearch, loadImage, createObjectURL, revokeObjectURL,
         productsLoaded, setUploadedImage, setImageElement, setSimilarProducts, setLoading,
         setError, setFilterThreshold, setInputValues, setRemoteObjectUrlRef, setObjectUrls,
         setImageLoads;
  cbn [remoteObjectUrlRef objectUrls imageLoads].

Ltac same_urls st Hinv :=
  refine (@urlsInvariant_transfer st _ _ _ _ Hinv);
  page_fields; rewrite ?remoteLoads_app, ?remoteLoads_ended_local, ?app_nil_r; reflexivity.

Lemma urlsInvariant_settle (proxy : ProxyOutcome) (normalizedUrl : string) (st : State) :
  (forall objectUrl, proxy = ProxyBlob objectUrl ->
                     objectUrl <> "" /\ ~ In objectUrl (objectUrls st)) ->
  urlsInvariant st -> urlsInvariant (handleUrlInput_settle proxy normalizedUrl st).
Proof.
  intros Hnew Hinv. destruct proxy as [o|]; [|same_urls st Hinv].
  destruct (Hnew o eq_refl) as [Hne Hfresh].
  destruct Hinv as [H1 H2 H3 H4 H5 H6].
  constructor; page_fields; rewrite ?remoteLoads_app.
  - now apply NoDup_snoc.
  - rewrite in_app_iff. cbn [In]. intros [Hin|[Heq|[]]]; [contradiction|congruence].
  - intros u Hu. apply in_app_iff in Hu. rewrite in_app_iff. cbn [In] in *.
    destruct Hu as [Hu|[Heq|[]]]; [|now right; right; left].
    destruct (H3 _ Hu); [now left|now right; left].
  - intros r Hr. destruct (H4 _ Hr) as [Hlive Hnotloading].
    rewrite !in_app_iff. cbn [In]. split; [now left|].
    intros [Hin|[Heq|[]]]; [contradiction|congruence].
  - intros u Hu. apply in_app_iff in Hu. rewrite in_app_iff. cbn [In] in *.
    destruct Hu as [Hu|[Heq|[]]]; [left; now apply H5|now right; left].
  - apply NoDup_snoc; [exact H6|]. intros Hin. now apply Hfresh, H5.
Qed.

Lemma urlsInvariant_image_onload (image : Image) (isRemoteObjectUrl : bool) (st : State) :
  In (src image, isRemoteObjectUrl) (imageLoads st) ->
  urlsInvariant st -> urlsInvariant (image_onload image isRemoteObjectUrl st).
Proof.
  intros Hloading Hinv. destruct isRemoteObjectUrl; [|same_urls st Hinv].
  apply In_remoteLoads in Hloading.
  destruct Hinv as [H1 H2 H3 H4 H5 H6].
  destruct (remoteLoads_ended_remote (src image) (imageLoads st) H6) as [Hnd Hrest].
  unfold image_onload. cbv zeta.
  cbn [remoteObjectUrlRef setImageLoads].
  destruct (remoteObjectUrlRef st) as [current|] eqn:Href.
  - destruct (H4 _ eq_refl) as [Hlive Hnotloading].
    assert (Hcur : current <> src image) by (intros ->; contradiction).
    assert (Hnonempty : current <> "") by (intros ->; contradiction).
    unfold truthy.
    rewrite (proj2 (String.eqb_neq _ _) Hcur), (proj2 (String.eqb_neq _ _) Hnonempty).
    cbn [negb andb].
    constructor; page_fields.
    + now apply NoDup_filter.
    + rewrite In_revoked. tauto.
    + intros u Hu. apply In_revoked in Hu. destruct Hu as [Hu Hne].
      destruct (H3 _ Hu) as [Heq|Hload]; [congruence|].
      destruct (String.eqb_spec u (src image)) as [->|Hother]; [now left|].
      right. apply Hrest. now split.
    + intros r Hr. injection Hr as <-. split.
      * apply In_revoked. split; [now apply H5|congruence].
      * rewrite Hrest. tauto.
    + intros u Hu. apply Hrest in Hu. destruct Hu as [Hu Hne].
      apply In_revoked. split; [now apply H5|]. intros ->. contradiction.
    + exact Hnd.
  - constructor; page_fields.
    + exact H1.
    + exact H2.
    + intros u Hu. destruct (H3 _ Hu) as [Heq|Hload]; [congruence|].
      destruct (String.eqb_spec u (src image)) as [->|Hother]; [now left|].
      right. apply Hrest. now split.
    + intros r Hr. injection Hr as <-. split; [now apply H5|].
      rewrite Hrest. tauto.
    + intros u Hu. apply Hrest in Hu. now apply H5.
    + exact Hnd.
Qed.

Lemma urlsInvariant_image_onerror (source : string) (isRemoteObjectUrl : bool) (st : State) :
  In (source, isRemoteObjectUrl) (imageLoads st) ->
  urlsInvariant st -> urlsInvariant (image_onerror source isRemoteObjectUrl st).
Proof.
  intros Hloading Hinv. destruct isRemoteObjectUrl; [|same_urls st Hinv].
  apply In_remoteLoads in Hloading.
  destruct Hinv as [H1 H2 H3 H4 H5 H6].
  destruct (remoteLoads_ended_remote source (imageLoads st) H6) as [Hnd Hrest].
  constructor; page_fields.
  - now apply NoDup_filter.
  - rewrite In_revoked. tauto.
  - intros u Hu. apply In_revoked in Hu. destruct Hu as [Hu Hne].
    destruct (H3 _ Hu) as [Heq|Hload]; [now left|].
    right. apply Hrest. now split.
  - intros r Hr. destruct (H4 _ Hr) as [Hlive Hnotloading]. split.
    + apply In_revoked. split; [exact Hlive|]. intros ->. contradiction.
    + rewrite Hrest. tauto.
  - intros u Hu. apply Hrest in Hu. destruct Hu as [Hu Hne].
    apply In_revoked. split; [now apply H5|exact Hne].
  - exact Hnd.
Qed.

Lemma urlsInvariant_step (st st' : State) :
  step st st' -> urlsInvariant st -> urlsInvariant st'.
Proof.
  intros Hstep Hinv. inversion Hstep; subst.
  - same_urls st Hinv.
  - same_urls st Hinv.
  - same_urls st Hinv.
  - unfold handleFileUpload. apply urlsInvariant_revokeRemoteObjectUrl.
    same_urls st Hinv.
  - destruct result as [r|]; [|same_urls st Hinv].
    unfold reader_onload. destruct (truthy r); same_urls st Hinv.
  - same_urls st Hinv.
  - unfold handleUrlInput_begin. cbv zeta.
    destruct (negb _); cbn [fst]; same_urls st Hinv.
  - now apply urlsInvariant_settle.
  - now apply urlsInvariant_image_onload.
  - now apply urlsInvariant_image_onerror.
  - unfold handleSearch.
    destruct (imageElement st) as [image|]; [|same_urls st Hinv].
    destruct (_ =? _)%nat; [same_urls st Hinv|]. cbv zeta.
    destruct (drawing image); same_urls st Hinv.
  - unfold clearSearch.
    match goal with
    | |- urlsInvariant (setInputValues _ _ ?cleared) =>
        apply (@urlsInvariant_transfer cleared); [reflexivity..|]
    end.
    apply urlsInvariant_revokeRemoteObjectUrl. same_urls st Hinv.
  - now apply urlsInvariant_revokeRemoteObjectUrl.
Qed.

Lemma urlsInvariant_reachable (st : State) : reachable st -> urlsInvariant st.
Proof.
  induction 1 as [|st st' _ IH Hstep].
  - constructor; cbn; try tauto; try discriminate; constructor.
  - exact (urlsInvariant_step Hstep IH).
Qed.

Lemma only_element (r : string) (urls : list string) :
  NoDup urls -> In r urls -> (forall u, In u urls -> u = r) -> urls = [r].
Proof.
  intros Hnd Hin Hall. destruct urls as [|a rest]; [contradiction|].
  assert (a = r) as -> by (apply Hall; now left).
  destruct rest as [|b rest]; [reflexivity|].
  assert (b = r) as -> by (apply Hall; right; now left).
  inversion Hnd as [|? ? Hnotin _]. exfalso. apply Hnotin. now left.
Qed.

Lemma revokeRemoteObjectUrl_leaves_loading (st : State) :
  urlsInvariant st ->
  remoteObjectUrlRef (revokeRemoteObjectUrl st) = None /\
  imageLoads (revokeRemoteObjectUrl st) = imageLoads st /\
  forall u, In u (objectUrls (revokeRemoteObjectUrl st)) <->
            In u (remoteLoads (imageLoads st)).
Proof.
  intros [H1 H2 H3 H4 H5 H6]. unfold revokeRemoteObjectUrl.
  destruct (remoteObjectUrlRef st) as [current|] eqn:Href.
  - destruct (H4 _ eq_refl) as [Hlive Hnotloading].
    assert (Hnonempty : current <> "") by (intros ->; contradiction).
    unfold truthy. rewrite (proj2 (String.eqb_neq _ _) Hnonempty). cbn [negb].
    page_fields. repeat split.
    + intros Hu. apply In_revoked in Hu. destruct Hu as [Hu Hne].
      destruct (H3 _ Hu) as [Heq|Hload]; [congruence|exact Hload].
    + intros Hu. apply In_revoked. split; [now apply H5|].
      intros ->. contradiction.
  - repeat split; [exact Href| |apply H5].
    intros Hu. destruct (H3 _ Hu) as [Heq|Hload]; [congruence|exact Hload].
Qed.

Lemma remoteShownState_reachable : reachable PageSamples.remoteShownState.
Proof.
  refine (reachable_step
            (reachable_step reachable_initial
               (@step_urlSettled (ProxyBlob "blob:http://localhost:3000/1")
                  "https://example.com/a.png" initialState _))
            (@step_imageLoaded PageSamples.remoteImage true _ _)).
  - intros objectUrl Heq. injection Heq as <-. split; [discriminate|].
    intros [].
  - left. reflexivity.
Qed.

Lemma secondLoadingState_reachable : reachable PageSamples.secondLoadingState.
Proof.
  refine (reachable_step remoteShownState_reachable
            (@step_urlSettled (ProxyBlob "blob:http://localhost:3000/2")
               "https://example.com/b.png" PageSamples.remoteShownState _)).
  intros objectUrl Heq. injection Heq as <-. split; [discriminate|].
  intros [Heq|[]]. discriminate.
Qed.

End ObjectUrlFacts.

(** X15. Object URLs do not leak and are not used after they are
    revoked.  In every state that the handlers of the page can reach, the
    object URLs that are created and not revoked are distinct; each one is
    the one in [remoteObjectUrlRef] or belongs to an image that is still
    loading; the one in the ref is not revoked; and every image that is
    loading from an object URL loads from one that is not revoked.  So
    when no such image is loading, the only object URL left is the one in
    the ref, if there is one. *)
Theorem object_urls_never_leak (st : Page.State) :
  Page.reachable st ->
  Page.urlsInvariant st /\
  (Page.remoteLoads (Page.imageLoads st) = [] ->
   Page.objectUrls st =
   match Page.remoteObjectUrlRef st with Some r => [r] | None => [] end).
Proof.
  intros Hreach.
  pose proof (ObjectUrlFacts.urlsInvariant_reachable Hreach) as Hinv.
  split; [exact Hinv|]. intros Hidle.
  destruct Hinv as [H1 H2 H3 H4 H5 H6]. rewrite Hidle in *.
  destruct (Page.remoteObjectUrlRef st) as [r|] eqn:Href.
  - apply ObjectUrlFacts.only_element; [exact H1|now apply H4|].
    intros u Hu. destruct (H3 _ Hu) as [Heq|[]]. congruence.
  - destruct (Page.objectUrls st) as [|u rest]; [reflexivity|].
    destruct (H3 u (or_introl eq_refl)) as [Heq|[]]. discriminate.
Qed.

Lemma object_urls_never_leak_witness :
  Page.reachable PageSamples.remoteShownState /\
  Page.objectUrls PageSamples.remoteShownState = ["blob:http://localhost:3000/1"].
Proof.
  split; [exact ObjectUrlFacts.remoteShownState_reachable|].
  exact (proj2 (object_urls_never_leak ObjectUrlFacts.remoteShownState_reachable) eq_refl).
Defined.

(** X16. Clearing the search, starting a file upload and the clean-up at
    unmount release the image that is shown: from every reachable state
    they lead to a state in which [remoteObjectUrlRef] is null and the only
    object URLs left are those of the images that are still loading, which
    go on loading. *)
Theorem revokeRemoteObjectUrl_releases (st st' : Page.State) :
  Page.reachable st ->
  st' = Page.revokeRemoteObjectUrl st \/ st' = Page.clearSearch st \/
  (exists hasFile, st' = Page.handleFileUpload hasFile st) ->
  Page.remoteObjectUrlRef st' = None /\
  Page.imageLoads st' = Page.imageLoads st /\
  forall u, In u (Page.objectUrls st') <-> In u (Page.remoteLoads (Page.imageLoads st)).
Proof.
  intros Hreach Hcase.
  pose proof (ObjectUrlFacts.urlsInvariant_reachable Hreach) as Hinv.
  destruct Hcase as [->|[->|[hasFile ->]]].
  - now apply ObjectUrlFacts.revokeRemoteObjectUrl_leaves_loading.
  - unfold Page.clearSearch.
    match goal with
    | |- context [Page.revokeRemoteObjectUrl ?cleared] =>
        assert (Hcleared : Page.urlsInvariant cleared)
          by (refine (@ObjectUrlFacts.urlsInvariant_transfer st _ _ _ _ Hinv); reflexivity);
        exact (ObjectUrlFacts.revokeRemoteObjectUrl_leaves_loading Hcleared)
    end.
  - unfold Page.handleFileUpload.
    match goal with
    | |- context [Page.revokeRemoteObjectUrl ?cleared] =>
        assert (Hcleared : Page.urlsInvariant cleared)
          by (refine (@ObjectUrlFacts.urlsInvariant_transfer st _ _ _ _ Hinv); reflexivity);
        exact (ObjectUrlFacts.revokeRemoteObjectUrl_leaves_loading Hcleared)
    end.
Qed.

Lemma revokeRemoteObjectUrl_releases_witness :
  Page.reachable PageSamples.secondLoadingState /\
  Page.remoteObjectUrlRef (Page.clearSearch PageSamples.secondLoadingState) = None /\
  Page.imageLoads (Page.clearSearch PageSamples.secondLoadingState) =
  [("blob:http://localhost:3000/2", true)] /\
  forall u, In u (Page.objectUrls (Page.clearSearch PageSamples.secondLoadingState)) <->
            In u ["blob:http://localhost:3000/2"].
Proof.
  split; [exact ObjectUrlFacts.secondLoadingState_reachable|].
  exact (@revokeRemoteObjectUrl_releases PageSamples.secondLoadingState
           (Page.clearSearch PageSamples.secondLoadingState)
           ObjectUrlFacts.secondLoadingState_reachable (or_intror (or_introl eq_refl))).
Defined.

(** X17. Loading an image by URL settles, whatever the proxy does, when
    the parser keeps its promise about lengths, and what it leaves is a
    state that the handlers of the page reach.  With a blank input it
    reports "Please enter a valid image URL" and loads nothing.  With any
    other input the error is cleared; a blob of the proxy is shown and
    loaded through its object URL, and when the proxy fails the image is
    shown and loaded from the normalized URL itself. *)
Theorem handleUrlInput_settles `{UrlPlatform} (trim : string -> string)
    (proxy : Page.ProxyOutcome) (st : Page.State) :
  paramsShorter ->
  Page.reachable st ->
  (forall objectUrl, proxy = Page.ProxyBlob objectUrl ->
                     objectUrl <> "" /\ ~ In objectUrl (Page.objectUrls st)) ->
  exists st' : Page.State,
    Page.handleUrlInput trim proxy st = Some st' /\
    Page.reachable st' /\
    if truthy (trim (Page.urlInputValue st)) then
      exists normalizedUrl : string,
        normalizeImageUrl (trim (Page.urlInputValue st)) = Some normalizedUrl /\
        Page.error st' = None /\
        match proxy with
        | Page.ProxyBlob objectUrl =>
            Page.uploadedImage st' = Some objectUrl /\
            Page.imageLoads st' = (Page.imageLoads st ++ [(objectUrl, true)])%list /\
            Page.objectUrls st' = (Page.objectUrls st ++ [objectUrl])%list
        | Page.ProxyFailed =>
            Page.uploadedImage st' = Some normalizedUrl /\
            Page.imageLoads st' = (Page.imageLoads st ++ [(normalizedUrl, false)])%list /\
            Page.objectUrls st' = Page.objectUrls st
        end
    else
      Page.error st' = Some "Please enter a valid image URL" /\
      Page.uploadedImage st' = Page.uploadedImage st /\
      Page.imageLoads st' = Page.imageLoads st /\
      Page.objectUrls st' = Page.objectUrls st.
Proof.
  intros Hshort Hreach Hfresh.
  pose proof (Page.reachable_step Hreach (Page.step_urlBegin trim st)) as Hbegin.
  revert Hbegin. unfold Page.handleUrlInput, Page.handleUrlInput_begin. cbv zeta.
  change (Page.urlInputValue (Page.setError None st)) with (Page.urlInputValue st).
  destruct (truthy (trim (Page.urlInputValue st))) eqn:Htruthy; cbn [negb fst]; intros Hbegin.
  - destruct (normalizeImageUrlWithin_returns Hshort
                (depth := S (String.length (trim (Page.urlInputValue st))))
                (trim (Page.urlInputValue st))) as [normalizedUrl Hn]; [lia|].
    fold (normalizeImageUrl (trim (Page.urlInputValue st))) in Hn. rewrite Hn.
    eexists. split; [reflexivity|]. split.
    + apply (Page.reachable_step Hbegin). apply Page.step_urlSettled. exact Hfresh.
    + exists normalizedUrl. split; [reflexivity|]. destruct proxy; repeat split.
  - eexists. split; [reflexivity|]. split; [exact Hbegin|]. repeat split.
Qed.

Lemma handleUrlInput_settles_witness :
  exists st' : Page.State,
    Page.handleUrlInput (H := MoreSamples.closedPlatform) (fun s => s) Page.ProxyFailed
                        PageSamples.typedState = Some st' /\
    Page.uploadedImage st' =
    Some "https://images.unsplash.com/photo-1?auto=format&fit=crop&fm=jpg".
Proof.
  destruct (@handleUrlInput_settles MoreSamples.closedPlatform (fun s => s) Page.ProxyFailed
              PageSamples.typedState closedPlatform_paramsShorter
              (Page.reachable_step Page.reachable_initial
                 (Page.step_inputChanged "" MoreSamples.wrapperLink Page.initialState)))
    as [st' [Hsettled [_ Hshown]]]; [discriminate|].
  exists st'. split; [exact Hsettled|].
  cbn in Hshown. destruct Hshown as [normalizedUrl [Hn [_ [Hup _]]]].
  rewrite Hup. f_equal. vm_compute in Hn. now injection Hn as <-.
Defined.
